(** * FastAC: enforcement driver, rule tables, role manager and path matcher

    A shallow embedding of the Go sources of [oarkflow/fastac]
    ([enforcer.go], [model/policy], [rbac/role_manager.go] and the
    [pathmatch] package) together with the properties the
    natural-language specification states about them.

    Conventions.  Go [int] values are [Z]; Go strings are [string]; Go
    maps and [sync.Map]s are [gmap]s or [gset]s keyed by strings; a Go
    function returning [(value, error)] returns a pair whose second
    component is an [option]; code that mutates its receiver takes the
    receiver's state and returns the new one. *)

From Stdlib Require Import ZArith Lia List Bool Ascii String.
From Stdlib Require Import DecimalString.
From stdpp Require Import base option list gmap strings.

Local Open Scope string_scope.
Local Open Scope Z_scope.
Local Open Scope list_scope.

Set Warnings "-clear-no-such-hyp".

(** A rule is a Go [[]string]. *)
Abbreviation Rule := (list string).

(* ===================================================================== *)
(** * Effects ([model/eft]) *)
(* ===================================================================== *)

Module Eft.

(** The three decisions of [model/eft]. *)
Inductive Effect : Type := Allow | Indeterminate | Deny.

#[export] Instance Effect_eq_dec : EqDecision Effect.
Proof. solve_decision. Defined.

End Eft.
Export Eft.

(* ===================================================================== *)
(** * The enforcement driver ([enforcer.go], [Enforcer.enforce]) *)
(* ===================================================================== *)

Module Enforcer.
Section Enforce.

(** Go [error] values. *)
Variable Err : Type.

(** [ctx.effector.MergeEffects(effects, matches, complete)]: the
    effector is an interface of the model; the driver is verified for
    every implementation of it. *)
Variable MergeEffects :
  list Effect -> list Rule -> bool -> Effect * list Z * option Err.

(** [pDef.GetEft(rule)] *)
Variable GetEft : Rule -> Effect.

(** The compiled matcher expression evaluated on one rule: an
    expression-eval error, or the boolean it coerces to. *)
Variable evalMatcher : Rule -> Err + bool.

(** Modelled from the spec: [IModel.RangeMatches] (section 4.G; only the
    [IMatcher] interface is in the sources).  For each rule of the
    table, in the order the table yields them, the expression is
    evaluated; an evaluation error is surfaced at once; a rule whose
    result is [true] is handed to the visitor, and iteration stops
    when the visitor returns [false]. *)
Fixpoint RangeMatches {St : Type} (rules : list Rule)
    (fn : Rule -> St -> bool * St) (st : St) : option Err * St :=
  match rules with
  | [] => (None, st)
  | rule :: rest =>
      match evalMatcher rule with
      | inl e => (Some e, st)
      | inr false => RangeMatches rest fn st
      | inr true =>
          let '(continue, st') := fn rule st in
          if continue then RangeMatches rest fn st' else (None, st')
      end
  end.

(** One call of [MergeEffects], as the effector sees it. *)
Record Call : Type := mkCall {
  call_effects : list Effect;
  call_matches : list Rule;
  call_complete : bool
}.

(** The variables the closure of [enforce] captures, and the log of
    the [MergeEffects] calls made so far. *)
Record Locals : Type := mkLocals {
  res : Effect;
  effects : list Effect;
  matches : list Rule;
  eftErr : option Err;
  calls : list Call
}.

(** [err != nil] *)
Definition notNil {A : Type} (e : option A) : bool :=
  match e with Some _ => true | None => false end.

Definition initLocals : Locals :=
  {| res := Indeterminate; effects := []; matches := [];
     eftErr := None; calls := [] |}.

(** The visitor passed to [RangeMatchesWithContext] (lines 323-335). *)
Definition visitor (rule : Rule) (l : Locals) : bool * Locals :=
  let effect := GetEft rule in
  let effects' := effects l ++ [effect] in
  let matches' := matches l ++ [rule] in
  let '(r, _, e) := MergeEffects effects' matches' false in
  let l' := {| res := r; effects := effects'; matches := matches';
               eftErr := e;
               calls := calls l ++ [mkCall effects' matches' false] |} in
  if notNil e || negb (bool_decide (r = Indeterminate))
  then (false, l')
  else (true, l').

(** [Enforcer.enforce] (lines 315-348): the boolean, the error, and
    the calls of [MergeEffects] it made. *)
Definition enforce (rules : list Rule) : bool * option Err * list Call :=
  let '(err, l) := RangeMatches rules visitor initLocals in
  match err with
  | Some e => (false, Some e, calls l)
  | None =>
      match eftErr l with
      | Some _ => (false, err, calls l)
      | None =>
          if bool_decide (res l = Indeterminate) then
            let '(r, _, _) := MergeEffects (effects l) (matches l) true in
            (bool_decide (r = Allow), None,
             calls l ++ [mkCall (effects l) (matches l) true])
          else (bool_decide (res l = Allow), None, calls l)
      end
  end.

(** [Enforcer.FilterWithContext] (lines 294-301): the rules its visitor
    collected, and the error of the range. *)
Definition FilterWithContext (rules : list Rule) : list Rule * option Err :=
  let '(err, collected) :=
    RangeMatches rules (fun rule collected => (true, collected ++ [rule])) []
  in (collected, err).

(** The matcher expression holds of the rule. *)
Definition selects (rule : Rule) : bool :=
  match evalMatcher rule with
  | inr true => true
  | _ => false
  end.

(** ** The stream of matches, as the specification describes it *)

(** The rules the matcher selects, in table order, up to the first
    evaluation error, and that error. *)
Fixpoint matched (rules : list Rule) : list Rule * option Err :=
  match rules with
  | [] => ([], None)
  | rule :: rest =>
      match evalMatcher rule with
      | inl e => ([], Some e)
      | inr false => matched rest
      | inr true => let '(ms, e) := matched rest in (rule :: ms, e)
      end
  end.

(** The [k]-th streaming call ([k] counted from 1) offers the first [k]
    matches and their effects with [complete = false]. *)
Definition streamCall (ms : list Rule) (k : nat) : Call :=
  mkCall (map GetEft (take k ms)) (take k ms) false.

Definition streamResult (ms : list Rule) (k : nat)
    : Effect * list Z * option Err :=
  MergeEffects (map GetEft (take k ms)) (take k ms) false.

(** The decision and the error of the [k]-th streaming call. *)
Definition streamDecision (ms : list Rule) (k : nat) : Effect :=
  (streamResult ms k).1.1.

Definition streamError (ms : list Rule) (k : nat) : option Err :=
  (streamResult ms k).2.

(** "Keep streaming": [Indeterminate] and no error. *)
Definition keepsStreaming (ms : list Rule) (k : nat) : bool :=
  negb (notNil (streamError ms k))
  && bool_decide (streamDecision ms k = Indeterminate).

(** The call with [complete = true] over all matches. *)
Definition finalCall (ms : list Rule) : Call :=
  mkCall (map GetEft ms) ms true.

Definition finalDecision (ms : list Rule) : Effect :=
  (MergeEffects (map GetEft ms) ms true).1.1.

(** The first streaming call, if any, that does not say "keep streaming". *)
Definition firstStop (ms : list Rule) : option nat :=
  snd <$> list_find (fun k => keepsStreaming ms k = false)
                    (seq 1 (length ms)).

(** The merged effect decision of a run: the decision of the first
    streaming call that commits; when every streaming call says "keep
    streaming", the decision of the call with [complete = true].  A
    streaming call that reports an error, or a matcher that fails
    before any call commits, leaves the run without a decision. *)
Definition mergedDecision (ms : list Rule) (merr : option Err)
    : option Effect :=
  match firstStop ms with
  | Some k =>
      if notNil (streamError ms k) then None else Some (streamDecision ms k)
  | None =>
      if notNil merr then None else Some (finalDecision ms)
  end.

End Enforce.

Arguments RangeMatches {Err} evalMatcher {St} rules fn st.
Arguments res {Err} l.
Arguments effects {Err} l.
Arguments matches {Err} l.
Arguments eftErr {Err} l.
Arguments calls {Err} l.
Arguments initLocals {Err}.
Arguments visitor {Err} MergeEffects GetEft rule l.
Arguments enforce {Err} MergeEffects GetEft evalMatcher rules.
Arguments matched {Err} evalMatcher rules.
Arguments FilterWithContext {Err} evalMatcher rules.
Arguments selects {Err} evalMatcher rule.
Arguments streamResult {Err} MergeEffects GetEft ms k.
Arguments streamDecision {Err} MergeEffects GetEft ms k.
Arguments streamError {Err} MergeEffects GetEft ms k.
Arguments keepsStreaming {Err} MergeEffects GetEft ms k.
Arguments finalDecision {Err} MergeEffects GetEft ms.
Arguments firstStop {Err} MergeEffects GetEft ms.
Arguments mergedDecision {Err} MergeEffects GetEft ms merr.

End Enforcer.

(* ===================================================================== *)
(** * Outcomes of Go code that can panic or loop *)
(* ===================================================================== *)

(** A Go [error] value (its message). *)
Definition error : Type := string.

(** The outcome of running a Go function: it returns, it panics (a
    slice out of range, a failed type assertion), or the fuel given to
    the model is used up before it returns. *)
Inductive result (A : Type) : Type :=
  | Ok (a : A)
  | Panic
  | OutOfFuel.
Arguments Ok {A} a.
Arguments Panic {A}.
Arguments OutOfFuel {A}.

(** A computation on a mutable receiver of type [S]. *)
Definition Exec (S A : Type) : Type := S -> result (A * S).

Definition ret {S A : Type} (a : A) : Exec S A :=
  fun s => Ok (a, s).

Definition bind {S A B : Type} (m : Exec S A) (f : A -> Exec S B)
    : Exec S B :=
  fun s =>
    match m s with
    | Ok (a, s') => f a s'
    | Panic => Panic
    | OutOfFuel => OutOfFuel
    end.

(** A step that only changes the receiver. *)
Definition modify {S : Type} (f : S -> S) : Exec S unit :=
  fun s => Ok (tt, f s).

Declare Scope exec_scope.
Delimit Scope exec_scope with exec.
Notation "'do' x <- m ; k" := (bind m (fun x => k))
  (at level 10, x name, m at level 100, k at level 200) : exec_scope.
Notation "'do' ' p <- m ; k" := (bind m (fun p => k))
  (at level 10, p pattern, m at level 100, k at level 200) : exec_scope.
Notation "m ;; k" := (bind m (fun _ => k))
  (at level 100, k at level 200, right associativity) : exec_scope.

(* ===================================================================== *)
(** * Rule tables ([model/policy], [Policy]) *)
(* ===================================================================== *)

Module Policy.

(** The events of the table's emitter, with their payload. *)
Inductive Event : Type :=
  | EVT_RULE_ADDED (rule : Rule)
  | EVT_RULE_REMOVED (rule : Rule)
  | EVT_CLEARED.

#[export] Instance Event_eq_dec : EqDecision Event.
Proof. solve_decision. Defined.

(** [Policy]: the rule map, and the events emitted so far (the embedded
    [Emitter], seen from its subscribers). *)
Record Policy : Type := mkPolicy {
  ruleMap : gmap string Rule;
  emitted : list Event
}.

Section Table.

(** [util.Hash]: the fingerprint of a rule. *)
Variable Hash : Rule -> string.

Definition NewPolicy : Policy :=
  {| ruleMap := ∅; emitted := [] |}.

(** [p.Emitter.EmitEvent(evt, ...)] *)
Definition EmitEvent (evt : Event) (p : Policy) : Policy :=
  {| ruleMap := ruleMap p; emitted := emitted p ++ [evt] |}.

(** [Policy.AddRule] (lines 39-47). *)
Definition AddRule (rule : Rule) (p : Policy) : (bool * option error) * Policy :=
  let key := Hash rule in
  match ruleMap p !! key with
  | Some _ => ((false, None), p)
  | None =>
      let p1 := {| ruleMap := <[key := rule]> (ruleMap p);
                   emitted := emitted p |} in
      ((true, None), EmitEvent (EVT_RULE_ADDED rule) p1)
  end.

(** [Policy.RemoveRule] (lines 49-58). *)
Definition RemoveRule (rule : Rule) (p : Policy)
    : (bool * option error) * Policy :=
  let key := Hash rule in
  match ruleMap p !! key with
  | None => ((false, None), p)
  | Some _ =>
      let p1 := {| ruleMap := delete key (ruleMap p);
                   emitted := emitted p |} in
      ((true, None), EmitEvent (EVT_RULE_REMOVED rule) p1)
  end.

(** [Policy.Clear] (lines 72-76). *)
Definition Clear (p : Policy) : option error * Policy :=
  (None, EmitEvent EVT_CLEARED {| ruleMap := ∅; emitted := emitted p |}).

End Table.

(** The [RULE_ADDED] events in a log. *)
Definition isRuleAdded (e : Event) : bool :=
  match e with EVT_RULE_ADDED _ => true | _ => false end.

Definition ruleAdded (evts : list Event) : list Event :=
  filter (fun e => isRuleAdded e = true) evts.

(** The loop of [Range] over the rules the map yields: [fn] runs on
    each rule, with the state [st] its closure holds, until it returns
    [false]. *)
Fixpoint rangeRules {St : Type} (rules : list Rule)
    (fn : Rule -> St -> bool * St) (st : St) : St :=
  match rules with
  | [] => st
  | r :: rest =>
      let '(continue, st') := fn r st in
      if negb continue then st' else rangeRules rest fn st'
  end.

(** [Policy.Range] (lines 60-66).  [mapOrder] is the order in which the
    [range] over the map yields its values; Go leaves it unspecified. *)
Definition Range {St : Type} (mapOrder : gmap string Rule -> list Rule)
    (fn : Rule -> St -> bool * St) (p : Policy) (st : St) : St :=
  rangeRules (mapOrder (ruleMap p)) fn st.



(** The number of rules a log of events accounts for: one more for
    each rule added, one less for each rule removed, none after a
    clear. *)
Definition balance (evts : list Event) : Z :=
  foldl (fun n e =>
           match e with
           | EVT_RULE_ADDED _ => n + 1
           | EVT_RULE_REMOVED _ => n - 1
           | EVT_CLEARED => 0
           end) 0 evts.

Section Built.

Variable Hash : Rule -> string.

(** The tables built from [NewPolicy] by the operations. *)
Inductive built : Policy -> Prop :=
  | built_new : built NewPolicy
  | built_add (rule : Rule) (p : Policy) :
      built p -> built (AddRule Hash rule p).2
  | built_remove (rule : Rule) (p : Policy) :
      built p -> built (RemoveRule Hash rule p).2
  | built_clear (p : Policy) :
      built p -> built (Clear p).2.

End Built.

End Policy.

(* ===================================================================== *)
(** * The role manager ([rbac/role_manager.go]) *)
(* ===================================================================== *)

Module Rbac.

(** [util.IMatcher]: the pattern-aware string matcher. *)
Record IMatcher : Type := mkMatcher {
  Match : string -> string -> bool;
  IsPattern : string -> bool
}.

(** Modelled from the spec: the [Role] type (section 3, "Role graph";
    [rbac/role.go] is not among the sources).  A role is held in the
    store under its name, and its edge sets hold the names of the roles
    they point to: the roles it inherits, the roles that inherit it, the
    roles that match it when it is a pattern, the patterns it matches,
    and the targets marked redundant. *)
Record Role : Type := mkRole {
  roles : gset string;
  users : gset string;
  matched : gset string;
  matchedBy : gset string;
  redundant : gset string
}.

#[export] Instance Role_eq_dec : EqDecision Role.
Proof. solve_decision. Defined.

(** Modelled from the spec: [newRole], a role without edges. *)
Definition newRole : Role :=
  {| roles := ∅; users := ∅; matched := ∅; matchedBy := ∅; redundant := ∅ |}.

Definition setMatched (f : gset string -> gset string) (r : Role) : Role :=
  {| roles := roles r; users := users r; matched := f (matched r);
     matchedBy := matchedBy r; redundant := redundant r |}.

Definition setMatchedBy (f : gset string -> gset string) (r : Role) : Role :=
  {| roles := roles r; users := users r; matched := matched r;
     matchedBy := f (matchedBy r); redundant := redundant r |}.

(** The role objects, by name. *)
Abbreviation Store := (gmap string Role).

(** Modelled from the spec: [role.addMatch(r)] installs the match edge
    from the pattern [role] to [r], and its reverse. *)
Definition addMatch (role r : string) (st : Store) : Store :=
  alter (setMatchedBy (fun s => {[role]} ∪ s)) r
    (alter (setMatched (fun s => {[r]} ∪ s)) role st).

(** Modelled from the spec: [role.removeMatch(r)]. *)
Definition removeMatch (role r : string) (st : Store) : Store :=
  alter (setMatchedBy (fun s => s ∖ {[role]})) r
    (alter (setMatched (fun s => s ∖ {[r]})) role st).

Section Manager.

Local Open Scope exec_scope.

(** [util.SyncLRUCache], the cache of sub-matcher results: its type and
    operations are parameters. *)
Variable Cache : Type.
Variable NewSyncLRUCache : Z -> Cache.
Variable cacheGet : string -> Cache -> option bool * Cache.
Variable cachePut : string -> bool -> Cache -> Cache.

(** The order in which a [Range] over a map with the given keys yields
    them; Go leaves it unspecified. *)
Variable rangeOrder : gset string -> list string.

(** [RoleManager] *)
Record RoleManager : Type := mkRoleManager {
  allRoles : Store;
  patternRoles : gset string;
  maxHierarchyLevel : Z;
  matcher : option IMatcher;
  domainMatcher : option IMatcher;
  matchingFuncCache : Cache
}.

Definition setAllRoles (st : Store) (rm : RoleManager) : RoleManager :=
  {| allRoles := st; patternRoles := patternRoles rm;
     maxHierarchyLevel := maxHierarchyLevel rm; matcher := matcher rm;
     domainMatcher := domainMatcher rm;
     matchingFuncCache := matchingFuncCache rm |}.

Definition setPatternRoles (ps : gset string) (rm : RoleManager)
    : RoleManager :=
  {| allRoles := allRoles rm; patternRoles := ps;
     maxHierarchyLevel := maxHierarchyLevel rm; matcher := matcher rm;
     domainMatcher := domainMatcher rm;
     matchingFuncCache := matchingFuncCache rm |}.

Definition setCache (c : Cache) (rm : RoleManager) : RoleManager :=
  {| allRoles := allRoles rm; patternRoles := patternRoles rm;
     maxHierarchyLevel := maxHierarchyLevel rm; matcher := matcher rm;
     domainMatcher := domainMatcher rm; matchingFuncCache := c |}.

(** [RoleManager.Clear] followed by the rest of [NewRoleManager]. *)
Definition NewRoleManager (maxHierarchyLevel : Z) : RoleManager :=
  {| allRoles := ∅; patternRoles := ∅;
     maxHierarchyLevel := maxHierarchyLevel; matcher := None;
     domainMatcher := None; matchingFuncCache := NewSyncLRUCache 100 |}.

(** [RoleManager.match] (lines 499-508).  Its callers check
    [rm.matcher != nil] first; with a nil matcher the call of
    [rm.matcher.Match] is a nil dereference. *)
Definition rm_match (str pattern : string) : Exec RoleManager bool :=
  fun rm =>
    let cacheKey := str +:+ "$$" +:+ pattern in
    match cacheGet cacheKey (matchingFuncCache rm) with
    | (Some v, c) => Ok (v, setCache c rm)
    | (None, c) =>
        match matcher rm with
        | None => Panic
        | Some m =>
            let matched := Match m str pattern in
            Ok (matched, setCache (cachePut cacheKey matched c) rm)
        end
    end.

(** A [Range] over the given keys that runs [body] on each one. *)
Fixpoint forEach (keys : list string) (body : string -> Exec RoleManager unit)
    : Exec RoleManager unit :=
  match keys with
  | [] => ret tt
  | k :: rest => body k ;; forEach rest body
  end.

(** [RoleManager.rangeMatchingRoles] (lines 510-518): [fn] is given
    the name under which the role is stored. *)
Definition rangeMatchingRoles (pattern : string)
    (fn : string -> RoleManager -> RoleManager) : Exec RoleManager unit :=
  fun rm =>
    forEach (rangeOrder (dom (allRoles rm)))
      (fun name =>
         if bool_decide (pattern <> name) then
           do b <- rm_match name pattern;
           if b then modify (fn name) else ret tt
         else ret tt) rm.

(** [RoleManager.rangeMatchingPatterns] (lines 520-529): the type
    assertion on the loaded value panics when the pattern is not
    stored. *)
Definition rangeMatchingPatterns (name : string)
    (fn : string -> RoleManager -> RoleManager) : Exec RoleManager unit :=
  fun rm =>
    forEach (rangeOrder (patternRoles rm))
      (fun pattern =>
         if bool_decide (pattern <> name) then
           do b <- rm_match name pattern;
           if b then
             (fun rm =>
                match allRoles rm !! pattern with
                | Some _ => Ok (tt, fn pattern rm)
                | None => Panic
                end)
           else ret tt
         else ret tt) rm.

(** [RoleManager.getRole] (lines 539-562): the role's name stands for
    the pointer to it. *)
Definition getRole (name : string) : Exec RoleManager (string * bool) :=
  fun rm =>
    match allRoles rm !! name with
    | Some _ => Ok ((name, false), rm)
    | None =>
        let rm1 := setAllRoles (<[name := newRole]> (allRoles rm)) rm in
        match matcher rm1 with
        | Some m =>
            if IsPattern m name then
              (rangeMatchingRoles name
                 (fun r rm => setAllRoles (addMatch name r (allRoles rm)) rm)
                 ;; ret (name, true))
                (setPatternRoles ({[name]} ∪ patternRoles rm1) rm1)
            else
              (rangeMatchingPatterns name
                 (fun r rm => setAllRoles (addMatch r name (allRoles rm)) rm)
                 ;; ret (name, true)) rm1
        | None => Ok ((name, true), rm1)
        end
    end.

(** Modelled from the spec: [role.removeMatches()] removes the match
    edges of [role], stored under [name] until now, from both ends. *)
Definition removeMatches (name : string) (role : Role) (st : Store) : Store :=
  let st1 := foldr (fun m acc => removeMatch name m acc) st
                   (rangeOrder (matched role)) in
  foldr (fun p acc => removeMatch p name acc) st1
        (rangeOrder (matchedBy role)).

(** [RoleManager.removeRole] with [loadAndDelete] (lines 564-577). *)
Definition removeRole (name : string) (rm : RoleManager) : RoleManager :=
  let rm1 :=
    match allRoles rm !! name with
    | Some role =>
        setAllRoles (removeMatches name role (delete name (allRoles rm))) rm
    | None => rm
    end in
  setPatternRoles (patternRoles rm1 ∖ {[name]}) rm1.

(** Modelled from the spec: [role.rangeRoles], the roles one step from
    [role]: those it inherits, those matching a pattern it inherits, and
    those inherited by a pattern it matches.  A name the store does not
    hold has no edges. *)
Definition edgesOf (sel : Role -> gset string) (st : Store) (name : string)
    : gset string :=
  match st !! name with Some r => sel r | None => ∅ end.

Definition rangeRoles (st : Store) (role : string) : gset string :=
  edgesOf roles st role
  ∪ ⋃ (edgesOf matched st <$> elements (edgesOf roles st role))
  ∪ ⋃ (edgesOf roles st <$> elements (edgesOf matchedBy st role)).

(** The test [a == b || (rm.matcher != nil && rm.match(a, b))] of
    [HasLink] and [hasLinkHelper]. *)
Definition sameOrMatch (a b : string) : Exec RoleManager bool :=
  fun rm =>
    if bool_decide (a = b) then Ok (true, rm)
    else match matcher rm with
         | Some _ => rm_match a b rm
         | None => Ok (false, rm)
         end.

(** The loop of [hasLinkHelper] over the frontier (lines 649-657):
    [inl tt] when it returned [true], else the next frontier. *)
Fixpoint scanRoles (targetName : string) (frontier : list string)
    (nextRoles : gset string) : Exec RoleManager (unit + gset string) :=
  match frontier with
  | [] => ret (inr nextRoles)
  | role :: rest =>
      do b <- sameOrMatch role targetName;
      if b : bool then ret (inl tt)
      else fun rm =>
        scanRoles targetName rest
          (nextRoles ∪ rangeRoles (allRoles rm) role) rm
  end.

(** [RoleManager.hasLinkHelper] (lines 643-660); each call uses one
    unit of fuel. *)
Fixpoint hasLinkHelper (fuel : nat) (targetName : string)
    (roles : gset string) (level : Z) : Exec RoleManager bool :=
  match fuel with
  | O => fun _ => OutOfFuel
  | S fuel' =>
      if (level <=? 0) || bool_decide (size roles = 0%nat) then ret false
      else
        do r <- scanRoles targetName (rangeOrder roles) ∅;
        match r with
        | inl _ => ret true
        | inr nextRoles => hasLinkHelper fuel' targetName nextRoles (level - 1)
        end
  end.

(** The deferred calls of a query: they run when it returns. *)
Definition deferred (created : bool) (name : string) (rm : RoleManager)
    : RoleManager :=
  if created then removeRole name rm else rm.

(** [RoleManager.HasLink] (lines 625-641). *)
Definition HasLink (fuel : nat) (name1 name2 : string)
    : Exec RoleManager (bool * option error) :=
  do b <- sameOrMatch name1 name2;
  if b : bool then ret (true, None)
  else
    do '(user, userCreated) <- getRole name1;
    do '(role, roleCreated) <- getRole name2;
    fun rm =>
      match hasLinkHelper fuel role {[user]} (maxHierarchyLevel rm) rm with
      | Ok (found, rm') =>
          Ok ((found, None),
              deferred userCreated user (deferred roleCreated role rm'))
      | Panic => Panic
      | OutOfFuel => OutOfFuel
      end.

(** Modelled from the spec: [role.getRoles()] and [role.getUsers()],
    the names on the role's edges. *)
Definition getRoles (st : Store) (role : string) : list string :=
  rangeOrder (edgesOf roles st role).

Definition getUsers (st : Store) (role : string) : list string :=
  rangeOrder (edgesOf users st role).

(** [RoleManager.GetRoles] (lines 663-669). *)
Definition GetRoles (name : string)
    : Exec RoleManager (list string * option error) :=
  do '(user, created) <- getRole name;
  fun rm => Ok ((getRoles (allRoles rm) user, None), deferred created user rm).

(** [RoleManager.GetUsers] (lines 673-679). *)
Definition GetUsers (name : string)
    : Exec RoleManager (list string * option error) :=
  do '(role, created) <- getRole name;
  fun rm => Ok ((getUsers (allRoles rm) role, None), deferred created role rm).


(** [rm'] holds the same roles, edges, patterns and settings as [rm]
    (the cache may differ). *)
Definition sameGraph (rm rm' : RoleManager) : Prop :=
  allRoles rm' = allRoles rm /\ patternRoles rm' = patternRoles rm /\
  matcher rm' = matcher rm /\ maxHierarchyLevel rm' = maxHierarchyLevel rm.

(** [rm'] stores roles under the same names as [rm], with the same
    patterns and settings (edges and cache may differ). *)
Definition sameNames (rm rm' : RoleManager) : Prop :=
  dom (allRoles rm') = dom (allRoles rm) /\
  patternRoles rm' = patternRoles rm /\
  matcher rm' = matcher rm /\ maxHierarchyLevel rm' = maxHierarchyLevel rm.

(** No pattern is recorded for a role that is not stored. *)
Definition patternsStored (rm : RoleManager) : Prop :=
  patternRoles rm ⊆ dom (allRoles rm).

End Manager.

Arguments allRoles {Cache} r.
Arguments patternRoles {Cache} r.
Arguments maxHierarchyLevel {Cache} r.
Arguments matcher {Cache} r.
Arguments domainMatcher {Cache} r.
Arguments matchingFuncCache {Cache} r.
Arguments patternsStored {Cache} rm.
Arguments sameGraph {Cache} rm rm'.
Arguments sameNames {Cache} rm rm'.

Section Links.

(** The order in which a [Range] over a [sync.Map] with the given keys
    yields them. *)
Variable rangeOrder : gset string -> list string.

(** The inner [Range] of [rangeLinks] over the roles of one user (lines
    694-700): a role marked redundant is passed over; on any other role
    [fn] runs, with the state [st] its closure holds, and the loop over
    this user's roles ends when [fn] returns [false]. *)
Fixpoint rangeUserLinks {St : Type} (user : string)
    (redundant : gset string) (roleNames : list string)
    (fn : string -> string -> St -> bool * St) (st : St) : St :=
  match roleNames with
  | [] => st
  | roleName :: rest =>
      if bool_decide (roleName ∈ redundant)
      then rangeUserLinks user redundant rest fn st
      else
        let '(continue, st') := fn user roleName st in
        if continue then rangeUserLinks user redundant rest fn st'
        else st'
  end.

(** The outer [Range] of [rangeLinks] over the users (lines 692-702):
    its callback returns [true] whatever the inner loop did. *)
Fixpoint rangeLinksOver {St : Type} (users : Store) (names : list string)
    (fn : string -> string -> St -> bool * St) (st : St) : St :=
  match names with
  | [] => st
  | name :: rest =>
      match users !! name with
      | Some user =>
          rangeLinksOver users rest fn
            (rangeUserLinks name (redundant user) (rangeOrder (roles user))
                            fn st)
      | None => rangeLinksOver users rest fn st
      end
  end.

(** [rangeLinks] (lines 691-703). *)
Definition rangeLinks {St : Type} (users : Store)
    (fn : string -> string -> St -> bool * St) (st : St) : St :=
  rangeLinksOver users (rangeOrder (dom users)) fn st.

(** [RoleManager.Range] (lines 705-707). *)
Definition Range {Cache St : Type}
    (fn : string -> string -> St -> bool * St) (rm : RoleManager Cache)
    (st : St) : St :=
  rangeLinks (allRoles rm) fn st.

(** A visitor that records the links it is given and always returns
    [continue]. *)
Definition recordLinks (continue : bool) (name1 name2 : string)
    (seen : list (string * string)) : bool * list (string * string) :=
  (continue, seen ++ [(name1, name2)]).

(** The roles of one user that a visitor with the given answer is
    shown: all of them, or the first one only. *)
Definition shown (continue : bool) (l : list string) : list string :=
  if continue then l else take 1 l.

(** The links of one user that such a visitor is shown. *)
Definition linksOfUser (continue : bool) (users : Store) (name : string)
    : list (string * string) :=
  match users !! name with
  | Some user =>
      pair name <$> shown continue
                      (filter (fun r => r ∉ redundant user)
                              (rangeOrder (roles user)))
  | None => []
  end.

End Links.

End Rbac.

(* ===================================================================== *)
(** * Go strings ([strings], [strconv], and the key-name expression) *)
(* ===================================================================== *)

Module Str.

(** [len(s)] *)
Abbreviation len := String.length.

(** [s[:n]] and [s[n:]] for [n] in range. *)
Fixpoint takeS (n : nat) (s : string) : string :=
  match n, s with
  | S n', String c t => String c (takeS n' t)
  | _, _ => EmptyString
  end.

Fixpoint dropS (n : nat) (s : string) : string :=
  match n, s with
  | S n', String _ t => dropS n' t
  | _, _ => s
  end.

(** [s[a:b]] and [s[a:]]: [None] is the panic of a slice out of range. *)
Definition slice (s : string) (a b : nat) : option string :=
  if (a <=? b)%nat && (b <=? len s)%nat
  then Some (takeS (b - a) (dropS a s)) else None.

Definition sliceFrom (s : string) (a : nat) : option string :=
  if (a <=? len s)%nat then Some (dropS a s) else None.

(** [strings.HasPrefix(s, pre)] *)
Fixpoint HasPrefix (s pre : string) {struct pre} : bool :=
  match pre, s with
  | EmptyString, _ => true
  | String a pre', String b s' => Ascii.eqb a b && HasPrefix s' pre'
  | String _ _, EmptyString => false
  end.

(** [strings.Index(s, sep)]: the first position at which [sep] occurs in
    [s]; [None] stands for [-1]. *)
Fixpoint Index (s sep : string) : option nat :=
  if HasPrefix s sep then Some 0%nat
  else match s with
       | EmptyString => None
       | String _ t => S <$> Index t sep
       end.

(** [strings.Split(s, sep)].  With an empty separator Go splits after
    each UTF-8 sequence; the model splits after each byte. *)
Fixpoint splitOn (fuel : nat) (s sep : string) : list string :=
  match fuel with
  | O => [s]
  | S fuel' =>
      match Index s sep with
      | None => [s]
      | Some i => takeS i s :: splitOn fuel' (dropS (i + len sep) s) sep
      end
  end.

Fixpoint explode (s : string) : list string :=
  match s with
  | EmptyString => []
  | String c t => String c EmptyString :: explode t
  end.

Definition Split (s sep : string) : list string :=
  if String.eqb sep "" then explode s else splitOn (len s) s sep.

(** [strconv.Itoa(n)] for [n >= 0]. *)
Definition Itoa (n : nat) : string :=
  NilZero.string_of_uint (Nat.to_uint n).

(** The characters that end a key name: [. ? = & # :]. *)
Definition special (c : ascii) : bool :=
  existsb (Ascii.eqb c) ["."; "?"; "="; "&"; "#"; ":"]%char.

(** The length of the longest prefix of [s] without a special
    character. *)
Fixpoint run (s : string) : nat :=
  match s with
  | EmptyString => O
  | String c t => if special c then O else S (run t)
  end.

(** [except.FindStringIndex(s)] for [except = [^.?=&#:]+]: the leftmost
    longest run of characters that are not special, as [(start, end)]. *)
Fixpoint exceptFindStringIndex (s : string) : option (nat * nat) :=
  match s with
  | EmptyString => None
  | String c t =>
      if special c then
        (fun '(a, b) => (S a, S b)) <$> exceptFindStringIndex t
      else Some (0%nat, run s)
  end.

End Str.

(* ===================================================================== *)
(** * The path matcher ([pathmatch]) *)
(* ===================================================================== *)

Module Pathmatch.

Import Str.

(** [type Match map[string]string] *)
Abbreviation Match := (gmap string string).

(** [savePoint] *)
Record savePoint : Type := mkSavePoint {
  sp_i : nat;
  sp_sIndex : nat;
  sp_searchStart : nat;
  sp_valid : bool
}.

(** [matchDraft] *)
Record matchDraft : Type := mkDraft {
  capture : bool;
  dmatch : Match
}.

(** The kinds of segment, with the fields of their structs. *)
Inductive Segment : Type :=
  | staticSegment (value : string)
  | paramSegment (key : string) (equalCheck : bool)
  | wildcardSegment (key : string)
  | mixedSegment (keys : list string) (static : list string).

(** [Path] *)
Record Path : Type := mkPath {
  path : string;
  Seperator : string;
  Prefix : string;
  Suffix : string;
  Wildcard : string;
  Segments : list Segment;
  pmatch : Match;
  save : savePoint;
  pequalCheck : bool
}.

(** ** Compile *)

(** The double quote, for the error messages. *)
Definition dq : string := String "034"%char EmptyString.

Definition errSuffixNotFound (strSeg suffix : string) : error :=
  "pathmatch: " +:+ strSeg +:+ ", suffix " +:+ dq +:+ suffix +:+ dq
  +:+ " not found".

Definition errNoName (strSeg suffix : string) : error :=
  "pathmatch: " +:+ strSeg +:+ ", prefix " +:+ dq +:+ suffix +:+ dq
  +:+ " must be followed by name".

Definition errNoCharacter : error :=
  "pathmatch: %s, no character between keys".

Definition errEmptyPrefix : error :=
  "pathmatch: prefix can't be an empty string".

(** The options of the package ([type Option func(p *Path) error]). *)
Inductive Option : Type :=
  | SetSeperator (sep : string)
  | SetWildcard (wildcard : string)
  | SetPrefix (prefix : string)
  | SetSuffix (suffix : string)
  | EnableEqualityCheck (b : bool).

Definition withSegments (segs : list Segment) (p : Path) : Path :=
  mkPath (path p) (Seperator p) (Prefix p) (Suffix p) (Wildcard p) segs
         (pmatch p) (save p) (pequalCheck p).

Definition withSave (sv : savePoint) (p : Path) : Path :=
  mkPath (path p) (Seperator p) (Prefix p) (Suffix p) (Wildcard p)
         (Segments p) (pmatch p) sv (pequalCheck p).

(** Running an option on the path under construction. *)
Definition applyOption (o : Option) (p : Path) : Path + error :=
  match o with
  | SetSeperator sep =>
      inl (mkPath (path p) sep (Prefix p) (Suffix p) (Wildcard p)
                  (Segments p) (pmatch p) (save p) (pequalCheck p))
  | SetWildcard w =>
      inl (mkPath (path p) (Seperator p) (Prefix p) (Suffix p) w
                  (Segments p) (pmatch p) (save p) (pequalCheck p))
  | SetPrefix prefix =>
      if String.eqb prefix "" then inr errEmptyPrefix
      else inl (mkPath (path p) (Seperator p) prefix (Suffix p) (Wildcard p)
                       (Segments p) (pmatch p) (save p) (pequalCheck p))
  | SetSuffix suffix =>
      inl (mkPath (path p) (Seperator p) (Prefix p) suffix (Wildcard p)
                  (Segments p) (pmatch p) (save p) (pequalCheck p))
  | EnableEqualityCheck b =>
      inl (mkPath (path p) (Seperator p) (Prefix p) (Suffix p) (Wildcard p)
                  (Segments p) (pmatch p) (save p) b)
  end.

Fixpoint applyOptions (options : list Option) (p : Path) : Path + error :=
  match options with
  | [] => inl p
  | o :: rest =>
      match applyOption o p with
      | inl p' => applyOptions rest p'
      | inr e => inr e
      end
  end.

(** [newMixedSegment] (lines 334-349).  [locs] holds, for each key, the
    position of its prefix and the position after it (the pairs
    [locs[2i], locs[2i+1]]); [start] and [i] are the loop variables. *)
Fixpoint mixedStatics (s : string) (keys : list string)
    (locs : list (nat * nat)) (i start : nat) (static : list string)
    : result (list string + error) :=
  match keys with
  | [] => Ok (inl static)
  | _ :: keys' =>
      match locs !! i with
      | None => Panic
      | Some (a, b) =>
          match slice s start a with
          | None => Panic
          | Some lit =>
              if negb (i =? 0)%nat && String.eqb lit ""
              then Ok (inr errNoCharacter)
              else mixedStatics s keys' locs (S i) b (static ++ [lit])
          end
      end
  end.

Definition newMixedSegment (s : string) (keys : list string)
    (locs : list (nat * nat)) : result (Segment + error) :=
  match mixedStatics s keys locs 0 0 [] with
  | Ok (inl static) =>
      match last locs with
      | None => Panic
      | Some (_, lastLoc) =>
          match sliceFrom s lastLoc with
          | None => Panic
          | Some tail => Ok (inl (mixedSegment keys (static ++ [tail])))
          end
      end
  | Ok (inr e) => Ok (inr e)
  | Panic => Panic
  | OutOfFuel => OutOfFuel
  end.

(** The loop of [Compile] that finds the keys of one piece (lines
    79-102): the keys and their locations, or an error. *)
Fixpoint scanKeys (fuel : nat) (prefix suffix strSeg : string)
    (iPrefix : nat) (keys : list string) (keyLocs : list (nat * nat))
    : result ((list string * list (nat * nat)) + error) :=
  match fuel with
  | O => OutOfFuel
  | S fuel' =>
      let keyStart := (iPrefix + len prefix)%nat in
      let found :=
        if negb (String.eqb suffix "") then
          match Index (dropS iPrefix strSeg) suffix with
          | None => Ok (inr (errSuffixNotFound strSeg suffix))
          | Some iSuffix =>
              match slice strSeg keyStart (iPrefix + iSuffix) with
              | None => Panic
              | Some key =>
                  Ok (inl (key, (iPrefix, (iPrefix + iSuffix + len suffix)%nat)))
              end
          end
        else
          match exceptFindStringIndex (dropS keyStart strSeg) with
          | Some (O, e) =>
              match slice strSeg keyStart (keyStart + e) with
              | None => Panic
              | Some key => Ok (inl (key, (iPrefix, (keyStart + e)%nat)))
              end
          | _ => Ok (inr (errNoName strSeg suffix))
          end in
      match found with
      | Ok (inl (key, loc)) =>
          let keys' := keys ++ [key] in
          let keyLocs' := keyLocs ++ [loc] in
          match Index (dropS keyStart strSeg) prefix with
          | None => Ok (inl (keys', keyLocs'))
          | Some j =>
              scanKeys fuel' prefix suffix strSeg (j + keyStart) keys' keyLocs'
          end
      | Ok (inr e) => Ok (inr e)
      | Panic => Panic
      | OutOfFuel => OutOfFuel
      end
  end.

(** The body of the loop of [Compile] over the pieces (lines 68-117):
    the segment of one piece, and the counter of unnamed wildcards. *)
Definition compileSegment (p : Path) (unnamed : nat) (strSeg : string)
    : result ((Segment * nat) + error) :=
  if String.eqb strSeg (Wildcard p) then
    Ok (inl (wildcardSegment ("$" +:+ Itoa unnamed), S unnamed))
  else
    match Index strSeg (Prefix p) with
    | Some iPrefix =>
        match scanKeys (S (len strSeg)) (Prefix p) (Suffix p) strSeg
                       iPrefix [] [] with
        | Ok (inl (keys, keyLocs)) =>
            let single :=
              match keyLocs, last keys with
              | [(a, b)], Some key =>
                  if (b - a =? len strSeg)%nat then Some key else None
              | _, _ => None
              end in
            match single with
            | Some key => Ok (inl (paramSegment key (pequalCheck p), unnamed))
            | None =>
                match newMixedSegment strSeg keys keyLocs with
                | Ok (inl mixed) => Ok (inl (mixed, unnamed))
                | Ok (inr e) => Ok (inr e)
                | Panic => Panic
                | OutOfFuel => OutOfFuel
                end
            end
        | Ok (inr e) => Ok (inr e)
        | Panic => Panic
        | OutOfFuel => OutOfFuel
        end
    | None => Ok (inl (staticSegment strSeg, unnamed))
    end.

Fixpoint compileSegments (p : Path) (unnamed : nat) (strSegments : list string)
    (segs : list Segment) : result (list Segment + error) :=
  match strSegments with
  | [] => Ok (inl segs)
  | strSeg :: rest =>
      match compileSegment p unnamed strSeg with
      | Ok (inl (seg, unnamed')) =>
          compileSegments p unnamed' rest (segs ++ [seg])
      | Ok (inr e) => Ok (inr e)
      | Panic => Panic
      | OutOfFuel => OutOfFuel
      end
  end.

(** [Compile] (lines 57-120). *)
Definition Compile (path : string) (options : list Option)
    : result (Path + error) :=
  let p := mkPath path "/" ":" "" "*" [] ∅ (mkSavePoint 0 0 0 false) false in
  match applyOptions options p with
  | inr e => Ok (inr e)
  | inl p =>
      match compileSegments p 0 (Split path (Seperator p)) [] with
      | Ok (inl segs) => Ok (inl (withSegments segs p))
      | Ok (inr e) => Ok (inr e)
      | Panic => Panic
      | OutOfFuel => OutOfFuel
      end
  end.

(** ** Matching *)

(** [newMatchDraft] (lines 228-233): without capture the draft holds
    the map of the path, with capture a new one. *)
Definition newMatchDraft (capture : bool) (m : Match) : matchDraft :=
  if negb capture then mkDraft capture m else mkDraft capture ∅.

(** [matchDraft.set] (lines 235-240). *)
Definition set (key value : string) (m : matchDraft) : matchDraft :=
  if negb (capture m) then m
  else mkDraft (capture m) (<[key := value]> (dmatch m)).

(** [Multiple()] of the four kinds. *)
Definition Multiple (seg : Segment) : bool :=
  match seg with
  | wildcardSegment _ => true
  | _ => false
  end.

(** The loop of [mixedSegment.Match] over the keys (lines 358-374):
    [Some keyEnd] when all keys were found, [None] when it returned
    [nil]; the draft holds the keys set until then. *)
Fixpoint mixedKeys (static : list string) (s : string) (keys : list string)
    (i keyEnd : nat) (m : matchDraft) : result (option nat * matchDraft) :=
  match keys with
  | [] => Ok (Some keyEnd, m)
  | key :: rest =>
      match static !! i with
      | None => Panic
      | Some lit =>
          match Index (dropS keyEnd s) lit with
          | Some O =>
              let start := keyEnd in
              let keyStart := (start + len lit)%nat in
              match static !! S i with
              | None => Panic
              | Some next =>
                  let keyLen :=
                    if String.eqb next ""
                    then Some (len (dropS keyStart s))
                    else Index (dropS keyStart s) next in
                  match keyLen with
                  | None => Ok (None, m)
                  | Some keyLen =>
                      let keyEnd' := (keyStart + keyLen)%nat in
                      match slice s keyStart keyEnd' with
                      | None => Panic
                      | Some value =>
                          mixedKeys static s rest (S i) keyEnd'
                                    (set key value m)
                      end
                  end
              end
          | _ => Ok (None, m)
          end
      end
  end.

(** [Match(m, s)] of the four kinds (lines 272-277, 296-302, 320-323,
    355-380): whether the result is the draft ([true]) or [nil]
    ([false]), and the draft as the call leaves it. *)
Definition segMatch (seg : Segment) (m : matchDraft) (s : string)
    : result (bool * matchDraft) :=
  match seg with
  | staticSegment value =>
      if negb (String.eqb s value) then Ok (false, m) else Ok (true, m)
  | paramSegment key equalCheck =>
      match dmatch m !! key with
      | Some value =>
          if equalCheck && negb (String.eqb s value) then Ok (false, m)
          else Ok (true, set key s m)
      | None => Ok (true, set key s m)
      end
  | wildcardSegment key => Ok (true, set key s m)
  | mixedSegment keys static =>
      match mixedKeys static s keys 0 0 m with
      | Ok (Some keyEnd, m') =>
          match last static with
          | None => Panic
          | Some lastStatic =>
              if negb (len s =? keyEnd + len lastStatic)%nat
              then Ok (false, m') else Ok (true, m')
          end
      | Ok (None, m') => Ok (false, m')
      | Panic => Panic
      | OutOfFuel => OutOfFuel
      end
  end.

(** [sliceSegment] (lines 135-142); [None] is a slice out of range. *)
Definition sliceSegment (s sep : string) (start offset : nat)
    : option (string * bool) :=
  match sliceFrom s start with
  | None => None
  | Some str =>
      match sliceFrom str offset with
      | None => None
      | Some tail =>
          match Index tail sep with
          | None => Some (str, true)
          | Some i => Some (takeS (i + offset) str, false)
          end
      end
  end.

(** [segmentLen] (lines 144-149). *)
Definition segmentLen (s sep : string) (done : bool) : nat :=
  if done then len s else (len s + len sep)%nat.

(** How the loop of [getMatch] ends. *)
Inductive LoopEnd : Type :=
  | Exhausted
      (** [return nil] of line 162: the input ended before the last
          segment. *)
  | Unconsumed
      (** [return nil] of line 196: the last segment matched and input
          remains. *)
  | LoopLeft (draft : option matchDraft) (sIndex : nat)
      (** The loop condition failed or the loop was left by [break]. *)
  .

(** The loop of [getMatch] (lines 157-198), one iteration per unit of
    fuel, from the loop variables [i], [sIndex], [searchStart], the
    draft ([None] is [nil]) and the save point of the path. *)
Fixpoint matchLoop (fuel : nat) (segs : list Segment) (sep s : string)
    (i sIndex searchStart : nat) (draft : option matchDraft)
    (sv : savePoint) : result (LoopEnd * savePoint) :=
  match fuel with
  | O => OutOfFuel
  | S fuel' =>
      match draft, segs !! i with
      | None, _ | _, None => Ok (LoopLeft draft sIndex, sv)
      | Some d, Some seg =>
          match sliceSegment s sep sIndex searchStart with
          | None => Panic
          | Some (str, done) =>
              let isLast := bool_decide (length segs - 1 = i)%nat in
              if done && negb isLast then Ok (Exhausted, sv)
              else if Multiple seg && isLast then
                match segMatch seg d (dropS sIndex s) with
                | Ok (ok, d') =>
                    Ok (LoopLeft (if ok then Some d' else None) (len s), sv)
                | Panic => Panic
                | OutOfFuel => OutOfFuel
                end
              else
                let sv1 :=
                  if Multiple seg then
                    if sp_valid sv && (sp_i sv =? i)%nat
                    then mkSavePoint (sp_i sv) (sp_sIndex sv)
                                     (segmentLen str sep done) (sp_valid sv)
                    else mkSavePoint i sIndex (segmentLen str sep done) true
                  else sv in
                match segMatch seg d str with
                | Ok (ok, d') =>
                    if negb ok && sp_valid sv1 then
                      matchLoop fuel' segs sep s (sp_i sv1) (sp_sIndex sv1)
                                (sp_searchStart sv1) (Some d') sv1
                    else
                      let draft' := if ok then Some d' else None in
                      let sIndex' := (sIndex + segmentLen str sep done)%nat in
                      if isLast && negb done then Ok (Unconsumed, sv1)
                      else matchLoop fuel' segs sep s (S i) sIndex' 0
                                     draft' sv1
                | Panic => Panic
                | OutOfFuel => OutOfFuel
                end
          end
      end
  end.

(** [Path.getMatch] (lines 151-203): the map or [nil], and the path
    with the save point the call leaves. *)
Definition getMatch (fuel : nat) (p : Path) (s : string) (capture : bool)
    : result (option Match * Path) :=
  let draft := newMatchDraft capture (pmatch p) in
  match matchLoop fuel (Segments p) (Seperator p) s 0 0 0 (Some draft)
                  (save p) with
  | Ok (Exhausted, sv) | Ok (Unconsumed, sv) => Ok (None, withSave sv p)
  | Ok (LoopLeft None _, sv) => Ok (None, withSave sv p)
  | Ok (LoopLeft (Some d) sIndex, sv) =>
      if negb (len s =? sIndex)%nat then Ok (None, withSave sv p)
      else Ok (Some (dmatch d), withSave sv p)
  | Panic => Panic
  | OutOfFuel => OutOfFuel
  end.

(** [Path.Match] (lines 123-126). *)
Definition PathMatch (fuel : nat) (p : Path) (s : string)
    : result (bool * Path) :=
  match getMatch fuel p s (false || pequalCheck p) with
  | Ok (m, p') => Ok (bool_decide (m <> None), p')
  | Panic => Panic
  | OutOfFuel => OutOfFuel
  end.

(** [Path.FindSubmatch] (lines 131-133). *)
Definition FindSubmatch (fuel : nat) (p : Path) (s : string)
    : result (option Match * Path) :=
  getMatch fuel p s true.

(** ** Notions used to state the properties *)

(** The number of pieces equal to the wildcard among the given ones. *)
Definition wildcardsIn (wildcard : string) (pieces : list string) : nat :=
  length (filter (fun piece => piece = wildcard) pieces).

(** The parameterised segments of a path carry its equality flag. *)
Definition flagOf (equalCheck : bool) (seg : Segment) : Prop :=
  match seg with
  | paramSegment _ ec => ec = equalCheck
  | _ => True
  end.

(** Two runs end alike: with the same outcome, the same value [x] and
    drafts that are both [nil] or both not. *)
Definition alike {X : Type} (r1 r2 : result (X * matchDraft)) : Prop :=
  match r1, r2 with
  | Ok (x1, _), Ok (x2, _) => x1 = x2
  | Panic, Panic => True
  | OutOfFuel, OutOfFuel => True
  | _, _ => False
  end.

Definition endsAlike (r1 r2 : result (LoopEnd * savePoint)) : Prop :=
  match r1, r2 with
  | Ok (Exhausted, sv1), Ok (Exhausted, sv2) => sv1 = sv2
  | Ok (Unconsumed, sv1), Ok (Unconsumed, sv2) => sv1 = sv2
  | Ok (LoopLeft d1 n1, sv1), Ok (LoopLeft d2 n2, sv2) =>
      sv1 = sv2 /\ n1 = n2 /\ (d1 = None <-> d2 = None)
  | Panic, Panic => True
  | OutOfFuel, OutOfFuel => True
  | _, _ => False
  end.

(** The loop ended without consuming the input: by the return for an
    input exhausted before the last segment, by the return for input
    left after the last segment, or with the cursor short of the end. *)
Definition notConsumed (s : string) (e : LoopEnd) : Prop :=
  match e with
  | Exhausted | Unconsumed => True
  | LoopLeft _ sIndex => sIndex <> len s
  end.

(** The loop of [getMatch] as a call starts it. *)
Definition runLoop (fuel : nat) (p : Path) (s : string) (capture : bool)
    : result (LoopEnd * savePoint) :=
  matchLoop fuel (Segments p) (Seperator p) s 0 0 0
            (Some (newMatchDraft capture (pmatch p))) (save p).

(** The pieces [p1 ... pn], each followed by the separator. *)
Definition eachThen (sep : string) (ps : list string) : string :=
  foldr (fun x acc => x +:+ sep +:+ acc) "" ps.

(** The pieces of the segments that are not wildcards hold no
    separator. *)
Definition separatorFree (sep : string) (segs : list Segment)
    (pieces : list string) : Prop :=
  forall (i : nat) (seg : Segment) (piece : string),
    segs !! i = Some seg -> pieces !! i = Some piece ->
    Multiple seg = false -> Index piece sep = None.

(** The input up to the cursor is [ps], one piece per segment passed. *)
Definition cursorAt (sep s : string) (segs : list Segment)
    (ps : list string) (sIndex : nat) : Prop :=
  takeS sIndex s = eachThen sep ps /\ (sIndex <= len s)%nat /\
  separatorFree sep segs ps.

(** What a run that started without a save point knows of its save
    point at the head of an iteration: it marks a wildcard, the cursor
    where that wildcard starts, and a capture [w] for it that ends
    before a separator; and the loop is past that wildcard, or just
    returned to it. *)
Definition saveOK (segs : list Segment) (sep s : string)
    (i sIndex searchStart : nat) (sv : savePoint) : Prop :=
  if sp_valid sv then
    (exists (ps0 : list string) (w : string) (seg : Segment),
       length ps0 = sp_i sv /\ cursorAt sep s segs ps0 (sp_sIndex sv) /\
       segs !! sp_i sv = Some seg /\ Multiple seg = true /\
       sp_searchStart sv = (len w + len sep)%nat /\
       HasPrefix (dropS (sp_sIndex sv) s) (w +:+ sep) = true) /\
    (((sp_i sv < i)%nat /\ searchStart = 0%nat) \/
     (sp_i sv = i /\ sIndex = sp_sIndex sv /\
      searchStart = sp_searchStart sv))
  else searchStart = 0%nat.

(** ** The situations in which a pattern does not compile *)

(** The prefix occurs in the piece at position [i]. *)
Definition prefixAt (p : Path) (piece : string) (i : nat) : Prop :=
  HasPrefix (dropS i piece) (Prefix p) = true.

(** The position after the key whose prefix is at [i]: after its
    suffix when one is configured, else after the characters of its
    name. *)
Definition keyEndOf (p : Path) (piece : string) (i : nat) : option nat :=
  if String.eqb (Suffix p) "" then
    Some (i + len (Prefix p) + run (dropS (i + len (Prefix p)) piece))%nat
  else
    (fun m => (i + m + len (Suffix p))%nat) <$> Index (dropS i piece) (Suffix p).

(** A suffix is configured and is missing after a prefix. *)
Definition unterminatedSuffix (p : Path) (piece : string) : Prop :=
  Suffix p <> "" /\
  exists i : nat, prefixAt p piece i /\ Index (dropS i piece) (Suffix p) = None.

(** No suffix is configured and a prefix is not followed by a
    character of a key name. *)
Definition namelessPrefix (p : Path) (piece : string) : Prop :=
  Suffix p = "" /\
  exists i : nat, prefixAt p piece i /\
                  run (dropS (i + len (Prefix p)) piece) = 0%nat.

(** Two keys of the piece are adjacent: the key whose prefix is at [i]
    ends where the prefix of another key starts. *)
Definition adjacentKeys (p : Path) (piece : string) : Prop :=
  exists i j : nat,
    prefixAt p piece i /\ prefixAt p piece j /\ keyEndOf p piece i = Some j.

(** The locations of a key found by the scan: its prefix and its end. *)
Definition locOK (p : Path) (piece : string) (loc : nat * nat) : Prop :=
  prefixAt p piece loc.1 /\ keyEndOf p piece loc.1 = Some loc.2.

(** The locations lie in order between [start] and [bound]. *)
Fixpoint chain (start : nat) (locs : list (nat * nat)) (bound : nat) : Prop :=
  match locs with
  | [] => (start <= bound)%nat
  | (a, b) :: rest => (start <= a)%nat /\ (a < b)%nat /\ chain b rest bound
  end.

(** The path before the options run (line 58). *)
Definition initialPath (path : string) : Path :=
  mkPath path "/" ":" "" "*" [] ∅ (mkSavePoint 0 0 0 false) false.

(** ** The kinds of segment and static paths *)

(** [SegType] and its constants (lines 221, 242-247). *)
Module SegType.

Inductive t : Type :=
  | Static
  | Parameterized
  | Wildcard
  | Mixed.

#[global] Instance t_eq_dec : EqDecision t.
Proof. solve_decision. Defined.

End SegType.

(** [Type()] of the four kinds. *)
Definition segType (seg : Segment) : SegType.t :=
  match seg with
  | staticSegment _ => SegType.Static
  | paramSegment _ _ => SegType.Parameterized
  | wildcardSegment _ => SegType.Wildcard
  | mixedSegment _ _ => SegType.Mixed
  end.

(** The loop of [IsStatic] over the segments. *)
Fixpoint allStatic (segs : list Segment) : bool :=
  match segs with
  | [] => true
  | seg :: rest =>
      if negb (bool_decide (segType seg = SegType.Static)) then false
      else allStatic rest
  end.

(** [Path.IsStatic] (lines 206-213). *)
Definition IsStatic (p : Path) : bool := allStatic (Segments p).

(** ** Matching piece by piece *)

(** Whether a segment accepts a piece, as a draft or [nil]. *)
Definition accept (seg : Segment) (d : matchDraft) (piece : string)
    : result (option matchDraft) :=
  match segMatch seg d piece with
  | Ok (ok, d') => Ok (if ok then Some d' else None)
  | Panic => Panic
  | OutOfFuel => OutOfFuel
  end.

(** The input walked once from left to right: every segment but the
    last is given the input up to the next separator, and the walk goes
    on after that separator; the last segment is given the rest, all of
    it when it is a wildcard, and otherwise only if the rest holds no
    separator.  Without segments only the empty input matches. *)
Fixpoint matchFrom (sep : string) (segs : list Segment) (s : string)
    (d : matchDraft) : result (option matchDraft) :=
  match segs with
  | [] => Ok (if (len s =? 0)%nat then Some d else None)
  | seg :: rest =>
      match rest with
      | [] =>
          if Multiple seg then accept seg d s
          else
            match Index s sep with
            | None => accept seg d s
            | Some k =>
                match accept seg d (takeS k s) with
                | Ok _ => Ok None
                | Panic => Panic
                | OutOfFuel => OutOfFuel
                end
            end
      | _ :: _ =>
          match Index s sep with
          | None => Ok None
          | Some k =>
              match accept seg d (takeS k s) with
              | Ok (Some d') => matchFrom sep rest (dropS (k + len sep) s) d'
              | Ok None => Ok None
              | Panic => Panic
              | OutOfFuel => OutOfFuel
              end
          end
      end
  end.

(** The literals of a mixed segment with a value after each one but
    the last: [l0 v1 l1 ... vn ln]. *)
Fixpoint weave (static values : list string) : string :=
  match static with
  | [] => ""
  | lit :: static' =>
      match values with
      | [] => lit
      | v :: values' => lit +:+ v +:+ weave static' values'
      end
  end.

(** The draft with each key set to its value, in order. *)
Definition setAll (keys values : list string) (m : matchDraft) : matchDraft :=
  foldl (fun acc kv => set kv.1 kv.2 acc) m (zip keys values).

(** The segments given the pieces one by one, each with the draft the
    one before it returned. *)
Fixpoint acceptAll (segs : list Segment) (pieces : list string)
    (d : matchDraft) : result (option matchDraft) :=
  match segs, pieces with
  | [], [] => Ok (Some d)
  | seg :: segs', piece :: pieces' =>
      match accept seg d piece with
      | Ok (Some d') => acceptAll segs' pieces' d'
      | Ok None => Ok None
      | Panic => Panic
      | OutOfFuel => OutOfFuel
      end
  | _, _ => Ok None
  end.

(** A mixed segment has one literal more than it has keys. *)
Definition shaped (seg : Segment) : Prop :=
  match seg with
  | mixedSegment keys static => length static = S (length keys)
  | _ => True
  end.

(** ** A wildcard before the last segment *)

(** Whether a segment accepts a piece, from a draft that records
    nothing. *)
Definition accepts (seg : Segment) (piece : string) : bool :=
  match accept seg (mkDraft false ∅) piece with
  | Ok (Some _) => true
  | _ => false
  end.

(** Whether the segments accept the pieces, one each. *)
Fixpoint acceptsAll (segs : list Segment) (pieces : list string) : bool :=
  match segs, pieces with
  | [], [] => true
  | seg :: segs', piece :: pieces' =>
      accepts seg piece && acceptsAll segs' pieces'
  | _, _ => false
  end.

(** How the segments after a wildcard fare on the pieces that follow
    what the wildcard took: they all accept and the pieces run out with
    them; one of them rejects its piece; or the pieces run out before
    the segments, or the segments before the pieces. *)
Inductive PostEnd : Type :=
  | Accepted
  | Rejected
  | Final.

Fixpoint tryPost (post : list Segment) (after : list string) : PostEnd :=
  match post with
  | [] => Final
  | q :: post' =>
      match after with
      | [] => Final
      | x :: after' =>
          match post', after' with
          | [], [] => if accepts q x then Accepted else Rejected
          | [], _ :: _ => if accepts q x then Final else Rejected
          | _ :: _, [] => Final
          | _ :: _, _ :: _ =>
              if accepts q x then tryPost post' after' else Rejected
          end
      end
  end.

(** The wildcard takes one piece, then one more each time a segment
    after it rejects its piece, as long as a piece is left over. *)
Fixpoint attempts (post : list Segment) (after : list string) : bool :=
  match after with
  | [] => false
  | _ :: after' =>
      match tryPost post after with
      | Accepted => true
      | Final => false
      | Rejected => attempts post after'
      end
  end.

(** The loop of [getMatch] on [s] ended with a draft at the end of the
    input exactly when [b] holds. *)
Definition ended (s : string) (e : LoopEnd) (b : bool) : Prop :=
  match e with
  | LoopLeft (Some _) sIndex => sIndex = len s /\ b = true
  | _ => b = false
  end.

(** No segment before the last is a wildcard. *)
Definition wildcardOnlyLast (segs : list Segment) : Prop :=
  forall (j : nat) (seg : Segment),
    (S j < length segs)%nat -> segs !! j = Some seg -> Multiple seg = false.

(** What [getMatch] returns for the outcome of a walk: the map of the
    draft, and the path as it was. *)
Definition walked (p : Path) (r : result (option matchDraft))
    : result (option Match * Path) :=
  match r with
  | Ok r => Ok (dmatch <$> r, p)
  | Panic => Panic
  | OutOfFuel => OutOfFuel
  end.

End Pathmatch.

(* ===================================================================== *)
(** * Concrete models, policies and role graphs *)
(* ===================================================================== *)

Module Examples.

(** Modelled from the spec: the effector of [some(where (p_eft == allow))]
    (section 4.H): [Allow] as soon as one rule allows, else
    [Indeterminate] until the stream ends, then [Deny]. *)
Definition allowOverride (effects : list Effect) (matches : list Rule)
    (complete : bool) : Effect * list Z * option error :=
  if existsb (fun e => bool_decide (e = Allow)) effects then (Allow, [], None)
  else if complete then (Deny, [], None)
  else (Indeterminate, [], None).

(** [GetEft] for [p = sub, obj, act, eft]: the [eft] column, [allow]
    when it is left out. *)
Definition eftOf (rule : Rule) : Effect :=
  match rule !! 4%nat with
  | Some "deny" => Deny
  | _ => Allow
  end.

(** The matcher [r.sub == p.sub && r.obj == p.obj && r.act == p.act]. *)
Definition exactMatcher (request : list string) (rule : Rule) : error + bool :=
  inr (bool_decide (take 3 (drop 1 rule) = request)).

Definition somePolicy : list Rule :=
  [ ["p"; "bob"; "data2"; "write"];
    ["p"; "alice"; "data1"; "read"; "deny"];
    ["p"; "alice"; "data1"; "read"];
    ["p"; "alice"; "data1"; "read"; "allow"] ].

(** A cache that never holds anything. *)
Definition noCacheGet (key : string) (c : unit) : option bool * unit :=
  (None, c).
Definition noCachePut (key : string) (v : bool) (c : unit) : unit := c.

(** A sub-matcher: a pattern ends in a star and matches the names that
    start with what precedes the star. *)
Definition endsInStar (s : string) : bool :=
  String.eqb (String.substring (String.length s - 1) 1 s) "*".

Definition starMatcher : Rbac.IMatcher :=
  {| Rbac.Match := fun str pattern =>
       endsInStar pattern
       && String.prefix
            (String.substring 0 (String.length pattern - 1) pattern) str;
     Rbac.IsPattern := endsInStar |}.

Definition inherits (names : list string) : Rbac.Role :=
  {| Rbac.roles := list_to_set names; Rbac.users := ∅; Rbac.matched := ∅;
     Rbac.matchedBy := ∅; Rbac.redundant := ∅ |}.

(** A cyclic graph: [a] inherits [b], [b] inherits [c], [c] inherits
    [a]; [d] stands apart. *)
Definition cyclicRoles : Rbac.RoleManager unit :=
  {| Rbac.allRoles :=
       list_to_map [("a", inherits ["b"]); ("b", inherits ["c"]);
                    ("c", inherits ["a"]); ("d", inherits [])];
     Rbac.patternRoles := ∅;
     Rbac.maxHierarchyLevel := 10;
     Rbac.matcher := None;
     Rbac.domainMatcher := None;
     Rbac.matchingFuncCache := tt |}.

(** A graph with a pattern role and a sub-matcher. *)
Definition patternRolesGraph : Rbac.RoleManager unit :=
  {| Rbac.allRoles :=
       list_to_map
         [("book_group_*",
           {| Rbac.roles := {["reader"]}; Rbac.users := ∅;
              Rbac.matched := {["book_group_1"]}; Rbac.matchedBy := ∅;
              Rbac.redundant := ∅ |});
          ("book_group_1",
           {| Rbac.roles := ∅; Rbac.users := ∅; Rbac.matched := ∅;
              Rbac.matchedBy := {["book_group_*"]}; Rbac.redundant := ∅ |});
          ("reader",
           {| Rbac.roles := ∅; Rbac.users := {["book_group_*"]};
              Rbac.matched := ∅; Rbac.matchedBy := ∅; Rbac.redundant := ∅ |})];
     Rbac.patternRoles := {["book_group_*"]};
     Rbac.maxHierarchyLevel := 10;
     Rbac.matcher := Some starMatcher;
     Rbac.domainMatcher := None;
     Rbac.matchingFuncCache := tt |}.

(** The path [Compile] returns for [a/*/a]. *)
Definition aStarA : Pathmatch.Path :=
  Pathmatch.withSegments
    [Pathmatch.staticSegment "a"; Pathmatch.wildcardSegment "$0";
     Pathmatch.staticSegment "a"] (Pathmatch.initialPath "a/*/a").

(** The paths [Compile] returns for [/foo/:name] and [/foo/bar]. *)
Definition fooName : Pathmatch.Path :=
  Pathmatch.withSegments
    [Pathmatch.staticSegment ""; Pathmatch.staticSegment "foo";
     Pathmatch.paramSegment "name" false]
    (Pathmatch.initialPath "/foo/:name").

Definition fooBar : Pathmatch.Path :=
  Pathmatch.withSegments
    [Pathmatch.staticSegment ""; Pathmatch.staticSegment "foo";
     Pathmatch.staticSegment "bar"]
    (Pathmatch.initialPath "/foo/bar").

(** The path [Compile] returns for [/:id/x/:id] with the equality check
    enabled. *)
Definition idTwice : Pathmatch.Path :=
  Pathmatch.mkPath "/:id/x/:id" "/" ":" "" "*"
    [Pathmatch.staticSegment ""; Pathmatch.paramSegment "id" true;
     Pathmatch.staticSegment "x"; Pathmatch.paramSegment "id" true]
    ∅ (Pathmatch.mkSavePoint 0 0 0 false) true.

(** The paths [Compile] returns for [*a] and for [ab] with the empty
    separator. *)
Definition starA : Pathmatch.Path :=
  Pathmatch.mkPath "*a" "" ":" "" "*"
    [Pathmatch.wildcardSegment "$0"; Pathmatch.staticSegment "a"]
    ∅ (Pathmatch.mkSavePoint 0 0 0 false) false.

Definition abUnseparated : Pathmatch.Path :=
  Pathmatch.mkPath "ab" "" ":" "" "*"
    [Pathmatch.staticSegment "a"; Pathmatch.staticSegment "b"]
    ∅ (Pathmatch.mkSavePoint 0 0 0 false) false.

(** A cache that holds all that is put into it. *)
Definition mapCacheGet (key : string) (c : gmap string bool)
    : option bool * gmap string bool :=
  (c !! key, c).
Definition mapCachePut (key : string) (v : bool) (c : gmap string bool)
    : gmap string bool :=
  <[key := v]> c.

(** A sub-matcher that matches only the name [a$$] against [b], and a
    role manager that uses it. *)
Definition oneMatcher : Rbac.IMatcher :=
  {| Rbac.Match := fun str pattern =>
       String.eqb str "a$$" && String.eqb pattern "b";
     Rbac.IsPattern := fun _ => false |}.

Definition cachingManager : Rbac.RoleManager (gmap string bool) :=
  {| Rbac.allRoles := ∅;
     Rbac.patternRoles := ∅;
     Rbac.maxHierarchyLevel := 10;
     Rbac.matcher := Some oneMatcher;
     Rbac.domainMatcher := None;
     Rbac.matchingFuncCache := ∅ |}.

(** A fingerprint that looks at the first two columns only. *)
Definition firstTwo (rule : Rule) : string :=
  String.concat "," (take 2 rule).


(** A graph in which [alice] has a link marked redundant. *)
Definition linkedRoles : Rbac.RoleManager unit :=
  {| Rbac.allRoles :=
       list_to_map
         [("alice",
           {| Rbac.roles := {["admin"; "dev"]}; Rbac.users := ∅;
              Rbac.matched := ∅; Rbac.matchedBy := ∅;
              Rbac.redundant := {["dev"]} |});
          ("bob", inherits ["dev"; "ops"])];
     Rbac.patternRoles := ∅;
     Rbac.maxHierarchyLevel := 10;
     Rbac.matcher := None;
     Rbac.domainMatcher := None;
     Rbac.matchingFuncCache := tt |}.

(** The path [Compile] returns for [/*/edit]. *)
Definition starEdit : Pathmatch.Path :=
  Pathmatch.withSegments
    [Pathmatch.staticSegment ""; Pathmatch.wildcardSegment "$0";
     Pathmatch.staticSegment "edit"]
    (Pathmatch.initialPath "/*/edit").

End Examples.

(* ===================================================================== *)
(** * Properties of the enforcement driver *)
(* ===================================================================== *)

Section EnforcerProps.

Context {Err : Type}.
Variable MergeEffects :
  list Effect -> list Rule -> bool -> Effect * list Z * option Err.
Variable GetEft : Rule -> Effect.
Variable evalMatcher : Rule -> Err + bool.

Import Enforcer.

Local Abbreviation keeps := (keepsStreaming MergeEffects GetEft).
Local Abbreviation sCall := (streamCall GetEft).
Local Abbreviation sDecision := (streamDecision MergeEffects GetEft).
Local Abbreviation sError := (streamError MergeEffects GetEft).
Local Abbreviation visit := (visitor MergeEffects GetEft).

Lemma visitor_step (rule : Rule) (l : Locals Err) (seen : list Rule)
    (rest : list Rule) :
  effects l = map GetEft seen ->
  matches l = seen ->
  let all := seen ++ rule :: rest in
  let n := S (length seen) in
  let '(continue, l') := visit rule l in
  continue = keeps all n /\
  res l' = sDecision all n /\
  eftErr l' = sError all n /\
  effects l' = map GetEft (seen ++ [rule]) /\
  matches l' = seen ++ [rule] /\
  calls l' = calls l ++ [sCall all n].
Proof.
  intros He Hm all n.
  assert (Ht : take n all = seen ++ [rule]).
  { subst all n. rewrite (cons_middle rule seen rest), app_assoc.
    rewrite take_app_length'; [done|]. rewrite length_app. simpl. lia. }
  unfold visitor, keepsStreaming, streamDecision, streamError, streamResult,
    streamCall.
  rewrite Ht, He, Hm, map_app. simpl.
  destruct (MergeEffects _ _ false) as [[r ex] e]. simpl.
  destruct e as [e|]; simpl; [done|].
  destruct (bool_decide (r = Indeterminate)); simpl; done.
Qed.

Lemma firstStop_None (ms : list Rule) :
  firstStop MergeEffects GetEft ms = None <->
  forall k : nat, (1 <= k <= length ms)%nat -> keeps ms k = true.
Proof.
  unfold firstStop. rewrite fmap_None, list_find_None, Forall_forall.
  split.
  - intros H k Hk. specialize (H k).
    destruct (keeps ms k); [done|]. exfalso. apply H; [|done].
    apply elem_of_seq. lia.
  - intros H k Hin Hk. apply elem_of_seq in Hin.
    rewrite H in Hk; [done|lia].
Qed.

Lemma firstStop_Some (ms : list Rule) (n : nat) :
  firstStop MergeEffects GetEft ms = Some n <->
  (1 <= n <= length ms)%nat /\ keeps ms n = false /\
  forall k : nat, (1 <= k < n)%nat -> keeps ms k = true.
Proof.
  unfold firstStop. rewrite fmap_Some. split.
  - intros [[i x] [Hf ->]]. apply list_find_Some in Hf as (Hl & Hx & Hlt).
    apply lookup_seq in Hl as [-> Hi]. simpl. split; [lia|]. split; [done|].
    intros k Hk. specialize (Hlt (k - 1)%nat k).
    destruct (keeps ms k); [done|]. exfalso. apply Hlt; [|lia|done].
    apply lookup_seq. lia.
  - intros (Hn & Hk & Hlt). exists ((n - 1)%nat, n). split; [|done].
    apply list_find_Some. split; [apply lookup_seq; lia|]. split; [done|].
    intros j y Hj Hji. apply lookup_seq in Hj as [-> _].
    rewrite Hlt; [done|lia].
Qed.

Lemma range_inv (rules : list Rule) :
  forall (seen : list Rule) (l : Locals Err),
  effects l = map GetEft seen -> matches l = seen ->
  res l = Indeterminate -> eftErr l = None ->
  let ms := (matched evalMatcher rules).1 in
  let merr := (matched evalMatcher rules).2 in
  let all := seen ++ ms in
  calls l = map (sCall all) (seq 1 (length seen)) ->
  (forall k : nat, (1 <= k <= length seen)%nat -> keeps all k = true) ->
  let '(err, l') := RangeMatches evalMatcher rules visit l in
  (firstStop MergeEffects GetEft all = None /\ err = merr /\
   res l' = Indeterminate /\ eftErr l' = None /\
   effects l' = map GetEft all /\ matches l' = all /\
   calls l' = map (sCall all) (seq 1 (length all)))
  \/
  (exists n : nat, firstStop MergeEffects GetEft all = Some n /\ err = None /\
   res l' = sDecision all n /\ eftErr l' = sError all n /\
   calls l' = map (sCall all) (seq 1 n)).
Proof.
  induction rules as [|rule rest IH]; intros seen l He Hm Hr Hn; simpl.
  - rewrite app_nil_r. intros Hc Hk. left.
    rewrite firstStop_None. by rewrite He, Hm.
  - destruct (evalMatcher rule) as [e|[|]] eqn:Hev; simpl.
    + rewrite app_nil_r. intros Hc Hk. left.
      rewrite firstStop_None. by rewrite He, Hm.
    + destruct (matched evalMatcher rest) as [ms merr] eqn:Hms. simpl.
      intros Hc Hk.
      pose proof (visitor_step rule l seen ms He Hm) as Hv. simpl in Hv.
      destruct (visit rule l) as [c l'].
      destruct Hv as (Hcont & Hr' & Hn' & He' & Hm' & Hc').
      assert (Hall : seen ++ rule :: ms = (seen ++ [rule]) ++ ms)
        by (by rewrite <- app_assoc).
      assert (Hlen : length (seen ++ [rule]) = S (length seen))
        by (rewrite length_app; simpl; lia).
      destruct c.
      * symmetry in Hcont. pose proof Hcont as Hkeep.
        unfold keepsStreaming in Hcont.
        apply andb_true_iff in Hcont as [Herr Hdec].
        apply bool_decide_eq_true in Hdec.
        rewrite <- Hr' in Hdec. rewrite <- Hn' in Herr.
        destruct (eftErr l') eqn:Herr'; [done|].
        specialize (IH (seen ++ [rule]) l' He' Hm' Hdec Herr').
        simpl in IH. rewrite <- Hall in IH.
        apply IH.
        -- rewrite Hc', Hc, Hlen, seq_S, map_app. done.
        -- intros k Hk'. rewrite Hlen in Hk'.
           destruct (decide (k = S (length seen))) as [->|]; [done|].
           apply Hk. lia.
      * right. exists (S (length seen)). split.
        { apply firstStop_Some. rewrite length_app. simpl.
          split; [lia|]. split; [done|]. intros k Hk'. apply Hk. lia. }
        split; [done|]. split; [done|]. split; [done|].
        rewrite Hc', Hc, seq_S, map_app. done.
    + apply IH; done.
Qed.

Lemma enforce_cases (rules : list Rule) :
  let ms := (matched evalMatcher rules).1 in
  let merr := (matched evalMatcher rules).2 in
  enforce MergeEffects GetEft evalMatcher rules =
  match firstStop MergeEffects GetEft ms with
  | Some n =>
      (if notNil (sError ms n) then false
       else bool_decide (sDecision ms n = Allow),
       None, map (sCall ms) (seq 1 n))
  | None =>
      (if notNil merr then false
       else bool_decide (finalDecision MergeEffects GetEft ms = Allow),
       merr,
       map (sCall ms) (seq 1 (length ms))
       ++ (if notNil merr then [] else [finalCall GetEft ms]))
  end.
Proof.
  intros ms merr. unfold enforce.
  pose proof (range_inv rules [] initLocals eq_refl eq_refl eq_refl eq_refl)
    as H.
  simpl in H. fold ms merr in H.
  specialize (H eq_refl). destruct (RangeMatches _ _ _ _) as [err l].
  destruct H as [(Hf & -> & Hr & Hn & He & Hm & Hc)|(n & Hf & -> & Hr & Hn & Hc)];
    [intros; lia| |]; rewrite Hf.
  - destruct merr as [e|]; simpl.
    + by rewrite Hc, app_nil_r.
    + rewrite Hn, Hr, He, Hm, Hc. simpl. unfold finalDecision, finalCall.
      by destruct (MergeEffects (map GetEft ms) ms true) as [[r ex] e].
  - apply firstStop_Some in Hf as (_ & Hk & _).
    rewrite Hn, Hr, Hc. destruct (sError ms n) as [e|] eqn:He; simpl; [done|].
    unfold keepsStreaming in Hk. rewrite He in Hk. simpl in Hk.
    by rewrite Hk.
Qed.

Lemma filter_streamCalls (ms : list Rule) (ks : list nat) :
  filter (fun c => call_complete c = false) (map (sCall ms) ks)
  = map (sCall ms) ks.
Proof.
  induction ks as [|k ks IH]; [done|]. simpl.
  rewrite filter_cons_True by done. by rewrite IH.
Qed.

Lemma filter_complete_streamCalls (ms : list Rule) (ks : list nat) :
  filter (fun c => call_complete c = true) (map (sCall ms) ks) = [].
Proof.
  induction ks as [|k ks IH]; [done|]. simpl.
  rewrite filter_cons_False by done. by rewrite IH.
Qed.

Lemma keeps_true_iff (ms : list Rule) (k : nat) :
  keeps ms k = true <-> sDecision ms k = Indeterminate /\ sError ms k = None.
Proof.
  unfold keepsStreaming. rewrite andb_true_iff, bool_decide_eq_true.
  destruct (sError ms k); simpl; intuition congruence.
Qed.

(** C1.  For every effector, every policy table and every matcher, with
    [ms] the matching rules in iteration order (up to a matcher error):
    [enforce] returns [true] exactly when the merged effect decision is
    [Allow]; the calls with [complete = false] are made on the successive
    prefixes of [ms]; after a call that returns [Indeterminate] and no
    error the next match is offered; a call that returns another
    decision is the last call of the run; and when the matcher fails on
    no rule and every streaming call returned [Indeterminate] without
    error, exactly one more call is made, with [complete = true] over all
    matches, and its decision gives the boolean.  No other run makes a
    call with [complete = true]. *)
Theorem enforce_merged_decision (rules : list Rule) :
  let ms := (matched evalMatcher rules).1 in
  let merr := (matched evalMatcher rules).2 in
  let '(b, _, cs) := enforce MergeEffects GetEft evalMatcher rules in
  let streamed := filter (fun c => call_complete c = false) cs in
  let n := length streamed in
  (b = true <-> mergedDecision MergeEffects GetEft ms merr = Some Allow) /\
  (n <= length ms)%nat /\
  streamed = map (sCall ms) (seq 1 n) /\
  (forall k : nat, (1 <= k <= n)%nat -> (k < length ms)%nat ->
     sDecision ms k = Indeterminate -> sError ms k = None -> (k < n)%nat) /\
  (forall k : nat, (1 <= k <= n)%nat ->
     sDecision ms k <> Indeterminate -> k = n /\ cs = streamed) /\
  (merr = None ->
   (forall k : nat, (1 <= k <= length ms)%nat ->
      sDecision ms k = Indeterminate /\ sError ms k = None) ->
   cs = map (sCall ms) (seq 1 (length ms)) ++ [finalCall GetEft ms] /\
   b = bool_decide (finalDecision MergeEffects GetEft ms = Allow)) /\
  (forall c : Call, c ∈ cs -> call_complete c = true ->
     c = finalCall GetEft ms /\ merr = None /\
     forall k : nat, (1 <= k <= length ms)%nat ->
       sDecision ms k = Indeterminate /\ sError ms k = None) /\
  (length (filter (fun c => call_complete c = true) cs) <= 1)%nat.
Proof.
  intros ms merr. pose proof (enforce_cases rules) as Hc.
  fold ms merr in Hc. simpl in Hc. rewrite Hc. clear Hc.
  unfold mergedDecision.
  destruct (firstStop MergeEffects GetEft ms) as [n|] eqn:Hf.
  - apply firstStop_Some in Hf as (Hn & Hstop & Hbefore).
    rewrite filter_streamCalls, length_map, length_seq.
    assert (Hno : forall c : Call,
              c ∈ map (sCall ms) (seq 1 n) -> call_complete c = true -> False).
    { intros c (k & -> & _)%list_elem_of_fmap. done. }
    assert (Hnot : (forall k : nat, (1 <= k <= length ms)%nat ->
              sDecision ms k = Indeterminate /\ sError ms k = None) -> False).
    { intros Hall. assert (keeps ms n = true)
        by (apply keeps_true_iff, Hall; lia). congruence. }
    split_and!.
    + destruct (notNil (sError ms n)); [done|].
      rewrite bool_decide_eq_true. split; [by intros ->|by intros [= ->]].
    + lia.
    + done.
    + intros k Hk Hlt Hd He.
      destruct (decide (k = n)) as [->|]; [|lia].
      assert (keeps ms n = true) by (by apply keeps_true_iff). congruence.
    + intros k Hk Hd. split; [|done].
      destruct (decide (k = n)) as [->|]; [done|].
      assert (Hk' : keeps ms k = true) by (apply Hbefore; lia).
      apply keeps_true_iff in Hk' as [Hk' _]. done.
    + intros _ Hall. by apply Hnot in Hall.
    + intros c Hin Hc. by destruct (Hno c).
    + rewrite filter_complete_streamCalls. simpl. lia.
  - pose proof Hf as Hall. rewrite firstStop_None in Hall.
    assert (Hs : filter (fun c => call_complete c = false)
                   (map (sCall ms) (seq 1 (length ms))
                    ++ (if notNil merr then [] else [finalCall GetEft ms]))
                 = map (sCall ms) (seq 1 (length ms))).
    { rewrite filter_app, filter_streamCalls.
      destruct (notNil merr); simpl; [by rewrite app_nil_r|].
      rewrite filter_cons_False by done. by rewrite app_nil_r. }
    rewrite Hs, length_map, length_seq.
    split_and!.
    + destruct (notNil merr); [done|].
      rewrite bool_decide_eq_true. split; [by intros ->|by intros [= ->]].
    + lia.
    + done.
    + intros; lia.
    + intros k Hk Hd. assert (Hk' : keeps ms k = true) by (apply Hall; lia).
      apply keeps_true_iff in Hk' as [Hk' _]. done.
    + intros -> _. done.
    + intros c [Hin|Hin]%elem_of_app Hc.
      * apply list_elem_of_fmap in Hin as (k & -> & _). done.
      * destruct merr; simpl in Hin; [by apply elem_of_nil in Hin|].
        apply list_elem_of_singleton in Hin.
        split_and!; [done|done|]. intros k Hk. by apply keeps_true_iff, Hall.
    + rewrite filter_app, filter_complete_streamCalls.
      destruct (notNil merr); simpl; lia.
Qed.

End EnforcerProps.

(* ===================================================================== *)
(** * Properties of the rule tables *)
(* ===================================================================== *)

Section PolicyProps.

Variable Hash : Rule -> string.

Import Policy.

Lemma AddRule_present (rule : Rule) (p : Policy) :
  is_Some (ruleMap p !! Hash rule) ->
  AddRule Hash rule p = ((false, None), p).
Proof. intros [old H]. unfold AddRule. by rewrite H. Qed.

Lemma AddRule_absent (rule : Rule) (p : Policy) :
  ruleMap p !! Hash rule = None ->
  AddRule Hash rule p =
  ((true, None),
   {| ruleMap := <[Hash rule := rule]> (ruleMap p);
      emitted := emitted p ++ [EVT_RULE_ADDED rule] |}).
Proof. intros H. unfold AddRule. by rewrite H. Qed.

Lemma AddRule_then_present (rule : Rule) (p : Policy) :
  is_Some (ruleMap (AddRule Hash rule p).2 !! Hash rule).
Proof.
  destruct (ruleMap p !! Hash rule) as [old|] eqn:H.
  - rewrite AddRule_present by eauto. simpl. eauto.
  - rewrite AddRule_absent by done. simpl. rewrite lookup_insert_eq. eauto.
Qed.

(** C3.  [AddRule] of a rule whose fingerprint is in the table returns
    [(false, nil)], leaves the table as it is and emits nothing, so the
    second of two [AddRule]s of the same rule changes nothing and the two
    together emit one [RULE_ADDED] (none when the fingerprint was there
    before the first); [RemoveRule] of a rule whose fingerprint is not in
    the table returns [(false, nil)], changes nothing and emits nothing;
    and neither operation returns an error. *)
Theorem AddRule_RemoveRule_no_error (rule : Rule) (p : Policy) :
  (is_Some (ruleMap p !! Hash rule) ->
   AddRule Hash rule p = ((false, None), p)) /\
  (let p1 := (AddRule Hash rule p).2 in
   AddRule Hash rule p1 = ((false, None), p1)) /\
  (let p2 := (AddRule Hash rule (AddRule Hash rule p).2).2 in
   emitted p2 =
   emitted p ++ match ruleMap p !! Hash rule with
                | Some _ => []
                | None => [EVT_RULE_ADDED rule]
                end) /\
  (ruleMap p !! Hash rule = None ->
   let p2 := (AddRule Hash rule (AddRule Hash rule p).2).2 in
   length (ruleAdded (emitted p2)) = S (length (ruleAdded (emitted p)))) /\
  (ruleMap p !! Hash rule = None ->
   RemoveRule Hash rule p = ((false, None), p)) /\
  (AddRule Hash rule p).1.2 = None /\
  (RemoveRule Hash rule p).1.2 = None.
Proof.
  split_and!.
  - apply AddRule_present.
  - apply AddRule_present, AddRule_then_present.
  - rewrite (AddRule_present rule (AddRule Hash rule p).2)
      by apply AddRule_then_present. simpl.
    destruct (ruleMap p !! Hash rule) as [old|] eqn:H.
    + rewrite AddRule_present by eauto. simpl. by rewrite app_nil_r.
    + by rewrite AddRule_absent.
  - intros H. rewrite (AddRule_present rule (AddRule Hash rule p).2)
      by apply AddRule_then_present. simpl.
    rewrite AddRule_absent by done. simpl. unfold ruleAdded.
    rewrite filter_app, length_app. simpl. lia.
  - intros H. unfold RemoveRule. by rewrite H.
  - unfold AddRule. by destruct (ruleMap p !! Hash rule).
  - unfold RemoveRule. by destruct (ruleMap p !! Hash rule).
Qed.

End PolicyProps.

(** The theorem at a table with one rule and the rule joined by commas
    as its fingerprint. *)
Lemma AddRule_RemoveRule_no_error_witness :
  let Hash := String.concat "," in
  let rule := ["alice"; "data1"; "read"] in
  let p := (Policy.AddRule Hash rule (Policy.NewPolicy)).2 in
  Policy.AddRule Hash rule p = ((false, None), p) /\
  Policy.RemoveRule Hash rule Policy.NewPolicy
  = ((false, None), Policy.NewPolicy).
Proof.
  intros Hash rule p.
  destruct (AddRule_RemoveRule_no_error Hash rule p) as (H1 & _).
  destruct (AddRule_RemoveRule_no_error Hash rule Policy.NewPolicy)
    as (_ & _ & _ & _ & H5 & _).
  split.
  - apply H1. vm_compute. eauto.
  - apply H5. reflexivity.
Defined.

(* ===================================================================== *)
(** * Properties of the role manager *)
(* ===================================================================== *)

Section RbacProps.

Import Rbac.

Context {Cache : Type}.
Variable NewSyncLRUCache : Z -> Cache.
Variable cacheGet : string -> Cache -> option bool * Cache.
Variable cachePut : string -> bool -> Cache -> Cache.
Variable rangeOrder : gset string -> list string.

Local Abbreviation RM := (RoleManager Cache).
Local Abbreviation rm_match' := (rm_match Cache cacheGet cachePut).
Local Abbreviation sameOrMatch' := (sameOrMatch Cache cacheGet cachePut).
Local Abbreviation scanRoles' := (scanRoles Cache cacheGet cachePut).
Local Abbreviation hasLinkHelper' :=
  (hasLinkHelper Cache cacheGet cachePut rangeOrder).
Local Abbreviation getRole' := (getRole Cache cacheGet cachePut rangeOrder).
Local Abbreviation removeRole' := (removeRole Cache rangeOrder).
Local Abbreviation HasLink' := (HasLink Cache cacheGet cachePut rangeOrder).
Local Abbreviation GetRoles' := (GetRoles Cache cacheGet cachePut rangeOrder).
Local Abbreviation GetUsers' := (GetUsers Cache cacheGet cachePut rangeOrder).

Lemma sameGraph_refl (rm : RM) : sameGraph rm rm.
Proof. by repeat split. Qed.

Lemma sameGraph_trans (rm1 rm2 rm3 : RM) :
  sameGraph rm1 rm2 -> sameGraph rm2 rm3 -> sameGraph rm1 rm3.
Proof.
  intros (? & ? & ? & ?) (? & ? & ? & ?). repeat split; congruence.
Qed.

Lemma rm_match_sameGraph (a b : string) (rm rm' : RM) (v : bool) :
  rm_match' a b rm = Ok (v, rm') -> sameGraph rm rm'.
Proof.
  unfold rm_match. destruct (cacheGet _ _) as [[w|] c].
  - intros [= <- <-]. by repeat split.
  - destruct (matcher rm); [|done]. intros [= <- <-]. by repeat split.
Qed.

Lemma rm_match_Ok (a b : string) (rm : RM) :
  is_Some (matcher rm) -> exists v rm', rm_match' a b rm = Ok (v, rm').
Proof.
  intros [m Hm]. unfold rm_match. destruct (cacheGet _ _) as [[w|] c].
  - eauto.
  - rewrite Hm. eauto.
Qed.

Lemma sameOrMatch_Ok (a b : string) (rm : RM) :
  exists v rm', sameOrMatch' a b rm = Ok (v, rm') /\ sameGraph rm rm'
    /\ (a = b -> v = true /\ rm' = rm).
Proof.
  unfold sameOrMatch. case_bool_decide as Hab.
  - exists true, rm. split_and!; [done|apply sameGraph_refl|done].
  - destruct (matcher rm) as [m|] eqn:Hm.
    + destruct (rm_match_Ok a b rm) as (v & rm' & H); [by rewrite Hm|].
      exists v, rm'. split_and!; [done| |done].
      eapply rm_match_sameGraph. exact H.
    + exists false, rm. split_and!; [done|apply sameGraph_refl|done].
Qed.

Lemma scanRoles_Ok (target : string) (frontier : list string) :
  forall (next : gset string) (rm : RM),
  exists r rm', scanRoles' target frontier next rm = Ok (r, rm')
    /\ sameGraph rm rm'.
Proof.
  induction frontier as [|role rest IH]; intros next rm; simpl.
  - exists (inr next), rm. split; [done|apply sameGraph_refl].
  - unfold bind.
    destruct (sameOrMatch_Ok role target rm) as (v & rm1 & -> & Hs & _).
    destruct v.
    + exists (inl tt), rm1. done.
    + destruct (IH (next ∪ rangeRoles (allRoles rm1) role) rm1)
        as (r & rm2 & -> & Hs2).
      exists r, rm2. split; [done|]. by eapply sameGraph_trans.
Qed.

Lemma hasLinkHelper_Ok (fuel : nat) :
  forall (target : string) (roles : gset string) (level : Z) (rm : RM),
  (Z.to_nat level < fuel)%nat ->
  exists b rm', hasLinkHelper' fuel target roles level rm = Ok (b, rm')
    /\ sameGraph rm rm'.
Proof.
  induction fuel as [|fuel IH]; intros target roles level rm Hf; [lia|].
  simpl. destruct (level <=? 0) eqn:Hl; simpl.
  - exists false, rm. split; [done|apply sameGraph_refl].
  - case_bool_decide.
    + exists false, rm. split; [done|apply sameGraph_refl].
    + unfold bind.
      destruct (scanRoles_Ok target (rangeOrder roles) ∅ rm)
        as (r & rm1 & -> & Hs).
      destruct r as [[]|next].
      * exists true, rm1. done.
      * apply Z.leb_gt in Hl.
        destruct (IH target next (level - 1) rm1) as (b & rm2 & -> & Hs2);
          [lia|].
        exists b, rm2. split; [done|]. by eapply sameGraph_trans.
Qed.

Lemma sameNames_refl (rm : RM) : sameNames rm rm.
Proof. by repeat split. Qed.

Lemma sameNames_trans (rm1 rm2 rm3 : RM) :
  sameNames rm1 rm2 -> sameNames rm2 rm3 -> sameNames rm1 rm3.
Proof.
  intros (? & ? & ? & ?) (? & ? & ? & ?). repeat split; congruence.
Qed.

Lemma sameGraph_sameNames (rm rm' : RM) : sameGraph rm rm' -> sameNames rm rm'.
Proof. intros (H & ? & ? & ?). repeat split; try done. by rewrite H. Qed.

Lemma dom_addMatch (a b : string) (st : Store) :
  dom (addMatch a b st) = dom st.
Proof. unfold addMatch. by rewrite !dom_alter_L. Qed.

Lemma dom_removeMatch (a b : string) (st : Store) :
  dom (removeMatch a b st) = dom st.
Proof. unfold removeMatch. by rewrite !dom_alter_L. Qed.

Lemma dom_removeMatches (name : string) (role : Role) (st : Store) :
  dom (removeMatches rangeOrder name role st) = dom st.
Proof.
  unfold removeMatches.
  induction (rangeOrder (matchedBy role)) as [|p ps IH]; simpl.
  - induction (rangeOrder (matched role)) as [|m ms IH]; simpl; [done|].
    by rewrite dom_removeMatch.
  - by rewrite dom_removeMatch.
Qed.

(** A loop whose body keeps an invariant keeps it, and returns when its
    body does. *)
Lemma forEach_inv (P : RM -> Prop) (Q : string -> Prop)
    (body : string -> Exec RM unit) (keys : list string) :
  (forall k rm, Q k -> P rm -> exists rm', body k rm = Ok (tt, rm') /\ P rm') ->
  Forall Q keys ->
  forall rm, P rm ->
  exists rm', forEach Cache keys body rm = Ok (tt, rm') /\ P rm'.
Proof.
  intros Hbody. induction keys as [|k keys IH]; intros HQ rm HP; simpl.
  - exists rm. done.
  - apply Forall_cons in HQ as [Hk HQ]. unfold bind.
    destruct (Hbody k rm Hk HP) as (rm1 & -> & HP1).
    by apply IH.
Qed.

Lemma removeRole_names (name : string) (rm : RM) :
  dom (allRoles (removeRole' name rm)) = dom (allRoles rm) ∖ {[name]} /\
  patternRoles (removeRole' name rm) = patternRoles rm ∖ {[name]} /\
  matcher (removeRole' name rm) = matcher rm /\
  maxHierarchyLevel (removeRole' name rm) = maxHierarchyLevel rm.
Proof.
  unfold removeRole. destruct (allRoles rm !! name) as [role|] eqn:H; simpl.
  - rewrite dom_removeMatches, dom_delete_L. done.
  - split_and!; try done. apply not_elem_of_dom in H.
    symmetry. by apply difference_disjoint_L, disjoint_singleton_r.
Qed.

Lemma rm_match_names (a b : string) (rm0 rm : RM) :
  is_Some (matcher rm0) -> sameNames rm0 rm ->
  exists v rm', rm_match' a b rm = Ok (v, rm') /\ sameNames rm0 rm'.
Proof.
  intros Hm Hs. pose proof Hs as (_ & _ & Hm' & _).
  destruct (rm_match_Ok a b rm) as (v & rm' & H); [by rewrite Hm'|].
  exists v, rm'. split; [done|].
  eapply sameNames_trans; [done|].
  eapply sameGraph_sameNames, rm_match_sameGraph. exact H.
Qed.

Lemma getRole_loaded (name : string) (rm : RM) :
  is_Some (allRoles rm !! name) ->
  getRole' name rm = Ok ((name, false), rm).
Proof. intros [r H]. unfold getRole. by rewrite H. Qed.

Section Enumeration.

(** A [Range] yields the keys of the map, and only those. *)
Hypothesis rangeOrder_elem :
  forall (X : gset string) (x : string), x ∈ rangeOrder X <-> x ∈ X.

Lemma rangeMatchingRoles_names (pattern : string)
    (fn : string -> RM -> RM) (rm0 rm : RM) :
  is_Some (matcher rm0) ->
  (forall k rm, sameNames rm0 rm -> sameNames rm0 (fn k rm)) ->
  sameNames rm0 rm ->
  exists rm',
    rangeMatchingRoles Cache cacheGet cachePut rangeOrder pattern fn rm
    = Ok (tt, rm') /\ sameNames rm0 rm'.
Proof.
  intros Hm Hfn Hs. unfold rangeMatchingRoles.
  apply (forEach_inv (sameNames rm0) (fun _ => True));
    [|by apply Forall_forall|done].
  intros k rm' _ Hs'. case_bool_decide; [|by exists rm'].
  unfold bind.
  destruct (rm_match_names k pattern rm0 rm') as (v & rm4 & -> & Hs4);
    [done|done|].
  destruct v; [|by exists rm4].
  eexists. split; [reflexivity|]. by apply Hfn.
Qed.

Lemma rangeMatchingPatterns_names (name : string)
    (fn : string -> RM -> RM) (rm0 rm : RM) :
  is_Some (matcher rm0) -> patternsStored rm0 ->
  (forall k rm, sameNames rm0 rm -> sameNames rm0 (fn k rm)) ->
  sameNames rm0 rm ->
  exists rm',
    rangeMatchingPatterns Cache cacheGet cachePut rangeOrder name fn rm
    = Ok (tt, rm') /\ sameNames rm0 rm'.
Proof.
  intros Hm Hwf Hfn Hs. unfold rangeMatchingPatterns.
  apply (forEach_inv (sameNames rm0) (fun k => k ∈ dom (allRoles rm0)));
    [| |done].
  - intros k rm' Hk Hs'. case_bool_decide; [|by exists rm'].
    unfold bind.
    destruct (rm_match_names name k rm0 rm') as (v & rm4 & -> & Hs4);
      [done|done|].
    destruct v; [|by exists rm4].
    pose proof Hs4 as (Hd & _).
    rewrite <- Hd in Hk. apply elem_of_dom in Hk as [r ->].
    eexists. split; [reflexivity|]. by apply Hfn.
  - apply Forall_forall. intros k Hk%rangeOrder_elem.
    destruct Hs as (_ & Hp & _). rewrite Hp in Hk. by apply Hwf.
Qed.

Lemma getRole_created (name : string) (rm : RM) :
  patternsStored rm -> allRoles rm !! name = None ->
  exists rm', getRole' name rm = Ok ((name, true), rm') /\
    dom (allRoles rm') = {[name]} ∪ dom (allRoles rm) /\
    patternRoles rm ⊆ patternRoles rm' /\
    patternRoles rm' ⊆ {[name]} ∪ patternRoles rm /\
    matcher rm' = matcher rm /\
    maxHierarchyLevel rm' = maxHierarchyLevel rm.
Proof.
  intros Hwf Habs. unfold getRole. rewrite Habs. simpl.
  set (rm1 := setAllRoles Cache (<[name:=newRole]> (allRoles rm)) rm).
  assert (Hwf1 : patternsStored rm1).
  { unfold patternsStored in *. simpl. rewrite dom_insert_L. set_solver. }
  destruct (matcher rm) as [m|] eqn:Hm.
  - destruct (IsPattern m name).
    + set (rm2 := setPatternRoles Cache ({[name]} ∪ patternRoles rm) rm1).
      unfold bind.
      destruct (rangeMatchingRoles_names name
                  (fun r rm => setAllRoles Cache
                                 (addMatch name r (allRoles rm)) rm)
                  rm2 rm2) as (rm3 & -> & H3).
      * simpl. rewrite Hm. eauto.
      * intros k rm' (Hd & ? & ? & ?). repeat split; try done.
        simpl. by rewrite dom_addMatch.
      * apply sameNames_refl.
      * simpl. exists rm3. destruct H3 as (Hd & Hp & Hm3 & Hl).
        split; [done|]. rewrite Hd, Hp, Hm3, Hl. simpl.
        rewrite dom_insert_L. split_and!; try done; set_solver.
    + unfold bind.
      destruct (rangeMatchingPatterns_names name
                  (fun r rm => setAllRoles Cache
                                 (addMatch r name (allRoles rm)) rm)
                  rm1 rm1) as (rm3 & -> & H3).
      * simpl. rewrite Hm. eauto.
      * done.
      * intros k rm' (Hd & ? & ? & ?). repeat split; try done.
        simpl. by rewrite dom_addMatch.
      * apply sameNames_refl.
      * simpl. exists rm3. destruct H3 as (Hd & Hp & Hm3 & Hl).
        split; [done|]. rewrite Hd, Hp, Hm3, Hl. simpl.
        rewrite dom_insert_L. split_and!; try done; set_solver.
  - exists rm1. split; [done|]. simpl. rewrite dom_insert_L.
    split_and!; try done; set_solver.
Qed.

Lemma getRole_names (name : string) (rm : RM) :
  patternsStored rm ->
  exists created rm', getRole' name rm = Ok ((name, created), rm') /\
    (created = true <-> name ∉ dom (allRoles rm)) /\
    (created = false -> rm' = rm) /\
    dom (allRoles rm') = {[name]} ∪ dom (allRoles rm) /\
    patternRoles rm ⊆ patternRoles rm' /\
    patternRoles rm' ⊆ {[name]} ∪ patternRoles rm /\
    matcher rm' = matcher rm /\
    maxHierarchyLevel rm' = maxHierarchyLevel rm /\
    patternsStored rm'.
Proof.
  intros Hwf. destruct (allRoles rm !! name) as [r|] eqn:H.
  - exists false, rm. rewrite getRole_loaded by eauto.
    assert (name ∈ dom (allRoles rm)) by (apply elem_of_dom; eauto).
    split_and!; try done; set_solver.
  - destruct (getRole_created name rm Hwf H)
      as (rm' & -> & Hd & Hp1 & Hp2 & Hm & Hl).
    exists true, rm'. apply not_elem_of_dom in H.
    split_and!; try done. unfold patternsStored in *. set_solver.
Qed.

Lemma deferred_names (created : bool) (name : string) (rm : RM) :
  let rm' := deferred Cache rangeOrder created name rm in
  dom (allRoles rm') =
    (if created then dom (allRoles rm) ∖ {[name]} else dom (allRoles rm)) /\
  patternRoles rm' =
    (if created then patternRoles rm ∖ {[name]} else patternRoles rm) /\
  matcher rm' = matcher rm /\ maxHierarchyLevel rm' = maxHierarchyLevel rm.
Proof.
  destruct created; simpl; [apply removeRole_names|done].
Qed.

(** The set reasoning behind the queries: a name added because it was
    absent, and removed again, leaves the set as it was. *)
Lemma add_remove_absent (c : bool) (x : string) (D D' : gset string) :
  (c = true <-> x ∉ D) -> D' = {[x]} ∪ D ->
  (if c then D' ∖ {[x]} else D') = D.
Proof.
  intros Hc ->. destruct c.
  - assert (x ∉ D) by (by apply Hc). clear Hc. set_solver.
  - assert (x ∈ D).
    { destruct (decide (x ∈ D)) as [|Hn]; [done|]. by apply Hc in Hn. }
    clear Hc. set_solver.
Qed.

Lemma add_remove_pattern (c : bool) (x : string) (D P P' : gset string) :
  (c = true <-> x ∉ D) -> (c = false -> P' = P) -> P ⊆ D ->
  P ⊆ P' -> P' ⊆ {[x]} ∪ P ->
  (if c then P' ∖ {[x]} else P') = P.
Proof.
  intros Hc Hf HPD H1 H2. destruct c; [|by apply Hf].
  assert (x ∉ D) by (by apply Hc). clear Hc Hf. set_solver.
Qed.

Lemma HasLink_names (fuel : nat) (name1 name2 : string) (rm : RM) :
  patternsStored rm ->
  (Z.to_nat (maxHierarchyLevel rm) < fuel)%nat ->
  exists r rm', HasLink' fuel name1 name2 rm = Ok (r, rm') /\ sameNames rm rm'.
Proof.
  intros Hwf Hfuel. unfold HasLink, bind.
  destruct (sameOrMatch_Ok name1 name2 rm) as (v & rm1 & -> & Hs1 & _).
  destruct v.
  { eexists _, rm1. split; [reflexivity|]. by apply sameGraph_sameNames. }
  destruct Hs1 as (Hst1 & Hp1 & Hm1 & Hl1).
  assert (Hwf1 : patternsStored rm1)
    by (unfold patternsStored; by rewrite Hst1, Hp1).
  destruct (getRole_names name1 rm1 Hwf1)
    as (c1 & rm2 & -> & Hc1 & Hf1 & Hd2 & Hp2a & Hp2b & Hm2 & Hl2 & Hwf2).
  destruct (getRole_names name2 rm2 Hwf2)
    as (c2 & rm3 & -> & Hc2 & Hf2 & Hd3 & Hp3a & Hp3b & Hm3 & Hl3 & Hwf3).
  destruct (hasLinkHelper_Ok fuel name2 {[name1]} (maxHierarchyLevel rm3) rm3)
    as (b & rm4 & -> & (Hst4 & Hp4 & Hm4 & Hl4)); [congruence|].
  eexists _, _. split; [reflexivity|].
  pose proof (deferred_names c2 name2 rm4) as (Hd5 & Hp5 & Hm5 & Hl5).
  pose proof (deferred_names c1 name1
                (deferred Cache rangeOrder c2 name2 rm4))
    as (Hd6 & Hp6 & Hm6 & Hl6).
  simpl in *.
  repeat split; [| |congruence|congruence].
  - rewrite Hd6, Hd5, Hst4, <- Hst1.
    rewrite (add_remove_absent c2 name2 (dom (allRoles rm2))) by done.
    by apply add_remove_absent.
  - rewrite Hp6, Hp5, Hp4, <- Hp1.
    rewrite (add_remove_pattern c2 name2 (dom (allRoles rm2))
               (patternRoles rm2)); try done.
    + apply (add_remove_pattern c1 name1 (dom (allRoles rm1))); try done.
      intros H. by rewrite (Hf1 H).
    + intros H. by rewrite (Hf2 H).
Qed.

Lemma GetRoles_names (name : string) (rm : RM) :
  patternsStored rm ->
  exists r rm', GetRoles' name rm = Ok (r, rm') /\ sameNames rm rm'.
Proof.
  intros Hwf. unfold GetRoles, bind.
  destruct (getRole_names name rm Hwf)
    as (c & rm1 & -> & Hc & Hf & Hd & Hpa & Hpb & Hm & Hl & Hwf1).
  eexists _, _. split; [reflexivity|].
  pose proof (deferred_names c name rm1) as (Hd2 & Hp2 & Hm2 & Hl2).
  simpl in *. repeat split; [| |congruence|congruence].
  - rewrite Hd2. by apply add_remove_absent.
  - rewrite Hp2. apply (add_remove_pattern c name (dom (allRoles rm)));
      try done. intros H. by rewrite (Hf H).
Qed.

Lemma GetUsers_names (name : string) (rm : RM) :
  patternsStored rm ->
  exists r rm', GetUsers' name rm = Ok (r, rm') /\ sameNames rm rm'.
Proof.
  intros Hwf. unfold GetUsers, bind.
  destruct (getRole_names name rm Hwf)
    as (c & rm1 & -> & Hc & Hf & Hd & Hpa & Hpb & Hm & Hl & Hwf1).
  eexists _, _. split; [reflexivity|].
  pose proof (deferred_names c name rm1) as (Hd2 & Hp2 & Hm2 & Hl2).
  simpl in *. repeat split; [| |congruence|congruence].
  - rewrite Hd2. by apply add_remove_absent.
  - rewrite Hp2. apply (add_remove_pattern c name (dom (allRoles rm)));
      try done. intros H. by rewrite (Hf H).
Qed.

(** C5.  In a role manager whose recorded patterns are stored roles,
    [HasLink] (given the fuel for its depth bound), [GetRoles] and
    [GetUsers] return, and the manager they leave stores roles under
    exactly the names it stored before, with the same recorded patterns:
    a role created to answer the query is gone when the query returns. *)
Theorem queries_keep_stored_roles (fuel : nat) (name1 name2 : string)
    (rm : RM) :
  patternsStored rm ->
  (Z.to_nat (maxHierarchyLevel rm) < fuel)%nat ->
  (exists r rm',
     HasLink Cache cacheGet cachePut rangeOrder fuel name1 name2 rm
     = Ok (r, rm') /\
     dom (allRoles rm') = dom (allRoles rm) /\
     patternRoles rm' = patternRoles rm) /\
  (exists r rm',
     GetRoles Cache cacheGet cachePut rangeOrder name1 rm = Ok (r, rm') /\
     dom (allRoles rm') = dom (allRoles rm) /\
     patternRoles rm' = patternRoles rm) /\
  (exists r rm',
     GetUsers Cache cacheGet cachePut rangeOrder name1 rm = Ok (r, rm') /\
     dom (allRoles rm') = dom (allRoles rm) /\
     patternRoles rm' = patternRoles rm).
Proof.
  intros Hwf Hfuel. split_and!.
  - destruct (HasLink_names fuel name1 name2 rm Hwf Hfuel)
      as (r & rm' & H & Hd & Hp & _). eauto.
  - destruct (GetRoles_names name1 rm Hwf) as (r & rm' & H & Hd & Hp & _).
    eauto.
  - destruct (GetUsers_names name1 rm Hwf) as (r & rm' & H & Hd & Hp & _).
    eauto.
Qed.

End Enumeration.

(** ** The bounded breadth-first search *)








Section Search.

Hypothesis rangeOrder_elem :
  forall (X : gset string) (x : string), x ∈ rangeOrder X <-> x ∈ X.




End Search.

(** C2.  Whatever the role manager holds, and with any fuel,
    [HasLink(x, x)] returns [true] and a nil error, and leaves the
    manager as it was. *)
Theorem HasLink_same_name (fuel : nat) (x : string) (rm : RM) :
  HasLink Cache cacheGet cachePut rangeOrder fuel x x rm
  = Ok ((true, None), rm).
Proof.
  unfold HasLink, bind, sameOrMatch. by rewrite bool_decide_eq_true_2.
Qed.

End RbacProps.

(* ===================================================================== *)
(** * Properties of the string operations *)
(* ===================================================================== *)

Section StrProps.

Import Str.

Lemma app_cons (c : ascii) (a b : string) :
  String c a +:+ b = String c (a +:+ b).
Proof. reflexivity. Qed.

Lemma app_empty_l (s : string) : "" +:+ s = s.
Proof. reflexivity. Qed.

Lemma app_empty_r (s : string) : s +:+ "" = s.
Proof. induction s as [|c s IH]; [done|]. by rewrite app_cons, IH. Qed.

Lemma app_assoc_s (a b c : string) : (a +:+ b) +:+ c = a +:+ b +:+ c.
Proof.
  induction a as [|x a IH]; [done|]. by rewrite !app_cons, IH.
Qed.

Lemma len_app (a b : string) : len (a +:+ b) = (len a + len b)%nat.
Proof.
  induction a as [|x a IH]; [done|]. rewrite app_cons. simpl. by rewrite IH.
Qed.

Lemma len_takeS (n : nat) (s : string) : len (takeS n s) = Nat.min n (len s).
Proof.
  revert s. induction n as [|n IH]; intros [|c s]; simpl; try done.
  by rewrite IH.
Qed.

Lemma len_dropS (n : nat) (s : string) : len (dropS n s) = (len s - n)%nat.
Proof.
  revert s. induction n as [|n IH]; intros [|c s]; simpl; try done.
Qed.

Lemma takeS_dropS (n : nat) (s : string) : takeS n s +:+ dropS n s = s.
Proof.
  revert s. induction n as [|n IH]; intros [|c s]; simpl; try done.
  by rewrite app_cons, IH.
Qed.

Lemma takeS_0 (s : string) : takeS 0 s = "".
Proof. by destruct s. Qed.

Lemma dropS_0 (s : string) : dropS 0 s = s.
Proof. by destruct s. Qed.

Lemma takeS_all (n : nat) (s : string) : (len s <= n)%nat -> takeS n s = s.
Proof.
  revert s. induction n as [|n IH]; intros [|c s]; simpl; try done.
  - lia.
  - intros H. rewrite IH; [done|lia].
Qed.

Lemma dropS_all (n : nat) (s : string) : (len s <= n)%nat -> dropS n s = "".
Proof.
  revert s. induction n as [|n IH]; intros [|c s]; simpl; try done.
  - lia.
  - intros H. apply IH. lia.
Qed.

Lemma dropS_add (a b : nat) (s : string) :
  dropS (a + b) s = dropS b (dropS a s).
Proof.
  revert s. induction a as [|a IH]; intros s; simpl.
  - by rewrite ?dropS_0.
  - destruct s as [|c s]; [|apply IH]. by destruct b.
Qed.

Lemma takeS_add (a b : nat) (s : string) :
  takeS (a + b) s = takeS a s +:+ takeS b (dropS a s).
Proof.
  revert s. induction a as [|a IH]; intros s; simpl.
  - by rewrite ?takeS_0, ?dropS_0.
  - destruct s as [|c s]; simpl; [by destruct b|].
    by rewrite app_cons, IH.
Qed.

Lemma takeS_app (a b : string) : takeS (len a) (a +:+ b) = a.
Proof.
  induction a as [|x a IH]; [apply takeS_0|].
  rewrite app_cons. simpl. by rewrite IH.
Qed.

Lemma dropS_app (a b : string) : dropS (len a) (a +:+ b) = b.
Proof.
  induction a as [|x a IH]; [apply dropS_0|]. rewrite app_cons. done.
Qed.

Lemma HasPrefix_app (pre t : string) : HasPrefix (pre +:+ t) pre = true.
Proof.
  induction pre as [|c pre IH]; [done|]. rewrite app_cons. simpl.
  by rewrite Ascii.eqb_refl, IH.
Qed.

Lemma HasPrefix_split (s pre : string) :
  HasPrefix s pre = true -> s = pre +:+ dropS (len pre) s.
Proof.
  revert s. induction pre as [|c pre IH]; intros s; simpl.
  - by rewrite ?dropS_0.
  - destruct s as [|x s]; [done|].
    intros [Hc Hp]%andb_true_iff. apply Ascii.eqb_eq in Hc as ->.
    rewrite app_cons. simpl. by rewrite <- IH.
Qed.

Lemma HasPrefix_len (s pre : string) :
  HasPrefix s pre = true -> (len pre <= len s)%nat.
Proof.
  intros H%HasPrefix_split. rewrite H, len_app. lia.
Qed.

Lemma HasPrefix_app_l (s a b : string) :
  HasPrefix s (a +:+ b) = true ->
  HasPrefix s a = true /\ HasPrefix (dropS (len a) s) b = true.
Proof.
  intros H%HasPrefix_split. rewrite H, app_assoc_s. split.
  - apply HasPrefix_app.
  - rewrite dropS_app. apply HasPrefix_app.
Qed.

(** The first occurrence: [sep] occurs at [i] and at no earlier
    position. *)
Lemma Index_Some (s sep : string) (i : nat) :
  Index s sep = Some i ->
  HasPrefix (dropS i s) sep = true /\
  forall j : nat, (j < i)%nat -> HasPrefix (dropS j s) sep = false.
Proof.
  revert i. induction s as [|c s IH]; intros i; simpl.
  - destruct (HasPrefix "" sep) eqn:Hp; [|done]. intros [= <-].
    split; [done|]. intros j Hj. lia.
  - destruct (HasPrefix (String c s) sep) eqn:Hp.
    + intros [= <-]. split; [done|]. intros j Hj. lia.
    + destruct (Index s sep) as [k|] eqn:Hk; [|done]. simpl.
      intros [= <-]. destruct (IH k eq_refl) as [H1 H2]. split; [done|].
      intros [|j] Hj; [done|]. simpl. apply H2. lia.
Qed.

Lemma Index_None (s sep : string) (j : nat) :
  Index s sep = None -> HasPrefix (dropS j s) sep = false.
Proof.
  revert j. induction s as [|c s IH]; intros j; simpl.
  - destruct (HasPrefix "" sep) eqn:Hp; [done|]. intros _. by destruct j.
  - destruct (HasPrefix (String c s) sep) eqn:Hp; [done|].
    destruct (Index s sep) as [k|] eqn:Hk; [done|]. intros _.
    destruct j as [|j]; [done|]. simpl. by apply IH.
Qed.

Lemma Index_None_intro (s sep : string) :
  (forall j : nat, HasPrefix (dropS j s) sep = false) -> Index s sep = None.
Proof.
  induction s as [|c s IH]; intros H; simpl.
  - specialize (H 0%nat). simpl in H. by rewrite H.
  - pose proof (H 0%nat) as H0. simpl in H0. rewrite H0.
    rewrite IH; [done|]. intros j. apply (H (S j)).
Qed.

Lemma Index_bound (s sep : string) (i : nat) :
  Index s sep = Some i -> (i + len sep <= len s)%nat.
Proof.
  revert i. induction s as [|c s IH]; intros i; simpl.
  - destruct (HasPrefix "" sep) eqn:Hp; [|done]. intros [= <-].
    apply HasPrefix_len in Hp. simpl in *. lia.
  - destruct (HasPrefix (String c s) sep) eqn:Hp.
    + intros [= <-]. apply HasPrefix_len in Hp. simpl in *. lia.
    + destruct (Index s sep) as [k|] eqn:Hk; [|done]. simpl.
      intros [= <-]. specialize (IH k eq_refl). lia.
Qed.

Lemma dropS_app_le (j : nat) (a b : string) :
  (j <= len a)%nat -> dropS j (a +:+ b) = dropS j a +:+ b.
Proof.
  revert a. induction j as [|j IH]; intros a Hj.
  - by rewrite !dropS_0.
  - destruct a as [|c a]; simpl in Hj; [lia|]. rewrite app_cons. simpl.
    apply IH. lia.
Qed.

Lemma HasPrefix_app_r (a b pre : string) :
  HasPrefix a pre = true -> HasPrefix (a +:+ b) pre = true.
Proof.
  intros H%HasPrefix_split. rewrite H, app_assoc_s. apply HasPrefix_app.
Qed.

(** Before its first occurrence the separator does not occur. *)
Lemma Index_takeS (s sep : string) (k : nat) :
  sep <> "" -> Index s sep = Some k -> Index (takeS k s) sep = None.
Proof.
  intros Hsep Hk. apply Index_None_intro. intros j.
  destruct (HasPrefix (dropS j (takeS k s)) sep) eqn:Hp; [|done].
  exfalso. pose proof (HasPrefix_len _ _ Hp) as Hlen.
  rewrite len_dropS, len_takeS in Hlen.
  assert (0 < len sep)%nat by (destruct sep; [done|simpl; lia]).
  apply Index_Some in Hk as [_ Hmin].
  assert (Hj : (j < k)%nat) by lia.
  specialize (Hmin j Hj).
  rewrite <- (takeS_dropS k s) in Hmin.
  rewrite dropS_app_le in Hmin by (rewrite len_takeS; lia).
  by rewrite (HasPrefix_app_r _ _ _ Hp) in Hmin.
Qed.

(** An occurrence of the separator at [m] ends a piece of length [m]. *)
Lemma HasPrefix_piece (str0 sep : string) (m : nat) :
  sep <> "" -> HasPrefix (dropS m str0) sep = true ->
  HasPrefix str0 (takeS m str0 +:+ sep) = true /\ len (takeS m str0) = m.
Proof.
  intros Hsep Hp. split.
  - rewrite <- (takeS_dropS m str0) at 1.
    rewrite (HasPrefix_split _ _ Hp), <- app_assoc_s. apply HasPrefix_app.
  - apply HasPrefix_len in Hp. rewrite len_dropS in Hp.
    assert (0 < len sep)%nat by (destruct sep; [done|simpl; lia]).
    rewrite len_takeS. lia.
Qed.

End StrProps.

(* ===================================================================== *)
(** * Properties of the path matcher *)
(* ===================================================================== *)

Section PathmatchProps.

Import Str Pathmatch.

(** ** Compile: the segments follow the pieces of the pattern *)

Lemma compileSegment_wildcard (p : Path) (unnamed : nat) :
  compileSegment p unnamed (Wildcard p)
  = Ok (inl (wildcardSegment ("$" +:+ Itoa unnamed), S unnamed)).
Proof. unfold compileSegment. by rewrite String.eqb_refl. Qed.

Lemma newMixedSegment_mixed (s : string) (keys : list string)
    (locs : list (nat * nat)) (seg : Segment) :
  newMixedSegment s keys locs = Ok (inl seg) ->
  exists static, seg = mixedSegment keys static.
Proof.
  unfold newMixedSegment.
  destruct (mixedStatics s keys locs 0 0 []) as [[static|e]| |]; try done.
  destruct (last locs) as [[a lastLoc]|]; [|done].
  destruct (sliceFrom s lastLoc); [|done]. intros [= <-]. eauto.
Qed.

Lemma compileSegment_other (p : Path) (unnamed : nat) (strSeg : string)
    (seg : Segment) (unnamed' : nat) :
  strSeg <> Wildcard p ->
  compileSegment p unnamed strSeg = Ok (inl (seg, unnamed')) ->
  unnamed' = unnamed /\ Multiple seg = false /\ flagOf (pequalCheck p) seg.
Proof.
  intros Hw. unfold compileSegment.
  rewrite (proj2 (String.eqb_neq _ _)) by done.
  destruct (Index strSeg (Prefix p)) as [iPrefix|]; [|by intros [= <- <-]].
  destruct (scanKeys _ _ _ _ _ _ _) as [[[keys keyLocs]|e]| |]; try done.
  match goal with |- context [match ?x with Some _ => _ | None => _ end] =>
    destruct x as [key|] end.
  - by intros [= <- <-].
  - destruct (newMixedSegment strSeg keys keyLocs) as [[mixed|e]| |] eqn:Hm;
      try done.
    intros [= <- <-]. apply newMixedSegment_mixed in Hm as [static ->]. done.
Qed.

Lemma wildcardsIn_snoc (w : string) (pieces : list string) (piece : string) :
  wildcardsIn w (pieces ++ [piece])
  = (wildcardsIn w pieces + if bool_decide (piece = w) then 1 else 0)%nat.
Proof.
  unfold wildcardsIn. rewrite filter_app, length_app. f_equal.
  case_bool_decide.
  - by rewrite filter_cons_True.
  - by rewrite filter_cons_False.
Qed.

(** The loop over the pieces appends one segment per piece: a wildcard
    with the next free number for a piece equal to the wildcard, and a
    segment of another kind for any other piece. *)
Lemma compileSegments_spec (p : Path) (pieces : list string) :
  forall (unnamed : nat) (segs segs' : list Segment),
  compileSegments p unnamed pieces segs = Ok (inl segs') ->
  exists new : list Segment,
    segs' = segs ++ new /\ length new = length pieces /\
    forall (i : nat) (piece : string), pieces !! i = Some piece ->
      exists seg, new !! i = Some seg /\ flagOf (pequalCheck p) seg /\
        if bool_decide (piece = Wildcard p)
        then seg = wildcardSegment
                     ("$" +:+ Itoa (unnamed
                                    + wildcardsIn (Wildcard p) (take i pieces)))
        else Multiple seg = false.
Proof.
  induction pieces as [|piece rest IH]; intros unnamed segs segs'; simpl.
  - intros [= <-]. exists []. rewrite app_nil_r. split_and!; try done.
  - destruct (compileSegment p unnamed piece) as [[[seg unnamed']|e]| |] eqn:Hc;
      try done.
    intros H. apply IH in H as (new & -> & Hlen & Hnew).
    exists (seg :: new). rewrite <- app_assoc. simpl.
    split_and!; [done|by rewrite Hlen|].
    assert (Hseg : flagOf (pequalCheck p) seg /\
                   unnamed' = (unnamed + wildcardsIn (Wildcard p) [piece])%nat /\
                   if bool_decide (piece = Wildcard p)
                   then seg = wildcardSegment ("$" +:+ Itoa unnamed)
                   else Multiple seg = false).
    { unfold wildcardsIn. case_bool_decide as Hw.
      - subst piece. rewrite compileSegment_wildcard in Hc.
        injection Hc as <- <-. rewrite filter_cons_True by done. simpl.
        split_and!; try done; lia.
      - apply compileSegment_other in Hc as (-> & ? & ?); [|done].
        rewrite filter_cons_False by done. simpl. split_and!; try done; lia. }
    destruct Hseg as (Hflag & -> & Hkind).
    intros [|i] piece' Hi; simpl in Hi.
    + injection Hi as <-. exists seg. simpl. split_and!; try done.
      case_bool_decide; [|done]. unfold wildcardsIn. simpl.
      by rewrite Nat.add_0_r.
    + destruct (Hnew i piece' Hi) as (seg' & Hs & Hf & Hk).
      exists seg'. simpl. split_and!; try done.
      case_bool_decide; [|done]. rewrite Hk. do 3 f_equal.
      unfold wildcardsIn. destruct (decide (piece = Wildcard p)).
      * rewrite !filter_cons_True by done. simpl. lia.
      * rewrite !filter_cons_False by done. simpl. lia.
Qed.

Lemma applyOption_keeps (o : Option) (p p' : Path) :
  applyOption o p = inl p' ->
  Segments p' = Segments p /\ pmatch p' = pmatch p /\ save p' = save p
  /\ path p' = path p.
Proof.
  destruct o as [sep|w|pre|suf|b]; simpl; try (intros [= <-]; done).
  destruct (String.eqb pre ""); [done|]. by intros [= <-].
Qed.

Lemma Compile_Ok (pattern : string) (options : list Option) (p : Path) :
  Compile pattern options = Ok (inl p) ->
  exists p0 segs,
    applyOptions options (initialPath pattern) = inl p0 /\
    compileSegments p0 0 (Split pattern (Seperator p0)) [] = Ok (inl segs) /\
    p = withSegments segs p0.
Proof.
  unfold Compile. fold (initialPath pattern).
  destruct (applyOptions options (initialPath pattern)) as [p0|e]; [|done].
  destruct (compileSegments _ _ _ _) as [[segs|e]| |] eqn:Hc; try done.
  intros [= <-]. eauto.
Qed.

(** C7.  A compiled path has one segment per piece of the pattern,
    in the order of the pieces; the segment of a piece equal to the
    wildcard is a wildcard segment with the key [$k], [k] being the
    number of wildcard pieces before it, so unnamed wildcards are
    numbered from zero in source order; the other segments are not
    wildcards.  The pattern [/*] compiles, and it matches [/a] with
    [{$0: a}], [/a/b/c] with [{$0: a/b/c}], and any input [/rest] with
    [{$0: rest}]: the trailing wildcard takes all that remains. *)
Theorem wildcard_keys :
  (forall (pattern : string) (options : list Option) (p : Path),
     Compile pattern options = Ok (inl p) ->
     let pieces := Split pattern (Seperator p) in
     length (Segments p) = length pieces /\
     forall (i : nat) (piece : string), pieces !! i = Some piece ->
       if bool_decide (piece = Wildcard p)
       then Segments p !! i
            = Some (wildcardSegment
                      ("$" +:+ Itoa (wildcardsIn (Wildcard p) (take i pieces))))
       else exists seg, Segments p !! i = Some seg /\ Multiple seg = false) /\
  (exists p : Path,
     Compile "/*" [] = Ok (inl p) /\
     Segments p = [staticSegment ""; wildcardSegment "$0"] /\
     FindSubmatch 2 p "/a" = Ok (Some {["$0" := "a"]}, p) /\
     FindSubmatch 2 p "/a/b/c" = Ok (Some {["$0" := "a/b/c"]}, p) /\
     forall rest : string,
       FindSubmatch 2 p ("/" +:+ rest) = Ok (Some {["$0" := rest]}, p)).
Proof.
  split.
  - intros pattern options p (p0 & segs & Hopt & Hsegs & ->)%Compile_Ok.
    simpl. apply compileSegments_spec in Hsegs as (new & -> & Hlen & Hnew).
    simpl. split; [done|]. intros i piece Hi.
    destruct (Hnew i piece Hi) as (seg & Hs & _ & Hk).
    case_bool_decide; [by rewrite Hs, Hk|eauto].
  - eexists. split; [vm_compute; reflexivity|].
    assert (Hrest : forall rest : string,
      FindSubmatch 2
        (mkPath "/*" "/" ":" "" "*" [staticSegment ""; wildcardSegment "$0"]
                ∅ (mkSavePoint 0 0 0 false) false) ("/" +:+ rest)
      = Ok (Some {["$0" := rest]},
            mkPath "/*" "/" ":" "" "*"
                   [staticSegment ""; wildcardSegment "$0"]
                   ∅ (mkSavePoint 0 0 0 false) false)).
    { intros rest. change ("/" +:+ rest) with (String "/" rest).
      unfold FindSubmatch, getMatch. simpl.
      unfold sliceSegment. simpl.
      destruct (Index rest "/"); simpl; rewrite Nat.eqb_refl; simpl;
        by rewrite insert_empty. }
    split_and!; [done|apply (Hrest "a")|apply (Hrest "a/b/c")|apply Hrest].
Qed.

(** ** Matching with and without capture *)

Lemma mixedKeys_alike (static : list string) (s : string)
    (keys : list string) :
  forall (i keyEnd : nat) (m1 m2 : matchDraft),
  alike (mixedKeys static s keys i keyEnd m1)
        (mixedKeys static s keys i keyEnd m2).
Proof.
  induction keys as [|key rest IH]; intros i keyEnd m1 m2; simpl; [done|].
  destruct (static !! i) as [lit|]; [|done].
  destruct (Index (dropS keyEnd s) lit) as [[|n]|]; try done.
  destruct (static !! S i) as [next|]; [|done].
  match goal with |- context [match ?x with Some _ => _ | None => _ end] =>
    destruct x as [keyLen|] end; [|done].
  destruct (slice s _ _); [|done]. apply IH.
Qed.

Lemma segMatch_alike (seg : Segment) (m1 m2 : matchDraft) (s : string) :
  flagOf false seg -> alike (segMatch seg m1 s) (segMatch seg m2 s).
Proof.
  destruct seg as [value|key ec|key|keys static]; simpl.
  - intros _. by destruct (String.eqb s value).
  - intros ->. by destruct (dmatch m1 !! key), (dmatch m2 !! key).
  - done.
  - intros _. pose proof (mixedKeys_alike static s keys 0 0 m1 m2) as H.
    destruct (mixedKeys static s keys 0 0 m1) as [[[k1|] d1]| |],
             (mixedKeys static s keys 0 0 m2) as [[[k2|] d2]| |];
      simpl in H; try done.
    injection H as <-. destruct (last static); [|done].
    by destruct (len s =? k1 + len s0)%nat.
Qed.

Lemma matchLoop_alike (segs : list Segment) (sep s : string) :
  Forall (flagOf false) segs ->
  forall (fuel i sIndex searchStart : nat) (d1 d2 : option matchDraft)
         (sv : savePoint),
  (d1 = None <-> d2 = None) ->
  endsAlike (matchLoop fuel segs sep s i sIndex searchStart d1 sv)
            (matchLoop fuel segs sep s i sIndex searchStart d2 sv).
Proof.
  intros Hflags. induction fuel as [|fuel IH];
    intros i sIndex searchStart d1 d2 sv Hd; simpl; [done|].
  destruct d1 as [d1|], d2 as [d2|];
    try (exfalso; destruct Hd as [H1 H2];
         first [by specialize (H1 eq_refl)|by specialize (H2 eq_refl)]).
  2:{ by destruct (segs !! i). }
  destruct (segs !! i) as [seg|] eqn:Hseg; [|done].
  assert (Hflag : flagOf false seg).
  { eapply Forall_lookup_1 in Hflags; [|exact Hseg]. done. }
  destruct (sliceSegment s sep sIndex searchStart) as [[str fin]|]; [|done].
  destruct (fin && negb (bool_decide (length segs - 1 = i)%nat)); [done|].
  destruct (Multiple seg && bool_decide (length segs - 1 = i)%nat).
  - pose proof (segMatch_alike seg d1 d2 (dropS sIndex s) Hflag) as H.
    destruct (segMatch seg d1 (dropS sIndex s)) as [[ok1 e1]| |],
             (segMatch seg d2 (dropS sIndex s)) as [[ok2 e2]| |];
      simpl in H; try done.
    subst ok2. simpl. split_and!; try done. by destruct ok1.
  - pose proof (segMatch_alike seg d1 d2 str Hflag) as H.
    destruct (segMatch seg d1 str) as [[ok1 e1]| |],
             (segMatch seg d2 str) as [[ok2 e2]| |];
      simpl in H; try done.
    subst ok2.
    match goal with |- context [negb ok1 && sp_valid ?sv1] =>
      destruct (negb ok1 && sp_valid sv1) end.
    + by apply IH.
    + destruct (bool_decide (length segs - 1 = i)%nat && negb fin); [done|].
      apply IH. by destruct ok1.
Qed.

Lemma Compile_flags (pattern : string) (options : list Option) (p : Path) :
  Compile pattern options = Ok (inl p) ->
  Forall (flagOf (pequalCheck p)) (Segments p).
Proof.
  intros (p0 & segs & Hopt & Hsegs & ->)%Compile_Ok. simpl.
  apply compileSegments_spec in Hsegs as (new & -> & Hlen & Hnew). simpl.
  apply Forall_lookup. intros i seg Hi.
  assert (Hlt : (i < length (Split pattern (Seperator p0)))%nat).
  { rewrite <- Hlen. by eapply lookup_lt_Some. }
  apply lookup_lt_is_Some in Hlt as [piece Hp].
  destruct (Hnew i piece Hp) as (seg' & Hs & Hf & _). congruence.
Qed.

(** C9.  For a compiled path, in whatever state earlier calls left its
    save point, and for every input and fuel: [Match] and [FindSubmatch]
    end in the same way; when they return, [Match] returns [true]
    exactly when [FindSubmatch] returns a map, and both leave the path
    in the same state. *)
Theorem Match_iff_FindSubmatch (pattern : string) (options : list Option)
    (p : Path) (sv : savePoint) (s : string) (fuel : nat) :
  Compile pattern options = Ok (inl p) ->
  match PathMatch fuel (withSave sv p) s,
        FindSubmatch fuel (withSave sv p) s with
  | Ok (b, p1), Ok (m, p2) => (b = true <-> m <> None) /\ p1 = p2
  | Panic, Panic => True
  | OutOfFuel, OutOfFuel => True
  | _, _ => False
  end.
Proof.
  intros Hflags%Compile_flags. unfold PathMatch, FindSubmatch.
  destruct (pequalCheck p) eqn:Hec.
  - simpl. rewrite Hec. simpl.
    destruct (getMatch fuel (withSave sv p) s true) as [[m p']| |]; try done.
    split; [|done]. apply bool_decide_eq_true.
  - simpl. rewrite Hec. unfold getMatch. simpl.
    pose proof (matchLoop_alike (Segments p) (Seperator p) s Hflags fuel
                  0 0 0 (Some (newMatchDraft false (pmatch p)))
                  (Some (newMatchDraft true (pmatch p))) sv) as H.
    specialize (H ltac:(by split)).
    destruct (matchLoop fuel (Segments p) (Seperator p) s 0 0 0
                (Some (newMatchDraft false (pmatch p))) sv)
      as [[[| |d1 n1] sv1]| |],
      (matchLoop fuel (Segments p) (Seperator p) s 0 0 0
                (Some (newMatchDraft true (pmatch p))) sv)
      as [[[| |d2 n2] sv2]| |]; simpl in H; try done.
    + subst sv2. split; [|done]. by rewrite bool_decide_eq_true.
    + subst sv2. split; [|done]. by rewrite bool_decide_eq_true.
    + destruct H as (-> & -> & Hd).
      destruct d1 as [d1|], d2 as [d2|];
        try (exfalso; destruct Hd as [H1 H2];
             first [by specialize (H1 eq_refl)|by specialize (H2 eq_refl)]).
      * destruct (negb (len s =? n2)%nat); (split; [|done]);
          by rewrite bool_decide_eq_true.
      * split; [|done]. by rewrite bool_decide_eq_true.
Qed.

(** ** A match consumes the input *)

Lemma getMatch_runLoop (fuel : nat) (p : Path) (s : string) (capture : bool) :
  getMatch fuel p s capture =
  match runLoop fuel p s capture with
  | Ok (LoopLeft (Some d) sIndex, sv) =>
      if (len s =? sIndex)%nat then Ok (Some (dmatch d), withSave sv p)
      else Ok (None, withSave sv p)
  | Ok (_, sv) => Ok (None, withSave sv p)
  | Panic => Panic
  | OutOfFuel => OutOfFuel
  end.
Proof.
  unfold getMatch, runLoop.
  destruct (matchLoop _ _ _ _ _ _ _ _ _) as [[[| |[d|] n] sv]| |]; try done.
  by destruct (len s =? n)%nat.
Qed.

Lemma getMatch_notConsumed (fuel : nat) (p : Path) (s : string)
    (capture : bool) (e : LoopEnd) (sv : savePoint) :
  runLoop fuel p s capture = Ok (e, sv) -> notConsumed s e ->
  getMatch fuel p s capture = Ok (None, withSave sv p).
Proof.
  intros Hrun Hnot. rewrite getMatch_runLoop, Hrun.
  destruct e as [| |[d|] n]; try done. simpl in Hnot.
  destruct (Nat.eqb_spec (len s) n); [congruence|done].
Qed.

(** ** A match of a fresh path splits the whole input into pieces *)

Lemma eachThen_snoc (sep : string) (ps : list string) (piece : string) :
  eachThen sep (ps ++ [piece]) = eachThen sep ps +:+ piece +:+ sep.
Proof.
  induction ps as [|x ps IH]; simpl.
  - by rewrite app_empty_r.
  - by rewrite IH, !app_assoc_s.
Qed.

Lemma concat_snoc (sep : string) (ps : list string) (piece : string) :
  String.concat sep (ps ++ [piece]) = eachThen sep ps +:+ piece.
Proof.
  induction ps as [|x ps IH]; [done|].
  rewrite <- app_comm_cons. cbn [eachThen foldr]. fold (eachThen sep ps).
  rewrite !app_assoc_s, <- IH.
  destruct (ps ++ [piece]) eqn:E; [by destruct ps|done].
Qed.

Lemma separatorFree_snoc (sep : string) (segs : list Segment)
    (ps : list string) (piece : string) :
  separatorFree sep segs ps ->
  (forall seg, segs !! length ps = Some seg -> Multiple seg = false ->
               Index piece sep = None) ->
  separatorFree sep segs (ps ++ [piece]).
Proof.
  intros Hps Hpiece i seg x Hseg Hx Hm.
  apply lookup_app_Some in Hx as [Hx|[Hlen Hx]]; [by eapply Hps|].
  apply list_lookup_singleton_Some in Hx as [Hi <-].
  apply (Hpiece seg); [|done]. by replace (length ps) with i by lia.
Qed.

(** Passing a piece that is followed by a separator moves the cursor
    past both. *)
Lemma cursorAt_step (sep s : string) (segs : list Segment)
    (ps : list string) (sIndex : nat) (str : string) :
  cursorAt sep s segs ps sIndex ->
  HasPrefix (dropS sIndex s) (str +:+ sep) = true ->
  (forall seg, segs !! length ps = Some seg -> Multiple seg = false ->
               Index str sep = None) ->
  cursorAt sep s segs (ps ++ [str]) (sIndex + (len str + len sep)).
Proof.
  intros (Htake & Hle & Hfree) Hp Hstr. split_and!.
  - rewrite takeS_add, Htake, eachThen_snoc. f_equal.
    rewrite (HasPrefix_split _ _ Hp) at 1. rewrite <- len_app.
    by rewrite takeS_app.
  - apply HasPrefix_len in Hp. rewrite len_dropS, len_app in Hp. lia.
  - by apply separatorFree_snoc.
Qed.

(** The piece [sliceSegment] cuts at the cursor: up to the end of the
    input, or up to a separator; from offset zero it holds no
    separator. *)
Lemma sliceSegment_inv (s sep : string) (sIndex searchStart : nat) :
  sep <> "" -> (sIndex <= len s)%nat ->
  (searchStart = 0%nat \/
   exists w, searchStart = (len w + len sep)%nat /\
             HasPrefix (dropS sIndex s) (w +:+ sep) = true) ->
  exists (str : string) (fin : bool),
    sliceSegment s sep sIndex searchStart = Some (str, fin) /\
    (searchStart = 0%nat -> Index str sep = None) /\
    if fin then str = dropS sIndex s
    else HasPrefix (dropS sIndex s) (str +:+ sep) = true.
Proof.
  intros Hsep Hle Hstart. unfold sliceSegment, sliceFrom.
  rewrite (proj2 (Nat.leb_le _ _) Hle).
  set (str0 := dropS sIndex s).
  assert (Hss : (searchStart <= len str0)%nat).
  { destruct Hstart as [->|(w & -> & Hp)]; [lia|].
    apply HasPrefix_len in Hp. by rewrite len_app in Hp. }
  rewrite (proj2 (Nat.leb_le _ _) Hss).
  destruct (Index (dropS searchStart str0) sep) as [k|] eqn:Hk.
  - exists (takeS (k + searchStart) str0), false. split; [done|].
    pose proof Hk as [Hocc _]%Index_Some.
    rewrite <- dropS_add, (Nat.add_comm searchStart k) in Hocc.
    split.
    + intros ->. rewrite Nat.add_0_r. rewrite dropS_0 in Hk.
      by apply Index_takeS.
    + by apply HasPrefix_piece.
  - exists str0, true. split; [done|]. split; [|done].
    intros ->. by rewrite dropS_0 in Hk.
Qed.

Lemma saveOK_start (segs : list Segment) (sep s : string)
    (i sIndex searchStart : nat) (sv : savePoint) :
  saveOK segs sep s i sIndex searchStart sv ->
  searchStart = 0%nat \/
  exists w, searchStart = (len w + len sep)%nat /\
            HasPrefix (dropS sIndex s) (w +:+ sep) = true.
Proof.
  unfold saveOK. destruct (sp_valid sv); [|by left].
  intros [(ps0 & w & seg0 & _ & _ & _ & _ & Hss & Hp)
          [[_ ->]|(_ & -> & ->)]]; [by left|].
  right. by exists w.
Qed.

Lemma saveOK_not_multiple (segs : list Segment) (sep s : string)
    (i sIndex searchStart : nat) (sv : savePoint) (seg : Segment) :
  saveOK segs sep s i sIndex searchStart sv ->
  segs !! i = Some seg -> Multiple seg = false -> searchStart = 0%nat.
Proof.
  unfold saveOK. destruct (sp_valid sv); [|done].
  intros [(ps0 & w & seg0 & _ & _ & Hs0 & Hm0 & _)
          [[_ ->]|(Heq & _ & _)]] Hseg Hm; [done|].
  rewrite Heq, Hseg in Hs0. injection Hs0 as <-. congruence.
Qed.

Lemma saveOK_next (segs : list Segment) (sep s : string)
    (i sIndex searchStart sIndex' : nat) (sv : savePoint) :
  saveOK segs sep s i sIndex searchStart sv ->
  saveOK segs sep s (S i) sIndex' 0 sv.
Proof.
  unfold saveOK. destruct (sp_valid sv); [|done].
  intros [Hex Hpos]. split; [done|]. left. split; [|done].
  destruct Hpos as [[? _]|(-> & _)]; lia.
Qed.

(** A run from a state that a fresh run can reach, when it ends with a
    draft and the cursor at the end of the input, has split the input
    into one piece per segment. *)
Lemma matchLoop_decompose (segs : list Segment) (sep s : string) :
  sep <> "" ->
  forall (fuel i sIndex searchStart : nat) (d : matchDraft) (sv : savePoint)
         (d' : matchDraft) (sv' : savePoint) (ps : list string),
  (i < length segs)%nat -> length ps = i ->
  cursorAt sep s segs ps sIndex ->
  saveOK segs sep s i sIndex searchStart sv ->
  matchLoop fuel segs sep s i sIndex searchStart (Some d) sv
  = Ok (LoopLeft (Some d') (len s), sv') ->
  exists pieces : list string,
    length pieces = length segs /\ s = String.concat sep pieces /\
    separatorFree sep segs pieces.
Proof.
  intros Hsep. induction fuel as [|fuel IH];
    intros i sIndex searchStart d sv d' sv' ps Hi Hlen Hcur Hsave Hrun;
    [done|].
  simpl in Hrun.
  destruct (lookup_lt_is_Some_2 segs i Hi) as [seg Hseg].
  rewrite Hseg in Hrun.
  pose proof (saveOK_start _ _ _ _ _ _ _ Hsave) as Hstart.
  pose proof Hcur as (Htake & Hle & Hfree).
  destruct (sliceSegment_inv s sep sIndex searchStart Hsep Hle Hstart)
    as (str & fin & Hslice & Hnosep & Hfin).
  rewrite Hslice in Hrun.
  destruct (decide (length segs - 1 = i)%nat) as [HL|HL].
  - (* the last segment *)
    rewrite (bool_decide_eq_true_2 _ HL) in Hrun.
    rewrite andb_false_r, andb_true_r in Hrun. simpl in Hrun.
    assert (Hall : forall piece : string,
              piece = dropS sIndex s ->
              (Multiple seg = false -> Index piece sep = None) ->
              exists pieces : list string,
                length pieces = length segs /\ s = String.concat sep pieces /\
                separatorFree sep segs pieces).
    { intros piece -> Hpiece. exists (ps ++ [dropS sIndex s]). split_and!.
      - rewrite length_app. simpl. lia.
      - rewrite concat_snoc, <- Htake. by rewrite takeS_dropS.
      - apply separatorFree_snoc; [done|]. intros seg0 Hs0 Hm0.
        rewrite Hlen, Hseg in Hs0. injection Hs0 as <-. by apply Hpiece. }
    destruct (Multiple seg) eqn:Hm.
    + by apply (Hall (dropS sIndex s)).
    + assert (searchStart = 0%nat) as ->
        by (by eapply saveOK_not_multiple).
      destruct (segMatch seg d str) as [[ok d1]| |]; try done.
      destruct (negb ok && sp_valid sv) eqn:Hback.
      * (* back to the save point *)
        apply andb_true_iff in Hback as [_ Hv].
        pose proof Hsave as Hsave'. unfold saveOK in Hsave'.
        rewrite Hv in Hsave'.
        destruct Hsave' as [(ps0 & w & seg0 & Hl0 & Hc0 & Hs0 & Hm0 & Hss & Hp) _].
        apply (IH (sp_i sv) (sp_sIndex sv) (sp_searchStart sv) d1 sv d' sv'
                  ps0 (lookup_lt_Some _ _ _ Hs0) Hl0 Hc0); [|exact Hrun].
        unfold saveOK. rewrite Hv. split; [by exists ps0, w, seg0|].
        right. done.
      * destruct fin; simpl in Hrun; [|done].
        destruct ok; (destruct fuel as [|fuel']; [done|]); simpl in Hrun;
          [|done].
        rewrite (lookup_ge_None_2 segs (S i)) in Hrun by lia.
        apply (Hall str); [done|]. intros _. by apply Hnosep.
  - (* a segment before the last *)
    rewrite (bool_decide_eq_false_2 _ HL) in Hrun.
    rewrite andb_true_r, andb_false_r in Hrun. simpl in Hrun.
    destruct fin; [done|]. simpl in Hrun.
    destruct (Multiple seg) eqn:Hm.
    + (* a wildcard: the save point is set here *)
      destruct seg as [v|k e|key|ks st]; try done. simpl in Hrun.
      match type of Hrun with
      | matchLoop _ _ _ _ _ _ _ _ ?sv1 = _ =>
          assert (Hsv1 : sv1 = mkSavePoint i sIndex (len str + len sep) true)
      end.
      { destruct (sp_valid sv && (sp_i sv =? i)%nat) eqn:Hv; [|done].
        apply andb_true_iff in Hv as [Hv Hi'%Nat.eqb_eq].
        unfold saveOK in Hsave. rewrite Hv in Hsave.
        destruct Hsave as [_ [[? _]|(_ & -> & _)]]; [lia|].
        by rewrite Hi', Hv. }
      rewrite Hsv1 in Hrun.
      apply (IH _ _ _ _ _ _ _ (ps ++ [str])) in Hrun; [done|lia| | |].
      * rewrite length_app. simpl. lia.
      * apply cursorAt_step; [done|done|].
        intros seg0 Hs0 Hm0. rewrite Hlen, Hseg in Hs0. by injection Hs0 as <-.
      * unfold saveOK. simpl. split; [|left; split; [lia|done]].
        exists ps, str, (wildcardSegment key). split_and!; done.
    + assert (searchStart = 0%nat) as ->
        by (by eapply saveOK_not_multiple).
      destruct (segMatch seg d str) as [[ok d1]| |]; try done.
      destruct (negb ok && sp_valid sv) eqn:Hback.
      * apply andb_true_iff in Hback as [_ Hv].
        pose proof Hsave as Hsave'. unfold saveOK in Hsave'.
        rewrite Hv in Hsave'.
        destruct Hsave' as [(ps0 & w & seg0 & Hl0 & Hc0 & Hs0 & Hm0 & Hss & Hp) _].
        apply (IH (sp_i sv) (sp_sIndex sv) (sp_searchStart sv) d1 sv d' sv'
                  ps0 (lookup_lt_Some _ _ _ Hs0) Hl0 Hc0); [|exact Hrun].
        unfold saveOK. rewrite Hv. split; [by exists ps0, w, seg0|].
        right. done.
      * destruct ok; [|by destruct fuel].
        apply (IH _ _ _ _ _ _ _ (ps ++ [str])) in Hrun; [done|lia| | |].
        -- rewrite length_app. simpl. lia.
        -- apply cursorAt_step; [done|done|]. intros _ _ _. by apply Hnosep.
        -- by eapply saveOK_next.
Qed.

Lemma getMatch_Some (fuel : nat) (p : Path) (s : string) (capture : bool)
    (m : Match) (p' : Path) :
  getMatch fuel p s capture = Ok (Some m, p') ->
  exists d sv, runLoop fuel p s capture = Ok (LoopLeft (Some d) (len s), sv).
Proof.
  rewrite getMatch_runLoop.
  destruct (runLoop fuel p s capture) as [[[| |[d|] n] sv]| |]; try done.
  destruct (Nat.eqb_spec (len s) n) as [<-|]; [|done]. eauto.
Qed.

Lemma getMatch_decompose (fuel : nat) (p : Path) (s : string)
    (capture : bool) (m : Match) (p' : Path) :
  Seperator p <> "" -> sp_valid (save p) = false ->
  getMatch fuel p s capture = Ok (Some m, p') ->
  exists pieces : list string,
    length pieces = length (Segments p) /\
    s = String.concat (Seperator p) pieces /\
    separatorFree (Seperator p) (Segments p) pieces.
Proof.
  intros Hsep Hfresh (d & sv & Hrun)%getMatch_Some. unfold runLoop in Hrun.
  destruct (Segments p) as [|seg segs] eqn:Hsegs.
  - destruct fuel as [|fuel]; [done|]. simpl in Hrun.
    assert (Hlen : len s = 0%nat) by congruence.
    exists []. split_and!; [done|by destruct s|done].
  - rewrite <- Hsegs in *.
    apply (matchLoop_decompose _ _ _ Hsep _ _ _ _ _ _ _ _ []) in Hrun;
      [done|rewrite Hsegs; simpl; lia|done| |].
    + split_and!; [by rewrite takeS_0|lia|done].
    + unfold saveOK. by rewrite Hfresh.
Qed.

Lemma applyOptions_save (options : list Option) :
  forall q q' : Path, applyOptions options q = inl q' -> save q' = save q.
Proof.
  induction options as [|o rest IH]; intros q q'; simpl.
  - by intros [= <-].
  - destruct (applyOption o q) as [q1|e] eqn:Ho; [|done].
    intros Hr%IH. apply applyOption_keeps in Ho as (_ & _ & Hs & _).
    congruence.
Qed.

Lemma Compile_fresh (pattern : string) (options : list Option) (p : Path) :
  Compile pattern options = Ok (inl p) -> sp_valid (save p) = false.
Proof.
  intros (p0 & segs & Hopt & _ & ->)%Compile_Ok. simpl.
  by rewrite (applyOptions_save _ _ _ Hopt).
Qed.

(** C6.  A match needs the whole input.  In whatever state the path
    is: when the loop of [getMatch] ends by the return for an input
    exhausted before the last segment, by the return for input left
    after the last segment, or with the cursor short of the end of the
    input, [getMatch] returns [nil], [Match] returns [false] and
    [FindSubmatch] returns [nil]; and a map is returned only when the
    loop ends with the cursor at the end of the input.  For a path as
    [Compile] returns it, with a separator that is not empty, a map is
    returned only when the input is the pieces of the segments joined by
    the separator, one piece per segment, with no separator inside the
    pieces of the segments that are not wildcards. *)
Theorem match_consumes_input :
  (forall (fuel : nat) (p : Path) (s : string) (capture : bool)
          (e : LoopEnd) (sv : savePoint),
     runLoop fuel p s capture = Ok (e, sv) -> notConsumed s e ->
     getMatch fuel p s capture = Ok (None, withSave sv p)) /\
  (forall (fuel : nat) (p : Path) (s : string) (e : LoopEnd) (sv : savePoint),
     runLoop fuel p s (pequalCheck p) = Ok (e, sv) -> notConsumed s e ->
     PathMatch fuel p s = Ok (false, withSave sv p)) /\
  (forall (fuel : nat) (p : Path) (s : string) (e : LoopEnd) (sv : savePoint),
     runLoop fuel p s true = Ok (e, sv) -> notConsumed s e ->
     FindSubmatch fuel p s = Ok (None, withSave sv p)) /\
  (forall (fuel : nat) (p : Path) (s : string) (capture : bool)
          (m : Match) (p' : Path),
     getMatch fuel p s capture = Ok (Some m, p') ->
     exists d sv,
       runLoop fuel p s capture = Ok (LoopLeft (Some d) (len s), sv)) /\
  (forall (pattern : string) (options : list Option) (p : Path)
          (fuel : nat) (s : string) (capture : bool) (m : Match) (p' : Path),
     Compile pattern options = Ok (inl p) -> Seperator p <> "" ->
     getMatch fuel p s capture = Ok (Some m, p') ->
     exists pieces : list string,
       length pieces = length (Segments p) /\
       s = String.concat (Seperator p) pieces /\
       separatorFree (Seperator p) (Segments p) pieces).
Proof.
  split_and!.
  - intros. by eapply getMatch_notConsumed.
  - intros fuel p s e sv Hrun Hnot. unfold PathMatch. simpl.
    by rewrite (getMatch_notConsumed _ _ _ _ _ _ Hrun Hnot).
  - intros. by eapply getMatch_notConsumed.
  - intros. by eapply getMatch_Some.
  - intros pattern options p fuel s capture m p' Hc Hsep Hm.
    eapply getMatch_decompose; [done| |done]. by eapply Compile_fresh.
Qed.

(** ** The errors of Compile *)

Lemma exceptFind_zero (t : string) (e : nat) :
  exceptFindStringIndex t = Some (0%nat, e) -> e = run t /\ run t <> 0%nat.
Proof.
  destruct t as [|c t]; [done|]. cbn [exceptFindStringIndex].
  destruct (special c) eqn:Hc.
  - destruct (exceptFindStringIndex t) as [[a b]|]; simpl; done.
  - intros [= <-]. split; [done|]. cbn [run]. by rewrite Hc.
Qed.

Lemma exceptFind_nonzero (t : string) :
  (forall e, exceptFindStringIndex t <> Some (0%nat, e)) -> run t = 0%nat.
Proof.
  destruct t as [|c t]; [done|]. cbn [exceptFindStringIndex run].
  destruct (special c) eqn:Hc; [done|]. intros H.
  exfalso. by eapply H.
Qed.

Lemma prefixAt_next (p : Path) (piece : string) (keyStart j : nat) :
  Index (dropS keyStart piece) (Prefix p) = Some j ->
  prefixAt p piece (j + keyStart).
Proof.
  intros [H _]%Index_Some. unfold prefixAt.
  by rewrite Nat.add_comm, dropS_add.
Qed.

(** An error of the scan is one of the two situations of a single
    key. *)
Lemma scanKeys_error (p : Path) (piece : string) (fuel : nat) :
  forall (iPrefix : nat) (keys : list string) (keyLocs : list (nat * nat))
         (e : error),
  prefixAt p piece iPrefix ->
  scanKeys fuel (Prefix p) (Suffix p) piece iPrefix keys keyLocs
  = Ok (inr e) ->
  (unterminatedSuffix p piece /\ e = errSuffixNotFound piece (Suffix p)) \/
  (namelessPrefix p piece /\ e = errNoName piece (Suffix p)).
Proof.
  induction fuel as [|fuel IH]; intros iPrefix keys keyLocs e Hp; [done|].
  simpl. destruct (String.eqb_spec (Suffix p) "") as [Hs|Hs]; simpl.
  - destruct (exceptFindStringIndex (dropS (iPrefix + len (Prefix p)) piece))
      as [[[|a] b]|] eqn:Hf.
    + destruct (slice piece _ _) as [key|]; [|done].
      destruct (Index (dropS (iPrefix + len (Prefix p)) piece) (Prefix p))
        as [j|] eqn:Hj; [|done].
      apply IH. by apply prefixAt_next.
    + intros [= <-]. right. split; [|done]. split; [done|].
      exists iPrefix. split; [done|]. apply exceptFind_nonzero.
      intros e. by rewrite Hf.
    + intros [= <-]. right. split; [|done]. split; [done|].
      exists iPrefix. split; [done|]. apply exceptFind_nonzero.
      intros e. by rewrite Hf.
  - destruct (Index (dropS iPrefix piece) (Suffix p)) as [iSuffix|] eqn:Hi.
    + destruct (slice piece _ _) as [key|]; [|done].
      destruct (Index (dropS (iPrefix + len (Prefix p)) piece) (Prefix p))
        as [j|] eqn:Hj; [|done].
      apply IH. by apply prefixAt_next.
    + intros [= <-]. left. split; [|done]. split; [done|]. by exists iPrefix.
Qed.

(** The locations the scan returns are those of keys of the piece. *)
Lemma scanKeys_locs (p : Path) (piece : string) (fuel : nat) :
  forall (iPrefix : nat) (keys : list string) (keyLocs : list (nat * nat))
         (keys' : list string) (keyLocs' : list (nat * nat)),
  prefixAt p piece iPrefix -> Forall (locOK p piece) keyLocs ->
  length keys = length keyLocs ->
  scanKeys fuel (Prefix p) (Suffix p) piece iPrefix keys keyLocs
  = Ok (inl (keys', keyLocs')) ->
  Forall (locOK p piece) keyLocs' /\ length keys' = length keyLocs'.
Proof.
  induction fuel as [|fuel IH];
    intros iPrefix keys keyLocs keys' keyLocs' Hp Hlocs Hlen; [done|].
  simpl.
  assert (Hstep : forall (key : string) (b : nat),
            keyEndOf p piece iPrefix = Some b ->
            Forall (locOK p piece) (keyLocs ++ [(iPrefix, b)]) /\
            length (keys ++ [key]) = length (keyLocs ++ [(iPrefix, b)])).
  { intros key b Hb. split.
    - apply Forall_app. split; [done|]. by apply Forall_singleton.
    - rewrite !length_app. simpl. lia. }
  unfold keyEndOf in Hstep.
  destruct (String.eqb_spec (Suffix p) "") as [Hs|Hs]; simpl.
  - destruct (exceptFindStringIndex (dropS (iPrefix + len (Prefix p)) piece))
      as [[[|a] b]|] eqn:Hf; try done.
    apply exceptFind_zero in Hf as [-> _].
    destruct (slice piece _ _) as [key|]; [|done].
    destruct (Hstep key _ eq_refl) as [H1 H2].
    destruct (Index (dropS (iPrefix + len (Prefix p)) piece) (Prefix p))
      as [j|] eqn:Hj.
    + apply IH; [by apply prefixAt_next|done|done].
    + by intros [= <- <-].
  - destruct (Index (dropS iPrefix piece) (Suffix p)) as [iSuffix|] eqn:Hi;
      [|done].
    destruct (slice piece _ _) as [key|]; [|done].
    destruct (Hstep key _ eq_refl) as [H1 H2].
    destruct (Index (dropS (iPrefix + len (Prefix p)) piece) (Prefix p))
      as [j|] eqn:Hj.
    + apply IH; [by apply prefixAt_next|done|done].
    + by intros [= <- <-].
Qed.

Lemma slice_empty (s : string) (a b : nat) :
  slice s a b = Some "" -> a = b.
Proof.
  unfold slice. destruct (a <=? b)%nat eqn:Hab; [|done].
  destruct (b <=? len s)%nat eqn:Hb; [|done]. simpl.
  apply Nat.leb_le in Hab, Hb. intros [= H].
  apply (f_equal len) in H. rewrite len_takeS, len_dropS in H.
  simpl in H. lia.
Qed.

(** An error of [newMixedSegment] comes from two locations of which the
    first ends where the second starts. *)
Lemma mixedStatics_error (s : string) (locs : list (nat * nat))
    (keys : list string) :
  forall (i start : nat) (static : list string) (e : error),
  (i <> 0%nat -> exists a0, locs !! (i - 1)%nat = Some (a0, start)) ->
  mixedStatics s keys locs i start static = Ok (inr e) ->
  e = errNoCharacter /\
  exists k a b c, locs !! k = Some (a, b) /\ locs !! S k = Some (b, c).
Proof.
  induction keys as [|key rest IH]; intros i start static e Hprev; [done|].
  simpl. destruct (locs !! i) as [[a b]|] eqn:Hi; [|done].
  destruct (slice s start a) as [lit|] eqn:Hlit; [|done].
  destruct (negb (i =? 0)%nat && String.eqb lit "") eqn:Hc.
  - intros [= <-]. split; [done|].
    apply andb_true_iff in Hc as [Hi0 Hl].
    apply negb_true_iff, Nat.eqb_neq in Hi0. apply String.eqb_eq in Hl.
    subst lit. apply slice_empty in Hlit as ->.
    destruct (Hprev Hi0) as [a0 Ha0]. exists (i - 1)%nat, a0, a, b.
    split; [done|]. by replace (S (i - 1)) with i by lia.
  - apply IH. intros _. exists a. by replace (S i - 1)%nat with i by lia.
Qed.

Lemma newMixedSegment_error (s : string) (keys : list string)
    (locs : list (nat * nat)) (e : error) :
  newMixedSegment s keys locs = Ok (inr e) ->
  e = errNoCharacter /\
  exists k a b c, locs !! k = Some (a, b) /\ locs !! S k = Some (b, c).
Proof.
  unfold newMixedSegment.
  destruct (mixedStatics s keys locs 0 0 []) as [[static|e']| |] eqn:Hm;
    try done.
  - destruct (last locs) as [[a lastLoc]|]; [|done].
    by destruct (sliceFrom s lastLoc).
  - intros [= <-]. by eapply mixedStatics_error.
Qed.

Lemma compileSegment_error (p : Path) (unnamed : nat) (piece : string)
    (e : error) :
  compileSegment p unnamed piece = Ok (inr e) ->
  piece <> Wildcard p /\
  ((unterminatedSuffix p piece /\ e = errSuffixNotFound piece (Suffix p)) \/
   (namelessPrefix p piece /\ e = errNoName piece (Suffix p)) \/
   (adjacentKeys p piece /\ e = errNoCharacter)).
Proof.
  unfold compileSegment.
  destruct (String.eqb_spec piece (Wildcard p)) as [|Hw]; [done|].
  intros H. split; [done|].
  destruct (Index piece (Prefix p)) as [iPrefix|] eqn:Hi; [|done].
  assert (Hp : prefixAt p piece iPrefix) by (by apply Index_Some in Hi as [? _]).
  destruct (scanKeys _ _ _ _ _ _ _) as [[[keys keyLocs]|e']| |] eqn:Hscan;
    try done.
  - apply scanKeys_locs in Hscan as [Hlocs _]; [|done|done|done].
    match type of H with context [match ?x with Some _ => _ | None => _ end] =>
      destruct x as [key|] end; [done|].
    destruct (newMixedSegment piece keys keyLocs) as [[mixed|e']| |] eqn:Hm;
      try done.
    injection H as <-.
    apply newMixedSegment_error in Hm as (-> & k & a & b & c & Hk & Hk').
    right. right. split; [|done].
    destruct (Forall_lookup_1 _ _ _ _ Hlocs Hk) as [Ha Hab].
    destruct (Forall_lookup_1 _ _ _ _ Hlocs Hk') as [Hb _].
    by exists a, b.
  - injection H as <-.
    apply scanKeys_error in Hscan as [?|?]; [by left|by right; left|done].
Qed.

Lemma compileSegments_error (p : Path) (pieces : list string) :
  forall (unnamed : nat) (segs : list Segment) (e : error),
  compileSegments p unnamed pieces segs = Ok (inr e) ->
  exists (piece : string) (unnamed' : nat),
    piece ∈ pieces /\ compileSegment p unnamed' piece = Ok (inr e).
Proof.
  induction pieces as [|piece rest IH]; intros unnamed segs e; simpl; [done|].
  destruct (compileSegment p unnamed piece) as [[[seg unnamed']|e']| |] eqn:Hc;
    try done.
  - intros (piece' & u & Hin & H)%IH. exists piece', u.
    split; [by apply elem_of_cons; right|done].
  - intros [= <-]. exists piece, unnamed. split; [apply elem_of_cons; by left|done].
Qed.

Lemma applyOptions_error (options : list Option) :
  forall (q : Path) (e : error),
  applyOptions options q = inr e ->
  e = errEmptyPrefix /\ SetPrefix "" ∈ options.
Proof.
  induction options as [|o rest IH]; intros q e; simpl; [done|].
  destruct (applyOption o q) as [q1|e'] eqn:Ho.
  - intros [-> Hin]%IH. split; [done|]. by apply elem_of_cons; right.
  - intros [= <-]. destruct o as [sep|w|pre|suf|b]; simpl in Ho; try done.
    destruct (String.eqb_spec pre "") as [->|]; [|done].
    injection Ho as <-. split; [done|]. apply elem_of_cons. by left.
Qed.

(** Every error of [Compile] is one of four: a rejected option, and the
    three situations of a piece. *)
Lemma Compile_error (pattern : string) (options : list Option) (e : error) :
  Compile pattern options = Ok (inr e) ->
  (e = errEmptyPrefix /\ SetPrefix "" ∈ options) \/
  exists (p : Path) (piece : string),
    applyOptions options (initialPath pattern) = inl p /\
    piece ∈ Split pattern (Seperator p) /\ piece <> Wildcard p /\
    ((unterminatedSuffix p piece /\ e = errSuffixNotFound piece (Suffix p)) \/
     (namelessPrefix p piece /\ e = errNoName piece (Suffix p)) \/
     (adjacentKeys p piece /\ e = errNoCharacter)).
Proof.
  unfold Compile. fold (initialPath pattern).
  destruct (applyOptions options (initialPath pattern)) as [p|e'] eqn:Ho.
  - destruct (compileSegments _ _ _ _) as [[segs|e']| |] eqn:Hc; try done.
    intros [= <-]. right.
    apply compileSegments_error in Hc as (piece & u & Hin & Hc).
    apply compileSegment_error in Hc as [Hw Hc]. by exists p, piece.
  - intros [= <-]. left. by eapply applyOptions_error.
Qed.

(** ** With the default options Compile returns *)

Lemma run_bound (t : string) : (run t <= len t)%nat.
Proof.
  induction t as [|c t IH]; simpl; [done|]. destruct (special c); lia.
Qed.

Lemma run_no_prefix (t : string) :
  forall j : nat, (j < run t)%nat -> HasPrefix (dropS j t) ":" = false.
Proof.
  induction t as [|c t IH]; intros j; cbn [run]; [lia|].
  destruct (special c) eqn:Hc; [lia|]. intros Hj.
  destruct j as [|j]; cbn [dropS HasPrefix].
  - destruct (Ascii.eqb_spec ":" c) as [<-|]; [by vm_compute in Hc|done].
  - apply IH. lia.
Qed.

Lemma Index_ge_run (t : string) (j : nat) :
  Index t ":" = Some j -> (run t <= j)%nat.
Proof.
  intros [H _]%Index_Some. destruct (decide (run t <= j)%nat); [done|].
  rewrite run_no_prefix in H by lia. done.
Qed.

Lemma chain_le (locs : list (nat * nat)) :
  forall start bound : nat, chain start locs bound -> (start <= bound)%nat.
Proof.
  induction locs as [|[a b] rest IH]; intros start bound; simpl; [done|].
  intros (? & ? & H%IH). lia.
Qed.

Lemma chain_snoc (locs : list (nat * nat)) (a b bound : nat) :
  forall start : nat,
  chain start locs a -> (a < b)%nat -> (b <= bound)%nat ->
  chain start (locs ++ [(a, b)]) bound.
Proof.
  induction locs as [|[x y] rest IH]; intros start; simpl.
  - done.
  - intros (? & ? & H) Hab Hb. split_and!; try done. by apply IH.
Qed.

Lemma chain_elem (locs : list (nat * nat)) (x y : nat) :
  forall start bound : nat,
  chain start locs bound -> (x, y) ∈ locs ->
  (start <= x)%nat /\ (x < y)%nat /\ (y <= bound)%nat.
Proof.
  induction locs as [|[a b] rest IH]; intros start bound; simpl.
  - intros _ H. by apply elem_of_nil in H.
  - intros (Hsa & Hab & Hch) [[= -> ->]|Hin]%elem_of_cons.
    + pose proof (chain_le _ _ _ Hch). lia.
    + destruct (IH _ _ Hch Hin) as (? & ? & ?). lia.
Qed.

(** In an ordered list of locations, a location that ends where another
    one starts is followed by that one. *)
Lemma chain_adjacent (locs : list (nat * nat)) (i j d : nat) :
  forall start bound : nat,
  chain start locs bound -> (i, j) ∈ locs -> (j, d) ∈ locs ->
  exists k : nat, locs !! k = Some (i, j) /\ locs !! S k = Some (j, d).
Proof.
  induction locs as [|[a b] rest IH]; intros start bound; simpl.
  - intros _ H. by apply elem_of_nil in H.
  - intros (Hsa & Hab & Hch) Hij Hjd.
    apply elem_of_cons in Hij as [[= -> ->]|Hij].
    + apply elem_of_cons in Hjd as [[= ? ?]|Hjd]; [lia|].
      destruct rest as [|[c e] rest']; [by apply elem_of_nil in Hjd|].
      simpl in Hch. destruct Hch as (Hbc & Hce & Hch).
      apply elem_of_cons in Hjd as [[= -> ->]|Hjd].
      * by exists 0%nat.
      * destruct (chain_elem _ _ _ _ _ Hch Hjd) as (? & ? & ?). lia.
    + destruct (chain_elem _ _ _ _ _ Hch Hij) as (? & ? & ?).
      apply elem_of_cons in Hjd as [[= ? ?]|Hjd]; [lia|].
      destruct (IH _ _ Hch Hij Hjd) as (k & Hk & Hk'). by exists (S k).
Qed.

Lemma chain_last (locs : list (nat * nat)) (a b : nat) :
  forall start bound : nat,
  chain start locs bound -> last locs = Some (a, b) -> (b <= bound)%nat.
Proof.
  induction locs as [|[x y] rest IH]; intros start bound; [done|].
  simpl. intros (? & ? & H). destruct rest as [|l rest].
  - intros [= -> ->]. by simpl in H.
  - intros Hl. by eapply IH.
Qed.

Lemma slice_in_range (s : string) (a b : nat) :
  (a <= b)%nat -> (b <= len s)%nat -> is_Some (slice s a b).
Proof.
  intros Hab Hb. unfold slice.
  rewrite (proj2 (Nat.leb_le _ _) Hab), (proj2 (Nat.leb_le _ _) Hb). eauto.
Qed.

Lemma scanKeys_default (piece : string) (fuel : nat) :
  forall (iPrefix : nat) (keys : list string) (keyLocs : list (nat * nat)),
  (len piece - iPrefix < fuel)%nat ->
  HasPrefix (dropS iPrefix piece) ":" = true ->
  chain 0 keyLocs iPrefix -> length keys = length keyLocs ->
  match scanKeys fuel ":" "" piece iPrefix keys keyLocs with
  | Ok (inl (keys', keyLocs')) =>
      length keys' = length keyLocs' /\ keyLocs' <> [] /\
      chain 0 keyLocs' (len piece)
  | Ok (inr _) => True
  | Panic | OutOfFuel => False
  end.
Proof.
  induction fuel as [|fuel IH]; intros iPrefix keys keyLocs Hf Hp Hch Hlen;
    [lia|].
  cbn [scanKeys]. simpl String.eqb. cbn [negb].
  assert (Hk : (iPrefix + 1 <= len piece)%nat).
  { apply HasPrefix_len in Hp. rewrite len_dropS in Hp. simpl in Hp. lia. }
  change (len ":") with 1%nat.
  destruct (exceptFindStringIndex (dropS (iPrefix + 1) piece))
    as [[[|a] e]|] eqn:Hfind; try done.
  apply exceptFind_zero in Hfind as [-> _].
  pose proof (run_bound (dropS (iPrefix + 1) piece)) as Hrun.
  rewrite len_dropS in Hrun.
  destruct (slice_in_range piece (iPrefix + 1)
              (iPrefix + 1 + run (dropS (iPrefix + 1) piece)))
    as [key ->]; [lia|lia|].
  destruct (Index (dropS (iPrefix + 1) piece) ":") as [j|] eqn:Hj.
  - pose proof (Index_ge_run _ _ Hj) as Hge.
    pose proof (Index_bound _ _ _ Hj) as Hjb.
    rewrite len_dropS in Hjb. simpl in Hjb.
    apply IH.
    + lia.
    + apply Index_Some in Hj as [Hj _].
      by rewrite Nat.add_comm, dropS_add.
    + apply chain_snoc; [done|lia|lia].
    + rewrite !length_app. simpl. lia.
  - split_and!.
    + rewrite !length_app. simpl. lia.
    + by destruct keyLocs.
    + apply chain_snoc; [done|lia|lia].
Qed.

Lemma mixedStatics_default (s : string) (locs : list (nat * nat))
    (keys : list string) :
  forall (i start : nat) (static : list string),
  chain start (drop i locs) (len s) ->
  length keys = length (drop i locs) ->
  exists r, mixedStatics s keys locs i start static = Ok r.
Proof.
  induction keys as [|key rest IH]; intros i start static Hch Hlen; simpl.
  - eauto.
  - assert (Hi : (i < length locs)%nat).
    { rewrite length_drop in Hlen. simpl in Hlen. lia. }
    apply lookup_lt_is_Some in Hi as [[a b] Hi]. rewrite Hi.
    rewrite (drop_S _ _ _ Hi) in Hch, Hlen. simpl in Hch, Hlen.
    destruct Hch as (Hsa & Hab & Hch). pose proof (chain_le _ _ _ Hch).
    destruct (slice_in_range s start a) as [lit ->]; [lia|lia|].
    destruct (negb (i =? 0)%nat && String.eqb lit ""); [eauto|].
    apply IH; [done|lia].
Qed.

Lemma newMixedSegment_default (s : string) (keys : list string)
    (locs : list (nat * nat)) :
  chain 0 locs (len s) -> length keys = length locs -> locs <> [] ->
  exists r, newMixedSegment s keys locs = Ok r.
Proof.
  intros Hch Hlen Hne. unfold newMixedSegment.
  destruct (mixedStatics_default s locs keys 0 0 []) as [[static|e] ->];
    [done|done| |eauto].
  destruct (last locs) as [[a lastLoc]|] eqn:Hl.
  - pose proof (chain_last _ _ _ _ _ Hch Hl) as Hb. unfold sliceFrom.
    rewrite (proj2 (Nat.leb_le _ _) Hb). eauto.
  - apply last_None in Hl. done.
Qed.

Lemma compileSegment_default (p : Path) (unnamed : nat) (piece : string) :
  Prefix p = ":" -> Suffix p = "" ->
  exists r, compileSegment p unnamed piece = Ok r.
Proof.
  intros Hpre Hsuf. unfold compileSegment. rewrite Hpre, Hsuf.
  destruct (String.eqb piece (Wildcard p)); [eauto|].
  destruct (Index piece ":") as [iPrefix|] eqn:Hi; [|eauto].
  pose proof Hi as [Hp _]%Index_Some.
  pose proof (scanKeys_default piece (S (len piece)) iPrefix [] []) as Hs.
  specialize (Hs ltac:(lia) Hp ltac:(simpl; lia) eq_refl).
  destruct (scanKeys _ _ _ _ _ _ _) as [[[keys keyLocs]|e]| |];
    [ |eauto|done|done].
  destruct Hs as (Hlen & Hne & Hch).
  match goal with |- context [match ?x with Some _ => _ | None => _ end] =>
    destruct x as [key|] end; [eauto|].
  destruct (newMixedSegment_default piece keys keyLocs Hch Hlen Hne)
    as [[mixed|e] ->]; eauto.
Qed.

Lemma compileSegments_default (p : Path) (pieces : list string) :
  Prefix p = ":" -> Suffix p = "" ->
  forall (unnamed : nat) (segs : list Segment),
  exists r, compileSegments p unnamed pieces segs = Ok r.
Proof.
  intros Hpre Hsuf. induction pieces as [|piece rest IH];
    intros unnamed segs; simpl; [eauto|].
  destruct (compileSegment_default p unnamed piece Hpre Hsuf)
    as [[[seg u]|e] ->]; [apply IH|eauto].
Qed.

(** With the default options [Compile] returns: a path or an error. *)
Lemma Compile_default (pattern : string) :
  exists r, Compile pattern [] = Ok r.
Proof.
  unfold Compile. simpl.
  destruct (compileSegments_default
              (mkPath pattern "/" ":" "" "*" [] ∅ (mkSavePoint 0 0 0 false)
                      false)
              (Split pattern "/") eq_refl eq_refl 0%nat [])
    as [[segs|e] ->]; eauto.
Qed.

(** ** With the default options the errors are exactly the situations *)

(** A scan that succeeds has recorded every prefix from its start on,
    each followed by a name. *)
Lemma scanKeys_cover (piece : string) (fuel : nat) :
  forall (iPrefix : nat) (keys : list string) (keyLocs : list (nat * nat))
         (keys' : list string) (keyLocs' : list (nat * nat)),
  scanKeys fuel ":" "" piece iPrefix keys keyLocs
  = Ok (inl (keys', keyLocs')) ->
  exists new : list (nat * nat),
    keyLocs' = keyLocs ++ new /\
    forall i' : nat, (iPrefix <= i')%nat ->
      HasPrefix (dropS i' piece) ":" = true ->
      run (dropS (i' + 1) piece) <> 0%nat /\
      (i', (i' + 1 + run (dropS (i' + 1) piece))%nat) ∈ new.
Proof.
  induction fuel as [|fuel IH]; intros iPrefix keys keyLocs keys' keyLocs';
    [done|].
  cbn [scanKeys]. simpl String.eqb. cbn [negb]. change (len ":") with 1%nat.
  destruct (exceptFindStringIndex (dropS (iPrefix + 1) piece))
    as [[[|a] e]|] eqn:Hfind; try done.
  apply exceptFind_zero in Hfind as [-> Hnz].
  destruct (slice piece _ _) as [key|]; [|done].
  destruct (Index (dropS (iPrefix + 1) piece) ":") as [j|] eqn:Hj.
  - intros (new & -> & Hnew)%IH.
    eexists (_ :: new). split; [by rewrite <- app_assoc|].
    intros i' Hi' Hp. destruct (decide (i' = iPrefix)) as [->|Hne].
    + split; [done|]. apply elem_of_cons. by left.
    + assert (Hge : (j + (iPrefix + 1) <= i')%nat).
      { destruct (decide (j + (iPrefix + 1) <= i')%nat); [done|]. exfalso.
        apply Index_Some in Hj as [_ Hmin].
        specialize (Hmin (i' - (iPrefix + 1))%nat ltac:(lia)).
        rewrite <- dropS_add in Hmin.
        replace (iPrefix + 1 + (i' - (iPrefix + 1)))%nat with i' in Hmin
          by lia.
        congruence. }
      destruct (Hnew i' Hge Hp) as [? ?]. split; [done|].
      apply elem_of_cons. by right.
  - intros [= <- <-]. eexists [_]. split; [done|].
    intros i' Hi' Hp. destruct (decide (i' = iPrefix)) as [->|Hne].
    + split; [done|]. apply elem_of_cons. by left.
    + exfalso. pose proof (Index_None _ _ (i' - (iPrefix + 1))%nat Hj) as Hn.
      rewrite <- dropS_add in Hn.
      replace (iPrefix + 1 + (i' - (iPrefix + 1)))%nat with i' in Hn by lia.
      congruence.
Qed.

Lemma slice_same (s : string) (a : nat) (lit : string) :
  slice s a a = Some lit -> lit = "".
Proof.
  unfold slice. destruct ((a <=? a)%nat && (a <=? len s)%nat); [|done].
  rewrite Nat.sub_diag, takeS_0. by intros [= <-].
Qed.

(** When [newMixedSegment] builds a segment, no location ends where the
    next one starts. *)
Lemma mixedStatics_no_adjacent (s : string) (locs : list (nat * nat))
    (keys : list string) :
  forall (i start : nat) (static static' : list string),
  (i <> 0%nat -> exists a0, locs !! (i - 1)%nat = Some (a0, start)) ->
  length keys = length (drop i locs) ->
  mixedStatics s keys locs i start static = Ok (inl static') ->
  forall k a b c : nat, (i <= S k)%nat ->
    locs !! k = Some (a, b) -> locs !! S k = Some (b, c) -> False.
Proof.
  induction keys as [|key rest IH];
    intros i start static static' Hprev Hlen; simpl.
  - intros _ k a b c Hk _ Hk'. simpl in Hlen. rewrite length_drop in Hlen.
    apply lookup_lt_Some in Hk'. lia.
  - assert (Hi : (i < length locs)%nat).
    { rewrite length_drop in Hlen. simpl in Hlen. lia. }
    apply lookup_lt_is_Some in Hi as [[a' b'] Hi]. rewrite Hi.
    rewrite (drop_S _ _ _ Hi) in Hlen. simpl in Hlen.
    destruct (slice s start a') as [lit|] eqn:Hlit; [|done].
    destruct (negb (i =? 0)%nat && String.eqb lit "") eqn:Hc; [done|].
    intros Hrun k a b c Hk Hka Hkb.
    destruct (decide (S k = i)) as [Heq|Hne].
    + subst i. destruct (Hprev ltac:(lia)) as [a0 Ha0].
      replace (S k - 1)%nat with k in Ha0 by lia.
      rewrite Hka in Ha0. injection Ha0 as -> ->.
      rewrite Hkb in Hi. injection Hi as -> ->.
      apply slice_same in Hlit as ->. done.
    + eapply (IH (S i) b' _ _); [| |exact Hrun| |exact Hka|exact Hkb].
      * intros _. exists a'. by replace (S i - 1)%nat with i by lia.
      * lia.
      * lia.
Qed.

Lemma compileSegment_default_Ok (p : Path) (unnamed : nat) (piece : string)
    (seg : Segment) (unnamed' : nat) :
  Prefix p = ":" -> Suffix p = "" -> Wildcard p = "*" ->
  compileSegment p unnamed piece = Ok (inl (seg, unnamed')) ->
  ~ namelessPrefix p piece /\ ~ adjacentKeys p piece.
Proof.
  intros Hpre Hsuf Hwild. unfold compileSegment, namelessPrefix, adjacentKeys,
    prefixAt, keyEndOf. rewrite Hpre, Hsuf, Hwild. simpl String.eqb.
  change (len ":") with 1%nat.
  destruct (String.eqb_spec piece "*") as [->|Hw].
  { intros _. split.
    - intros (_ & [|[|i]] & Hp & _); done.
    - intros ([|[|i]] & j & Hp & _); done. }
  destruct (Index piece ":") as [iPrefix|] eqn:Hi.
  2:{ intros _. split.
      - intros (_ & i & Hp & _). by rewrite (Index_None _ _ i Hi) in Hp.
      - intros (i & j & Hp & _). by rewrite (Index_None _ _ i Hi) in Hp. }
  pose proof Hi as [Hp0 Hmin]%Index_Some.
  assert (Hfrom : forall i, HasPrefix (dropS i piece) ":" = true ->
                            (iPrefix <= i)%nat).
  { intros i Hp. destruct (decide (iPrefix <= i)%nat); [done|].
    rewrite Hmin in Hp by lia. done. }
  pose proof (scanKeys_default piece (S (len piece)) iPrefix [] []) as Hs.
  specialize (Hs ltac:(lia) Hp0 ltac:(simpl; lia) eq_refl).
  destruct (scanKeys _ _ _ _ _ _ _) as [[[keys keyLocs]|e]| |] eqn:Hscan;
    try done.
  destruct Hs as (Hlen & Hne & Hch).
  apply scanKeys_cover in Hscan as (new & Hnew & Hcover). simpl in Hnew.
  subst new. intros Hseg. split.
  - intros (_ & i & Hp & Hrun).
    destruct (Hcover i (Hfrom i Hp) Hp) as [Hnz _]. done.
  - intros (i & j & Hpi & Hpj & [= <-]).
    destruct (Hcover i (Hfrom i Hpi) Hpi) as [_ Hin].
    destruct (Hcover _ (Hfrom _ Hpj) Hpj) as [_ Hin'].
    destruct (chain_adjacent _ _ _ _ _ _ Hch Hin Hin') as (k & Hk & Hk').
    match type of Hseg with
    | context [match ?x with Some _ => _ | None => _ end] =>
        destruct x as [key|] eqn:Hsingle
    end.
    + destruct keyLocs as [|[a b] [|l rest]]; try done.
    + destruct (newMixedSegment piece keys keyLocs) as [[mixed|e]| |] eqn:Hm;
        try done.
      unfold newMixedSegment in Hm.
      destruct (mixedStatics piece keys keyLocs 0 0 [])
        as [[static|e]| |] eqn:Hst; try done.
      eapply (mixedStatics_no_adjacent _ _ _ 0 0 [] static);
        [done|by rewrite drop_0|exact Hst| |exact Hk|exact Hk']. lia.
Qed.

Lemma compileSegments_each (p : Path) (pieces : list string) :
  forall (unnamed : nat) (segs segs' : list Segment),
  compileSegments p unnamed pieces segs = Ok (inl segs') ->
  forall piece : string, piece ∈ pieces ->
  exists u seg u', compileSegment p u piece = Ok (inl (seg, u')).
Proof.
  induction pieces as [|x rest IH]; intros unnamed segs segs' Hc piece Hin.
  - by apply elem_of_nil in Hin.
  - simpl in Hc.
    destruct (compileSegment p unnamed x) as [[[seg u']|e]| |] eqn:Hx;
      try done.
    apply elem_of_cons in Hin as [->|Hin]; [eauto|]. by eapply IH.
Qed.

(** C8, as the code has it.  [Compile] returns an error only in four
    situations: an option is rejected (the empty prefix); a suffix is
    configured and is missing after a prefix; no suffix is configured
    and a prefix is not followed by a character of a key name; a piece
    holds two adjacent keys with nothing between them.  With the default
    options [Compile] returns an error exactly when a piece of the
    pattern has a prefix without a name or two adjacent keys, and it
    returns a path for every other pattern. *)
Theorem Compile_errors :
  (forall (pattern : string) (options : list Option) (e : error),
     Compile pattern options = Ok (inr e) ->
     (e = errEmptyPrefix /\ SetPrefix "" ∈ options) \/
     exists (p : Path) (piece : string),
       applyOptions options (initialPath pattern) = inl p /\
       piece ∈ Split pattern (Seperator p) /\ piece <> Wildcard p /\
       ((unterminatedSuffix p piece /\ e = errSuffixNotFound piece (Suffix p)) \/
        (namelessPrefix p piece /\ e = errNoName piece (Suffix p)) \/
        (adjacentKeys p piece /\ e = errNoCharacter))) /\
  (forall pattern : string,
     (exists e, Compile pattern [] = Ok (inr e)) <->
     (exists piece : string,
        piece ∈ Split pattern "/" /\
        (namelessPrefix (initialPath pattern) piece \/
         adjacentKeys (initialPath pattern) piece))) /\
  (forall pattern : string,
     (exists e, Compile pattern [] = Ok (inr e)) \/
     (exists p, Compile pattern [] = Ok (inl p))).
Proof.
  split_and!.
  - apply Compile_error.
  - intros pattern. split.
    + intros [e He]. apply Compile_error in He as [[_ Hin]|He].
      { by apply elem_of_nil in Hin. }
      destruct He as (p & piece & [= <-] & Hin & _ & [[[Hs _] _]|[[H _]|[H _]]]);
        [done|by exists piece; split; [|left]|by exists piece; split; [|right]].
    + intros (piece & Hin & Hsit).
      destruct (Compile_default pattern) as [[p|e] Hc]; [|eauto].
      exfalso. apply Compile_Ok in Hc as (p0 & segs & [= <-] & Hsegs & _).
      destruct (compileSegments_each _ _ _ _ _ Hsegs piece Hin)
        as (u & seg & u' & Hseg).
      apply compileSegment_default_Ok in Hseg as [Hn Ha]; [|done..].
      destruct Hsit; done.
  - intros pattern. destruct (Compile_default pattern) as [[p|e] Hc]; eauto.
Qed.

End PathmatchProps.

(* ===================================================================== *)
(** * The properties on concrete inputs *)
(* ===================================================================== *)

(** The driver on a policy whose second match allows: the merged
    decision is [Allow] and [enforce] returns [true]. *)
Lemma enforce_merged_decision_witness :
  (Enforcer.enforce Examples.allowOverride Examples.eftOf
     (Examples.exactMatcher ["alice"; "data1"; "read"])
     Examples.somePolicy).1.1 = true.
Proof.
  pose proof (enforce_merged_decision Examples.allowOverride Examples.eftOf
                (Examples.exactMatcher ["alice"; "data1"; "read"])
                Examples.somePolicy) as H.
  destruct (Enforcer.enforce _ _ _ _) as [[b e] cs].
  simpl in H. destruct H as [H _]. simpl. apply H.
  vm_compute. reflexivity.
Defined.


(** The queries on the graph with a pattern role. *)
Lemma queries_keep_stored_roles_witness :
  exists r rm',
    Rbac.HasLink unit Examples.noCacheGet Examples.noCachePut elements
      11 "book_group_3" "reader" Examples.patternRolesGraph = Ok (r, rm')
    /\ dom (Rbac.allRoles rm') = dom (Rbac.allRoles Examples.patternRolesGraph)
    /\ Rbac.patternRoles rm' = Rbac.patternRoles Examples.patternRolesGraph.
Proof.
  apply (queries_keep_stored_roles Examples.noCacheGet Examples.noCachePut
           elements (fun X x => elem_of_elements X x)
           11 "book_group_3" "reader" Examples.patternRolesGraph).
  - unfold Rbac.patternsStored. apply (bool_decide_unpack _).
    vm_compute. exact I.
  - vm_compute. lia.
Defined.

(** The pattern [/:] does not compile, although no suffix is configured
    and no piece of it holds two keys. *)
Lemma Compile_error_without_suffix_or_adjacent_keys :
  Pathmatch.Compile "/:" [] = Ok (inr (Pathmatch.errNoName ":" "")) /\
  ~ (exists (p : Pathmatch.Path) (piece : string),
       Pathmatch.applyOptions [] (Pathmatch.initialPath "/:") = inl p /\
       piece ∈ Str.Split "/:" (Pathmatch.Seperator p) /\
       (Pathmatch.unterminatedSuffix p piece \/
        Pathmatch.adjacentKeys p piece)).
Proof.
  split; [vm_compute; reflexivity|].
  intros (p & piece & [= <-] & Hin & [[Hs _]|(i & j & Hpi & Hpj & Hk)]);
    [done|].
  change (Str.Split "/:" "/") with [""; ":"] in Hin.
  unfold Pathmatch.prefixAt, Pathmatch.keyEndOf in *. simpl in *.
  apply elem_of_cons in Hin as [->|Hin].
  { by destruct i. }
  apply list_elem_of_singleton in Hin as ->.
  destruct i as [|i]; [|by destruct i].
  injection Hk as <-. done.
Qed.

(** The pattern [/foo/:name] on [/foo/bar]: the input is the three
    pieces joined by the separator. *)
Lemma match_consumes_input_witness :
  exists pieces : list string,
    length pieces = 3%nat /\ "/foo/bar" = String.concat "/" pieces.
Proof.
  destruct match_consumes_input as (_ & _ & _ & _ & H).
  edestruct H with (pattern := "/foo/:name")
    (options := @nil Pathmatch.Option) (fuel := 10%nat) (s := "/foo/bar")
    (capture := true) as (pieces & Hlen & Hs & _).
  - vm_compute. reflexivity.
  - done.
  - vm_compute. reflexivity.
  - exists pieces. split; [exact Hlen|exact Hs].
Defined.

(** The second wildcard of [/a/*/b/*] has the key [$1]. *)
Lemma wildcard_keys_witness :
  exists p : Pathmatch.Path,
    Pathmatch.Compile "/a/*/b/*" [] = Ok (inl p) /\
    Pathmatch.Segments p !! 4%nat = Some (Pathmatch.wildcardSegment "$1").
Proof.
  destruct wildcard_keys as [H _].
  eexists. split; [vm_compute; reflexivity|].
  match goal with |- Pathmatch.Segments ?p !! _ = _ =>
    destruct (H "/a/*/b/*" [] p) as [_ H4]; [vm_compute; reflexivity|]
  end.
  exact (H4 4%nat "*" eq_refl).
Defined.

(** A prefix without a name in the last piece of [/a/:]. *)
Lemma Compile_errors_witness :
  exists e : error, Pathmatch.Compile "/a/:" [] = Ok (inr e).
Proof.
  destruct Compile_errors as (_ & H & _).
  apply (H "/a/:"). exists ":". split.
  - change (Str.Split "/a/:" "/") with [""; "a"; ":"].
    apply elem_of_cons. right. apply elem_of_cons. right.
    apply elem_of_cons. left. reflexivity.
  - left. split; [reflexivity|]. exists 0%nat. split; reflexivity.
Defined.

(** [Match] and [FindSubmatch] on [/a/*/b], from a save point an earlier
    call left. *)
Lemma Match_iff_FindSubmatch_witness :
  exists p : Pathmatch.Path,
    Pathmatch.Compile "/a/*/b" [] = Ok (inl p) /\
    match
      Pathmatch.PathMatch 20
        (Pathmatch.withSave (Pathmatch.mkSavePoint 2 3 2 true) p) "/a/x/y/b",
      Pathmatch.FindSubmatch 20
        (Pathmatch.withSave (Pathmatch.mkSavePoint 2 3 2 true) p) "/a/x/y/b"
    with
    | Ok (b, p1), Ok (m, p2) => (b = true <-> m <> None) /\ p1 = p2
    | Panic, Panic => True
    | OutOfFuel, OutOfFuel => True
    | _, _ => False
    end.
Proof.
  eexists. split; [vm_compute; reflexivity|].
  apply (Match_iff_FindSubmatch "/a/*/b" []). vm_compute. reflexivity.
Defined.

(** The save point outlives the call that set it: the path of [a/*/a]
    rejects [b/a/a/a] when new, accepts it after a call on [a/a/a], and
    then slices [b/a] out of range. *)
Lemma save_point_outlives_call :
  let p := Examples.aStarA in
  let p1 := Pathmatch.withSave (Pathmatch.mkSavePoint 1 2 2 true) p in
  let p2 := Pathmatch.withSave (Pathmatch.mkSavePoint 1 2 4 true) p in
  Pathmatch.Compile "a/*/a" [] = Ok (inl p) /\
  Pathmatch.PathMatch 10 p "b/a/a/a" = Ok (false, p) /\
  Pathmatch.FindSubmatch 10 p "a/a/a" = Ok (Some {["$0" := "a"]}, p1) /\
  Pathmatch.PathMatch 10 p1 "b/a/a/a" = Ok (true, p2) /\
  Pathmatch.FindSubmatch 10 p1 "b/a/a/a" = Ok (Some {["$0" := "a/a"]}, p2) /\
  Pathmatch.PathMatch 10 p1 "b/a" = Panic.
Proof.
  cbv zeta. split_and!; vm_compute; reflexivity.
Qed.



(* ===================================================================== *)
(** * The path matcher without return to a wildcard *)
(* ===================================================================== *)

Section PathmatchWalk.

Import Str Pathmatch.

Lemma matchLoop_nil (fuel : nat) (segs : list Segment) (sep s : string)
    (i sIndex searchStart : nat) (sv : savePoint) :
  matchLoop (S fuel) segs sep s i sIndex searchStart None sv
  = Ok (LoopLeft None sIndex, sv).
Proof. done. Qed.

Lemma matchLoop_end (fuel : nat) (segs : list Segment) (sep s : string)
    (i sIndex searchStart : nat) (d : option matchDraft) (sv : savePoint) :
  (length segs <= i)%nat ->
  matchLoop (S fuel) segs sep s i sIndex searchStart d sv
  = Ok (LoopLeft d sIndex, sv).
Proof.
  intros Hi. simpl. rewrite (lookup_ge_None_2 segs i Hi). by destruct d.
Qed.

Lemma sliceSegment_start (s sep : string) (sIndex : nat) :
  (sIndex <= len s)%nat ->
  sliceSegment s sep sIndex 0
  = Some match Index (dropS sIndex s) sep with
         | Some k => (takeS k (dropS sIndex s), false)
         | None => (dropS sIndex s, true)
         end.
Proof.
  intros Hle. unfold sliceSegment, sliceFrom.
  rewrite (proj2 (Nat.leb_le _ _) Hle). simpl.
  destruct (Index (dropS sIndex s) sep) as [k|]; [|done].
  by rewrite Nat.add_0_r.
Qed.

(** The loop of [getMatch] and the walk end alike when the loop starts
    an iteration without a save point and meets no wildcard before the
    last segment. *)
Lemma matchLoop_matchFrom (segs : list Segment) (sep s : string) :
  wildcardOnlyLast segs ->
  forall (fuel i sIndex : nat) (d : matchDraft) (sv : savePoint),
  sp_valid sv = false -> (i < length segs)%nat -> (sIndex <= len s)%nat ->
  (length segs - i < fuel)%nat ->
  match matchFrom sep (drop i segs) (dropS sIndex s) d with
  | Ok (Some d') =>
      matchLoop fuel segs sep s i sIndex 0 (Some d) sv
      = Ok (LoopLeft (Some d') (len s), sv)
  | Ok None =>
      exists e : LoopEnd,
        matchLoop fuel segs sep s i sIndex 0 (Some d) sv = Ok (e, sv) /\
        match e with LoopLeft (Some _) _ => False | _ => True end
  | Panic => matchLoop fuel segs sep s i sIndex 0 (Some d) sv = Panic
  | OutOfFuel => matchLoop fuel segs sep s i sIndex 0 (Some d) sv = OutOfFuel
  end.
Proof.
  intros Hw. induction fuel as [|fuel IH]; intros i sIndex d sv Hv Hi Hle Hf;
    [lia|].
  destruct (lookup_lt_is_Some_2 segs i Hi) as [seg Hseg].
  rewrite (drop_S _ _ _ Hseg). cbn [matchLoop matchFrom]. rewrite Hseg.
  rewrite (sliceSegment_start s sep sIndex Hle).
  set (rest := dropS sIndex s).
  assert (Hrest : (sIndex + len rest = len s)%nat)
    by (unfold rest; rewrite len_dropS; lia).
  destruct (decide (length segs - 1 = i)%nat) as [HL|HL].
  - (* the last segment *)
    rewrite (bool_decide_eq_true_2 _ HL).
    rewrite (drop_ge segs (S i)) by lia.
    destruct (Multiple seg) eqn:Hm.
    + assert (Hgo :
        match accept seg d rest with
        | Ok (Some d') =>
            match segMatch seg d rest with
            | Ok (ok, d'0) =>
                Ok (LoopLeft (if ok then Some d'0 else None) (len s), sv)
            | Panic => Panic
            | OutOfFuel => OutOfFuel
            end = Ok (LoopLeft (Some d') (len s), sv)
        | Ok None =>
            exists e : LoopEnd,
              match segMatch seg d rest with
              | Ok (ok, d'0) =>
                  Ok (LoopLeft (if ok then Some d'0 else None) (len s), sv)
              | Panic => Panic
              | OutOfFuel => OutOfFuel
              end = Ok (e, sv) /\
              match e with LoopLeft (Some _) _ => False | _ => True end
        | Panic =>
            match segMatch seg d rest with
            | Ok (ok, d'0) =>
                Ok (LoopLeft (if ok then Some d'0 else None) (len s), sv)
            | Panic => Panic
            | OutOfFuel => OutOfFuel
            end = Panic
        | OutOfFuel =>
            match segMatch seg d rest with
            | Ok (ok, d'0) =>
                Ok (LoopLeft (if ok then Some d'0 else None) (len s), sv)
            | Panic => Panic
            | OutOfFuel => OutOfFuel
            end = OutOfFuel
        end).
      { unfold accept. destruct (segMatch seg d rest) as [[[|] d1]| |];
          try done. by eexists. }
      destruct (Index rest sep) as [k|]; simpl; exact Hgo.
    + destruct (Index rest sep) as [k|] eqn:Hk; simpl.
      * unfold accept.
        destruct (segMatch seg d (takeS k rest)) as [[ok d1]| |]; try done.
        rewrite Hv, andb_false_r. by eexists.
      * unfold accept.
        destruct (segMatch seg d rest) as [[ok d1]| |]; try done.
        rewrite Hv, andb_false_r.
        destruct fuel as [|fuel]; [lia|].
        rewrite matchLoop_end by lia. rewrite Hrest.
        destruct ok; [done|by eexists].
  - (* a segment before the last *)
    rewrite (bool_decide_eq_false_2 _ HL).
    assert (Hm : Multiple seg = false) by (apply (Hw i); [lia|done]).
    rewrite Hm.
    destruct (lookup_lt_is_Some_2 segs (S i) ltac:(lia)) as [seg2 Hseg2].
    rewrite (drop_S _ _ _ Hseg2). rewrite <- (drop_S _ _ _ Hseg2).
    destruct (Index rest sep) as [k|] eqn:Hk; simpl; [|by eexists].
    unfold accept.
    destruct (segMatch seg d (takeS k rest)) as [[ok d1]| |]; try done.
    rewrite Hv, andb_false_r.
    pose proof (Index_bound _ _ _ Hk) as Hb.
    destruct ok.
    + assert (Hk' : len (takeS k rest) = k) by (rewrite len_takeS; lia).
      unfold segmentLen. rewrite Hk'.
      replace (dropS (k + len sep) rest)
        with (dropS (sIndex + (k + len sep)) s)
        by (by rewrite dropS_add).
      apply IH; [done|lia|lia|lia].
    + destruct fuel as [|fuel]; [lia|]. rewrite matchLoop_nil. by eexists.
Qed.

End PathmatchWalk.

Section PathmatchWalkCompiled.

Import Str Pathmatch.

Lemma withSave_same (p : Path) : withSave (save p) p = p.
Proof. by destruct p. Qed.

Lemma getMatch_matchFrom (fuel : nat) (p : Path) (s : string)
    (capture : bool) :
  sp_valid (save p) = false -> wildcardOnlyLast (Segments p) ->
  (length (Segments p) < fuel)%nat ->
  getMatch fuel p s capture
  = walked p (matchFrom (Seperator p) (Segments p) s
                        (newMatchDraft capture (pmatch p))).
Proof.
  intros Hv Hw Hf. unfold getMatch.
  set (d := newMatchDraft capture (pmatch p)).
  destruct (decide (Segments p = [])) as [Hnil|Hne].
  - rewrite Hnil. destruct fuel as [|fuel]; [lia|].
    rewrite matchLoop_end by (simpl; lia). simpl.
    rewrite withSave_same. by destruct (len s =? 0)%nat.
  - assert (Hi : (0 < length (Segments p))%nat)
      by (destruct (Segments p); [done|simpl; lia]).
    pose proof (matchLoop_matchFrom (Segments p) (Seperator p) s Hw fuel 0 0
                  d (save p) Hv Hi ltac:(lia) ltac:(lia)) as H.
    rewrite drop_0, dropS_0 in H.
    destruct (matchFrom (Seperator p) (Segments p) s d) as [[d'|]| |];
      simpl.
    + rewrite H, Nat.eqb_refl. simpl. by rewrite withSave_same.
    + destruct H as (e & -> & He). rewrite withSave_same.
      by destruct e as [| |[?|] ?].
    + by rewrite H.
    + by rewrite H.
Qed.

Lemma compileSegments_index (p : Path) (pieces : list string) :
  forall (unnamed : nat) (segs segs' : list Segment),
  compileSegments p unnamed pieces segs = Ok (inl segs') ->
  exists new : list Segment,
    segs' = segs ++ new /\ length new = length pieces /\
    forall (i : nat) (piece : string), pieces !! i = Some piece ->
      exists seg u u', new !! i = Some seg /\
                       compileSegment p u piece = Ok (inl (seg, u')).
Proof.
  induction pieces as [|piece rest IH]; intros unnamed segs segs'; simpl.
  - intros [= <-]. exists []. rewrite app_nil_r. split_and!; try done.
  - destruct (compileSegment p unnamed piece) as [[[seg unnamed']|e]| |] eqn:Hc;
      try done.
    intros H. apply IH in H as (new & -> & Hlen & Hnew).
    exists (seg :: new). rewrite <- app_assoc. simpl.
    split_and!; [done|by rewrite Hlen|].
    intros [|i] piece' Hi; simpl in Hi.
    + injection Hi as <-. by exists seg, unnamed, unnamed'.
    + by apply Hnew.
Qed.

Lemma Compile_index (pattern : string) (options : list Option) (p : Path) :
  Compile pattern options = Ok (inl p) ->
  length (Segments p) = length (Split pattern (Seperator p)) /\
  forall (i : nat) (piece : string),
    Split pattern (Seperator p) !! i = Some piece ->
    exists seg u u', Segments p !! i = Some seg /\
                     compileSegment p u piece = Ok (inl (seg, u')).
Proof.
  intros (p0 & segs & Hopt & Hsegs & ->)%Compile_Ok. simpl.
  apply compileSegments_index in Hsegs as (new & -> & Hlen & Hnew).
  simpl. split; [done|]. intros i piece Hi.
  destruct (Hnew i piece Hi) as (seg & u & u' & Hs & Hc).
  exists seg, u, u'. split; [done|].
  by destruct p0.
Qed.

Lemma Compile_wildcardOnlyLast (pattern : string) (options : list Option)
    (p : Path) :
  Compile pattern options = Ok (inl p) ->
  (forall (i : nat) (piece : string),
     (S i < length (Split pattern (Seperator p)))%nat ->
     Split pattern (Seperator p) !! i = Some piece -> piece <> Wildcard p) ->
  wildcardOnlyLast (Segments p).
Proof.
  intros Hc Hp j seg Hj Hseg.
  destruct (Compile_index _ _ _ Hc) as [Hlen Hidx].
  rewrite Hlen in Hj.
  destruct (lookup_lt_is_Some_2 (Split pattern (Seperator p)) j ltac:(lia))
    as [piece Hpiece].
  destruct (Hidx j piece Hpiece) as (seg' & u & u' & Hs & Hcs).
  rewrite Hseg in Hs. injection Hs as <-.
  by apply compileSegment_other in Hcs as (_ & ? & _); [|by eapply Hp].
Qed.

Lemma applyOptions_pmatch (options : list Option) :
  forall q q' : Path, applyOptions options q = inl q' -> pmatch q' = pmatch q.
Proof.
  induction options as [|o rest IH]; intros q q'; simpl.
  - by intros [= <-].
  - destruct (applyOption o q) as [q1|e] eqn:Ho; [|done].
    intros Hr%IH. apply applyOption_keeps in Ho as (_ & Hs & _ & _).
    congruence.
Qed.

Lemma Compile_empty_map (pattern : string) (options : list Option)
    (p : Path) :
  Compile pattern options = Ok (inl p) -> pmatch p = ∅.
Proof.
  intros (p0 & segs & Hopt & _ & ->)%Compile_Ok. simpl.
  by rewrite (applyOptions_pmatch _ _ _ Hopt).
Qed.

(** On a path as [Compile] returns it, whose pattern has no wildcard
    piece before the last one, [Match] and [FindSubmatch] return what
    one walk over the input gives, with fuel for one iteration per
    segment and one more, and leave the path as it was. *)
Theorem getMatch_walks_input (pattern : string) (options : list Option)
    (p : Path) (s : string) (fuel : nat) :
  Compile pattern options = Ok (inl p) ->
  (forall (i : nat) (piece : string),
     (S i < length (Split pattern (Seperator p)))%nat ->
     Split pattern (Seperator p) !! i = Some piece -> piece <> Wildcard p) ->
  (length (Segments p) < fuel)%nat ->
  FindSubmatch fuel p s
  = walked p (matchFrom (Seperator p) (Segments p) s (mkDraft true ∅)) /\
  PathMatch fuel p s
  = match matchFrom (Seperator p) (Segments p) s
                    (mkDraft (pequalCheck p) ∅) with
    | Ok r => Ok (bool_decide (r <> None), p)
    | Panic => Panic
    | OutOfFuel => OutOfFuel
    end.
Proof.
  intros Hc Hp Hf.
  pose proof (Compile_fresh _ _ _ Hc) as Hv.
  pose proof (Compile_wildcardOnlyLast _ _ _ Hc Hp) as Hw.
  pose proof (Compile_empty_map _ _ _ Hc) as Hm.
  split.
  - unfold FindSubmatch. rewrite getMatch_matchFrom by done.
    by rewrite Hm.
  - unfold PathMatch. rewrite getMatch_matchFrom by done. rewrite Hm.
    simpl. unfold newMatchDraft.
    replace (if negb (pequalCheck p) then mkDraft (pequalCheck p) ∅
             else mkDraft (pequalCheck p) ∅)
      with (mkDraft (pequalCheck p) ∅) by (by destruct (pequalCheck p)).
    destruct (matchFrom _ _ _ _) as [[d'|]| |]; simpl; try done.
Qed.

End PathmatchWalkCompiled.

(* ===================================================================== *)
(** * Static paths *)
(* ===================================================================== *)

Section SplitProps.

Import Str.

Lemma splitOn_fuel (sep : string) :
  sep <> "" ->
  forall (fuel : nat) (s : string),
  (len s <= fuel)%nat -> splitOn fuel s sep = splitOn (len s) s sep.
Proof.
  intros Hsep.
  assert (Hpos : (0 < len sep)%nat) by (destruct sep; [done|simpl; lia]).
  assert (H : forall (n fuel : nat) (s : string),
            (len s <= n)%nat -> (len s <= fuel)%nat ->
            splitOn fuel s sep = splitOn (len s) s sep).
  { induction n as [|n IH]; intros fuel s Hn Hf.
    - destruct s; [|simpl in Hn; lia]. destruct fuel; [done|]. simpl.
      destruct sep; [done|]. done.
    - destruct fuel as [|fuel].
      + by replace (len s) with 0%nat by lia.
      + destruct (len s) as [|m] eqn:Hm.
        * destruct s; [|done]. simpl. by destruct sep.
        * simpl. destruct (Index s sep) as [i|] eqn:Hi; [|done].
          pose proof (Index_bound _ _ _ Hi) as Hb. f_equal.
          assert (Hl : (len (dropS (i + len sep) s) <= m)%nat)
            by (rewrite len_dropS; lia).
          rewrite (IH fuel) by lia. by rewrite (IH m) by lia. }
  intros fuel s Hf. by apply (H (len s)).
Qed.

Lemma Split_unfold (s sep : string) :
  sep <> "" ->
  Split s sep = match Index s sep with
                | None => [s]
                | Some i => takeS i s :: Split (dropS (i + len sep) s) sep
                end.
Proof.
  intros Hsep. unfold Split.
  rewrite (proj2 (String.eqb_neq sep "") Hsep).
  assert (Hpos : (0 < len sep)%nat) by (destruct sep; [done|simpl; lia]).
  destruct (len s) as [|m] eqn:Hm.
  - destruct s; [|done]. simpl. by destruct sep.
  - simpl. destruct (Index s sep) as [i|] eqn:Hi; [|done].
    pose proof (Index_bound _ _ _ Hi) as Hb. f_equal.
    apply splitOn_fuel; [done|]. rewrite len_dropS. lia.
Qed.

Lemma Split_not_nil (s sep : string) : sep <> "" -> Split s sep <> [].
Proof.
  intros Hsep. rewrite Split_unfold by done. by destruct (Index s sep).
Qed.

(** Joining the pieces of [Split] with the separator gives the string
    back. *)
Lemma concat_Split (sep : string) :
  sep <> "" -> forall s : string, String.concat sep (Split s sep) = s.
Proof.
  intros Hsep.
  assert (Hpos : (0 < len sep)%nat) by (destruct sep; [done|simpl; lia]).
  assert (H : forall (n : nat) (s : string),
            (len s <= n)%nat -> String.concat sep (Split s sep) = s).
  { induction n as [|n IH]; intros s Hn; rewrite Split_unfold by done.
    - destruct (Index s sep) as [i|] eqn:Hi; [|done].
      apply Index_bound in Hi. lia.
    - destruct (Index s sep) as [i|] eqn:Hi; [|done].
      pose proof (Index_bound _ _ _ Hi) as Hb.
      apply Index_Some in Hi as [Hp _].
      pose proof (Split_not_nil (dropS (i + len sep) s) sep Hsep) as Hne.
      simpl. destruct (Split (dropS (i + len sep) s) sep) as [|x xs] eqn:Hx;
        [done|].
      rewrite <- Hx, IH by (rewrite len_dropS; lia).
      rewrite dropS_add. apply HasPrefix_split in Hp. rewrite <- Hp.
      by rewrite takeS_dropS. }
  intros s. by apply (H (len s)).
Qed.

End SplitProps.

Section StaticPaths.

Import Str Pathmatch.

Lemma compileSegment_Static (p : Path) (unnamed : nat) (piece : string)
    (seg : Segment) (unnamed' : nat) :
  compileSegment p unnamed piece = Ok (inl (seg, unnamed')) ->
  (segType seg = SegType.Static <->
   piece <> Wildcard p /\ Index piece (Prefix p) = None) /\
  (segType seg = SegType.Static -> seg = staticSegment piece).
Proof.
  unfold compileSegment.
  destruct (String.eqb piece (Wildcard p)) eqn:Hw.
  - apply String.eqb_eq in Hw. intros [= <- <-]. simpl.
    split; [|done]. split; [done|]. by intros [? _].
  - apply String.eqb_neq in Hw.
    destruct (Index piece (Prefix p)) as [iPrefix|] eqn:Hi.
    + destruct (scanKeys _ _ _ _ _ _ _) as [[[keys keyLocs]|e]| |];
        try done.
      match goal with
      | |- context [match ?x with Some _ => _ | None => _ end] =>
          destruct x as [key|]
      end.
      * intros [= <- <-]. simpl. split; [|done]. split; [done|].
        by intros [_ ?].
      * destruct (newMixedSegment piece keys keyLocs) as [[mixed|e]| |] eqn:Hn;
          try done.
        intros [= <- <-].
        apply newMixedSegment_mixed in Hn as [static ->]. simpl.
        split; [|done]. split; [done|]. by intros [_ ?].
    + intros [= <- <-]. simpl. done.
Qed.

Lemma allStatic_true (segs : list Segment) :
  allStatic segs = true <->
  forall seg : Segment, seg ∈ segs -> segType seg = SegType.Static.
Proof.
  induction segs as [|seg rest IH]; simpl.
  - split; [|done]. intros _ seg Hin. by apply elem_of_nil in Hin.
  - case_bool_decide as Hs; simpl.
    + rewrite IH. split.
      * intros H seg' [->|Hin]%elem_of_cons; [done|by apply H].
      * intros H seg' Hin. apply H. apply elem_of_cons. by right.
    + split; [done|]. intros H. exfalso. apply Hs, H, elem_of_cons. by left.
Qed.

(** [IsStatic] holds of a compiled path exactly when no piece of its
    pattern is the wildcard or holds the prefix. *)
Theorem IsStatic_iff (pattern : string) (options : list Option) (p : Path) :
  Compile pattern options = Ok (inl p) ->
  (IsStatic p = true <->
   forall piece : string, piece ∈ Split pattern (Seperator p) ->
     piece <> Wildcard p /\ Index piece (Prefix p) = None).
Proof.
  intros Hc. destruct (Compile_index _ _ _ Hc) as [Hlen Hidx].
  unfold IsStatic. rewrite allStatic_true. split.
  - intros H piece (i & Hi)%list_elem_of_lookup_1.
    destruct (Hidx i piece Hi) as (seg & u & u' & Hs & Hcs).
    apply compileSegment_Static in Hcs as [Hiff _]. apply Hiff, H.
    by eapply list_elem_of_lookup_2.
  - intros H seg (i & Hi)%list_elem_of_lookup_1.
    destruct (lookup_lt_is_Some_2 (Split pattern (Seperator p)) i) as [piece Hp].
    { rewrite <- Hlen. by eapply lookup_lt_Some. }
    destruct (Hidx i piece Hp) as (seg' & u & u' & Hs & Hcs).
    rewrite Hi in Hs. injection Hs as <-.
    apply compileSegment_Static in Hcs as [Hiff _]. apply Hiff, H.
    by eapply list_elem_of_lookup_2.
Qed.

Lemma IsStatic_segments (pattern : string) (options : list Option)
    (p : Path) :
  Compile pattern options = Ok (inl p) -> IsStatic p = true ->
  Segments p = staticSegment <$> Split pattern (Seperator p).
Proof.
  intros Hc Hs. destruct (Compile_index _ _ _ Hc) as [Hlen Hidx].
  unfold IsStatic in Hs. rewrite allStatic_true in Hs.
  apply list_eq. intros i. rewrite list_lookup_fmap.
  destruct (Split pattern (Seperator p) !! i) as [piece|] eqn:Hp; simpl.
  - destruct (Hidx i piece Hp) as (seg & u & u' & Hseg & Hcs).
    rewrite Hseg. f_equal.
    apply compileSegment_Static in Hcs as [_ Hst]. apply Hst, Hs.
    by eapply list_elem_of_lookup_2.
  - apply lookup_ge_None. rewrite Hlen. by apply lookup_ge_None.
Qed.

Lemma matchFrom_cons (sep : string) (seg seg2 : Segment)
    (rest : list Segment) (s : string) (d : matchDraft) :
  matchFrom sep (seg :: seg2 :: rest) s d
  = match Index s sep with
    | None => Ok None
    | Some k =>
        match accept seg d (takeS k s) with
        | Ok (Some d') => matchFrom sep (seg2 :: rest) (dropS (k + len sep) s) d'
        | Ok None => Ok None
        | Panic => Panic
        | OutOfFuel => OutOfFuel
        end
    end.
Proof. reflexivity. Qed.

Lemma accept_static (value : string) (d : matchDraft) (piece : string) :
  accept (staticSegment value) d piece
  = Ok (if String.eqb piece value then Some d else None).
Proof. unfold accept. simpl. by destruct (String.eqb piece value). Qed.

Lemma matchFrom_static (sep : string) (pieces : list string) :
  sep <> "" -> pieces <> [] ->
  forall (s : string) (d : matchDraft),
  matchFrom sep (staticSegment <$> pieces) s d
  = Ok (if bool_decide (Split s sep = pieces) then Some d else None).
Proof.
  intros Hsep. induction pieces as [|piece rest IH]; intros Hne s d;
    [done|].
  rewrite (Split_unfold s sep Hsep).
  destruct rest as [|piece2 rest].
  - simpl. destruct (Index s sep) as [k|] eqn:Hk.
    + unfold accept. simpl.
      pose proof (Split_not_nil (dropS (k + len sep) s) sep Hsep).
      rewrite bool_decide_eq_false_2; [by destruct (negb _)|].
      intros [= _ ?]. done.
    + unfold accept. simpl.
      destruct (String.eqb s piece) eqn:He; simpl.
      * apply String.eqb_eq in He as ->. by rewrite bool_decide_eq_true_2.
      * apply String.eqb_neq in He. rewrite bool_decide_eq_false_2; [done|].
        by intros [= ?].
  - rewrite !fmap_cons, matchFrom_cons, <- !fmap_cons.
    destruct (Index s sep) as [k|] eqn:Hk.
    + rewrite accept_static.
      destruct (String.eqb (takeS k s) piece) eqn:He; cbv beta iota.
      * apply String.eqb_eq in He. rewrite IH by done.
        destruct (decide (Split (dropS (k + len sep) s) sep = piece2 :: rest))
          as [Hr|Hr].
        -- rewrite !bool_decide_eq_true_2; [done| |done]. by rewrite He, Hr.
        -- rewrite !bool_decide_eq_false_2; [done| |done]. by intros [= _ ?].
      * apply String.eqb_neq in He. rewrite bool_decide_eq_false_2; [done|].
        by intros [= ? _].
    + rewrite bool_decide_eq_false_2; [done|]. by intros [= _ ?].
Qed.

Lemma Compile_pieces_not_nil (pattern : string) (options : list Option)
    (p : Path) :
  Compile pattern options = Ok (inl p) -> Seperator p <> "" ->
  Segments p <> [].
Proof.
  intros Hc Hsep Hnil. destruct (Compile_index _ _ _ Hc) as [Hlen _].
  rewrite Hnil in Hlen. simpl in Hlen.
  apply (Split_not_nil pattern (Seperator p) Hsep).
  by apply nil_length_inv.
Qed.

(** A static path matches its own pattern and nothing else: on a path
    as [Compile] returns it, with a separator that is not empty, on
    which [IsStatic] holds, [Match] returns whether the input is the
    pattern, [FindSubmatch] returns the empty map for the pattern and
    [nil] for any other input, and the path is left as it was. *)
Theorem static_path_matches_its_pattern (pattern : string)
    (options : list Option) (p : Path) (s : string) (fuel : nat) :
  Compile pattern options = Ok (inl p) -> Seperator p <> "" ->
  IsStatic p = true -> (length (Segments p) < fuel)%nat ->
  PathMatch fuel p s = Ok (bool_decide (s = pattern), p) /\
  FindSubmatch fuel p s
  = Ok (if bool_decide (s = pattern) then Some ∅ else None, p).
Proof.
  intros Hc Hsep Hst Hf.
  pose proof (IsStatic_segments _ _ _ Hc Hst) as Hsegs.
  pose proof (Compile_fresh _ _ _ Hc) as Hv.
  pose proof (Compile_empty_map _ _ _ Hc) as Hm.
  assert (Hw : wildcardOnlyLast (Segments p)).
  { intros j seg _ Hj. rewrite Hsegs, list_lookup_fmap in Hj.
    destruct (Split pattern (Seperator p) !! j); [|done].
    by injection Hj as <-. }
  assert (Hne : Split pattern (Seperator p) <> [])
    by (by apply Split_not_nil).
  assert (Heq : forall d : matchDraft,
            matchFrom (Seperator p) (Segments p) s d
            = Ok (if bool_decide (s = pattern) then Some d else None)).
  { intros d. rewrite Hsegs, matchFrom_static by done. f_equal.
    destruct (decide (s = pattern)) as [->|Hn].
    - by rewrite !bool_decide_eq_true_2.
    - rewrite !bool_decide_eq_false_2; [done|done|].
      intros H. apply Hn.
      rewrite <- (concat_Split (Seperator p) Hsep s).
      rewrite <- (concat_Split (Seperator p) Hsep pattern). by rewrite H. }
  unfold PathMatch, FindSubmatch.
  rewrite !getMatch_matchFrom by done. rewrite !Heq. simpl.
  split.
  - f_equal. f_equal. by case_bool_decide.
  - rewrite Hm. by case_bool_decide.
Qed.

End StaticPaths.

(* ===================================================================== *)
(** * Mixed segments *)
(* ===================================================================== *)

Section MixedSegments.

Import Str Pathmatch.

Lemma HasPrefix_all (s pre : string) :
  HasPrefix s pre = true -> len s = len pre -> s = pre.
Proof.
  intros Hp Hl. rewrite (HasPrefix_split _ _ Hp).
  rewrite (dropS_all (len pre) s) by lia. by rewrite app_empty_r.
Qed.

Lemma mixedKeys_weave (static : list string) (s : string) (lastLit : string)
    (keys : list string) :
  forall (i keyEnd : nat) (m : matchDraft) (keyEnd' : nat) (m' : matchDraft),
  keys <> [] -> (keyEnd <= len s)%nat ->
  static !! (i + length keys)%nat = Some lastLit ->
  mixedKeys static s keys i keyEnd m = Ok (Some keyEnd', m') ->
  len s = (keyEnd' + len lastLit)%nat ->
  exists values : list string,
    length values = length keys /\
    dropS keyEnd s = weave (drop i static) values /\
    m' = setAll keys values m /\
    forall (j : nat) (v lit : string),
      values !! j = Some v -> static !! (i + S j)%nat = Some lit ->
      lit <> "" -> Index v lit = None.
Proof.
  induction keys as [|key rest IH];
    intros i keyEnd m keyEnd' m' Hne Hle Hlast Hrun Hlen; [done|].
  simpl in Hrun.
  destruct (static !! i) as [lit|] eqn:Hlit; [|done].
  destruct (Index (dropS keyEnd s) lit) as [[|?]|] eqn:Hi; try done.
  destruct (static !! S i) as [next|] eqn:Hnext; [|done].
  pose proof (Index_Some _ _ _ Hi) as [Hp _]. rewrite dropS_0 in Hp.
  pose proof (HasPrefix_len _ _ Hp) as Hpl. rewrite len_dropS in Hpl.
  set (keyStart := (keyEnd + len lit)%nat) in *.
  set (tail := dropS keyStart s) in *.
  assert (Htail : dropS keyEnd s = lit +:+ tail).
  { rewrite (HasPrefix_split _ _ Hp) at 1. unfold tail, keyStart.
    by rewrite dropS_add. }
  assert (Hkl : exists keyLen : nat,
            (if String.eqb next "" then Some (len tail) else Index tail next)
            = Some keyLen /\ (keyLen <= len tail)%nat /\
            (next <> "" -> Index (takeS keyLen tail) next = None) /\
            HasPrefix (dropS keyLen tail) next = true /\
            (next = "" -> keyLen = len tail)).
  { destruct (String.eqb next "") eqn:He.
    - apply String.eqb_eq in He as ->. exists (len tail).
      split_and!; done.
    - apply String.eqb_neq in He.
      destruct (Index tail next) as [k|] eqn:Hk; [|done].
      exists k. pose proof (Index_bound _ _ _ Hk).
      split_and!; try done; [lia|by intros; apply Index_takeS|].
      by apply Index_Some in Hk as [? _]. }
  destruct Hkl as (keyLen & Hkeq & Hkb & Hmin & Hnp & Hall).
  rewrite Hkeq in Hrun.
  assert (Htl : len tail = (len s - keyStart)%nat)
    by (unfold tail; by rewrite len_dropS).
  unfold slice in Hrun.
  rewrite (proj2 (Nat.leb_le keyStart (keyStart + keyLen)) ltac:(lia)) in Hrun.
  rewrite (proj2 (Nat.leb_le (keyStart + keyLen) (len s)) ltac:(lia)) in Hrun.
  simpl in Hrun.
  replace (keyStart + keyLen - keyStart)%nat with keyLen in Hrun by lia.
  fold tail in Hrun.
  set (value := takeS keyLen tail) in *.
  assert (Hsplit : tail = value +:+ dropS (keyStart + keyLen) s).
  { unfold value. rewrite dropS_add. fold tail. by rewrite takeS_dropS. }
  rewrite (drop_S _ _ _ Hlit).
  destruct rest as [|key2 rest].
  - simpl in Hrun. injection Hrun as <- <-.
    simpl in Hlast. replace (i + 1)%nat with (S i) in Hlast by lia.
    rewrite Hnext in Hlast. injection Hlast as <-.
    exists [value]. split_and!; try done.
    + rewrite (drop_S _ _ _ Hnext). simpl. rewrite Htail. f_equal.
      rewrite Hsplit at 1. f_equal.
      rewrite dropS_add. fold tail. apply HasPrefix_all; [done|].
      rewrite len_dropS. lia.
    + intros [|j] v lit' Hv Hl' Hn'; [|done]. injection Hv as <-.
      replace (i + 1)%nat with (S i) in Hl' by lia.
      rewrite Hnext in Hl'. injection Hl' as <-. by apply Hmin.
  - destruct (IH (S i) (keyStart + keyLen)%nat (set key value m) keyEnd' m')
      as (values & Hvl & Hdrop & Hm' & Hmins); try done; [lia| |].
    { rewrite <- Hlast. f_equal. simpl. lia. }
    exists (value :: values). split_and!.
    + simpl. by rewrite Hvl.
    + simpl. rewrite Htail. f_equal. rewrite Hsplit at 1. by rewrite Hdrop.
    + done.
    + intros [|j] v lit' Hv Hl' Hn'.
      * injection Hv as <-. replace (i + 1)%nat with (S i) in Hl' by lia.
        rewrite Hnext in Hl'. injection Hl' as <-. by apply Hmin.
      * simpl in Hv. apply (Hmins j v lit'); [done| |done].
        rewrite <- Hl'. f_equal. lia.
Qed.

Lemma scanKeys_lengths (prefix suffix strSeg : string) (fuel : nat) :
  forall (iPrefix : nat) (keys : list string) (keyLocs : list (nat * nat))
         (keys' : list string) (keyLocs' : list (nat * nat)),
  scanKeys fuel prefix suffix strSeg iPrefix keys keyLocs
  = Ok (inl (keys', keyLocs')) ->
  keys' <> [] /\ (length keys < length keys')%nat.
Proof.
  induction fuel as [|fuel IH]; intros iPrefix keys keyLocs keys' keyLocs';
    [done|].
  simpl.
  match goal with
  | |- match ?f with _ => _ end = _ -> _ =>
      destruct f as [[[key loc]|e]| |]; try done
  end.
  destruct (Index _ prefix) as [j|].
  - intros (Hne & Hk)%IH. rewrite !length_app in *. simpl in *.
    split; [done|lia].
  - intros [= <- <-]. rewrite !length_app. simpl.
    split; [by destruct keys|lia].
Qed.

Lemma mixedStatics_length (s : string) (locs : list (nat * nat))
    (keys : list string) :
  forall (i start : nat) (static static' : list string),
  mixedStatics s keys locs i start static = Ok (inl static') ->
  length static' = (length static + length keys)%nat.
Proof.
  induction keys as [|key rest IH]; intros i start static static'; simpl.
  - intros [= <-]. lia.
  - destruct (locs !! i) as [[a b]|]; [|done].
    destruct (slice s start a) as [lit|]; [|done].
    destruct (negb (i =? 0)%nat && String.eqb lit ""); [done|].
    intros ->%IH. rewrite length_app. simpl. lia.
Qed.

Lemma compileSegment_mixed (p : Path) (unnamed : nat) (piece : string)
    (keys static : list string) (unnamed' : nat) :
  compileSegment p unnamed piece
  = Ok (inl (mixedSegment keys static, unnamed')) ->
  keys <> [] /\ length static = S (length keys).
Proof.
  unfold compileSegment.
  destruct (String.eqb piece (Wildcard p)); [done|].
  destruct (Index piece (Prefix p)) as [iPrefix|]; [|done].
  destruct (scanKeys _ _ _ _ _ _ _) as [[[keys0 keyLocs]|e]| |] eqn:Hs;
    try done.
  apply scanKeys_lengths in Hs as (Hne & _).
  match goal with
  | |- context [match ?x with Some _ => _ | None => _ end] =>
      destruct x as [key|]
  end; [done|].
  unfold newMixedSegment.
  destruct (mixedStatics piece keys0 keyLocs 0 0 []) as [[st|e]| |] eqn:Hm;
    try done.
  destruct (last keyLocs) as [[a lastLoc]|]; [|done].
  destruct (sliceFrom piece lastLoc) as [tail|]; [|done].
  intros [= <- <- <-]. split; [done|].
  apply mixedStatics_length in Hm. rewrite length_app, Hm. simpl. lia.
Qed.

(** A mixed segment of a compiled path has at least one key and one
    literal more than it has keys.  Such a segment accepts a piece only
    if the piece is its literals with a value after each one but the
    last; the draft it returns has each key set to its value, in order;
    and no value holds the literal that follows it, unless that literal
    is empty. *)
Theorem mixed_segment_match :
  (forall (pattern : string) (options : list Option) (p : Path)
          (keys static : list string),
     Compile pattern options = Ok (inl p) ->
     mixedSegment keys static ∈ Segments p ->
     keys <> [] /\ length static = S (length keys)) /\
  (forall (keys static : list string) (m : matchDraft) (s : string)
          (m' : matchDraft),
     keys <> [] -> length static = S (length keys) ->
     segMatch (mixedSegment keys static) m s = Ok (true, m') ->
     exists values : list string,
       length values = length keys /\
       s = weave static values /\
       m' = setAll keys values m /\
       forall (j : nat) (v lit : string),
         values !! j = Some v -> static !! S j = Some lit ->
         lit <> "" -> Index v lit = None).
Proof.
  split.
  - intros pattern options p keys static Hc (i & Hi)%list_elem_of_lookup_1.
    destruct (Compile_index _ _ _ Hc) as [Hlen Hidx].
    destruct (lookup_lt_is_Some_2 (Split pattern (Seperator p)) i)
      as [piece Hp].
    { rewrite <- Hlen. by eapply lookup_lt_Some. }
    destruct (Hidx i piece Hp) as (seg & u & u' & Hs & Hcs).
    rewrite Hi in Hs. injection Hs as <-.
    by eapply compileSegment_mixed.
  - intros keys static m s m' Hne Hlen Hrun. simpl in Hrun.
    destruct (mixedKeys static s keys 0 0 m) as [[[keyEnd|] m1]| |] eqn:Hk;
      try done.
    destruct (last static) as [lastStatic|] eqn:Hl; [|done].
    destruct (len s =? keyEnd + len lastStatic)%nat eqn:He; [|done].
    simpl in Hrun. injection Hrun as <-. apply Nat.eqb_eq in He.
    rewrite last_lookup, Hlen in Hl. simpl in Hl.
    destruct (mixedKeys_weave static s lastStatic keys 0 0 m keyEnd m1)
      as (values & Hvl & Hdrop & Hm' & Hmins); try done; [lia|].
    exists values. rewrite drop_0, dropS_0 in Hdrop. done.
Qed.

End MixedSegments.

(* ===================================================================== *)
(** * Paths without wildcards: the input piece by piece *)
(* ===================================================================== *)

Section PathmatchPieces.

Import Str Pathmatch.

Lemma acceptAll_length (segs : list Segment) :
  forall (pieces : list string) (d d' : matchDraft),
  acceptAll segs pieces d = Ok (Some d') -> length pieces = length segs.
Proof.
  induction segs as [|seg segs IH]; intros [|piece pieces] d d'; simpl;
    try done.
  destruct (accept seg d piece) as [[d1|]| |]; try done.
  intros H%IH. by rewrite H.
Qed.

Lemma matchFrom_acceptAll (sep : string) (segs : list Segment) :
  sep <> "" -> segs <> [] ->
  (forall seg : Segment, seg ∈ segs -> Multiple seg = false) ->
  forall (s : string) (d d' : matchDraft),
  matchFrom sep segs s d = Ok (Some d') <->
  acceptAll segs (Split s sep) d = Ok (Some d').
Proof.
  intros Hsep. induction segs as [|seg rest IH]; intros Hne Hm s d d';
    [done|].
  rewrite (Split_unfold s sep Hsep).
  assert (Hseg : Multiple seg = false) by (apply Hm, elem_of_cons; by left).
  destruct rest as [|seg2 rest].
  - simpl. rewrite Hseg.
    destruct (Index s sep) as [k|] eqn:Hk.
    + pose proof (Split_not_nil (dropS (k + len sep) s) sep Hsep).
      destruct (Split (dropS (k + len sep) s) sep); [done|].
      destruct (accept seg d (takeS k s)) as [[d1|]| |]; simpl; done.
    + destruct (accept seg d s) as [[d1|]| |]; simpl; done.
  - rewrite matchFrom_cons.
    destruct (Index s sep) as [k|] eqn:Hk.
    + cbn [acceptAll].
      destruct (accept seg d (takeS k s)) as [[d1|]| |]; try done.
      apply IH; [done|]. intros seg' Hin. apply Hm, elem_of_cons. by right.
    + cbn [acceptAll]. destruct (accept seg d s) as [[d1|]| |]; done.
Qed.

Lemma Compile_no_wildcard (pattern : string) (options : list Option)
    (p : Path) :
  Compile pattern options = Ok (inl p) ->
  (forall piece : string,
     piece ∈ Split pattern (Seperator p) -> piece <> Wildcard p) ->
  forall seg : Segment, seg ∈ Segments p -> Multiple seg = false.
Proof.
  intros Hc Hp seg (i & Hi)%list_elem_of_lookup_1.
  destruct (Compile_index _ _ _ Hc) as [Hlen Hidx].
  destruct (lookup_lt_is_Some_2 (Split pattern (Seperator p)) i)
    as [piece Hpiece].
  { rewrite <- Hlen. by eapply lookup_lt_Some. }
  destruct (Hidx i piece Hpiece) as (seg' & u & u' & Hs & Hcs).
  rewrite Hi in Hs. injection Hs as <-.
  apply compileSegment_other in Hcs as (_ & ? & _); [done|].
  apply Hp. by eapply list_elem_of_lookup_2.
Qed.

Lemma wildcardOnlyLast_none (segs : list Segment) :
  (forall seg : Segment, seg ∈ segs -> Multiple seg = false) ->
  wildcardOnlyLast segs.
Proof.
  intros H j seg _ Hj. apply H. by eapply list_elem_of_lookup_2.
Qed.

(** A path without wildcards takes the input as [Split] cuts it.  On a
    path as [Compile] returns it, with a separator that is not empty
    and no wildcard piece in its pattern, [FindSubmatch] returns a map
    exactly when the segments accept the pieces of the input one by
    one, and the map is the one of the last draft; the input then has
    as many pieces as the pattern. *)
Theorem FindSubmatch_by_pieces (pattern : string) (options : list Option)
    (p : Path) (s : string) (fuel : nat) :
  Compile pattern options = Ok (inl p) -> Seperator p <> "" ->
  (forall piece : string,
     piece ∈ Split pattern (Seperator p) -> piece <> Wildcard p) ->
  (length (Segments p) < fuel)%nat ->
  (forall m : Match,
     FindSubmatch fuel p s = Ok (Some m, p) <->
     exists d' : matchDraft,
       acceptAll (Segments p) (Split s (Seperator p)) (mkDraft true ∅)
       = Ok (Some d') /\ dmatch d' = m) /\
  (forall (m : Match) (p' : Path),
     FindSubmatch fuel p s = Ok (Some m, p') ->
     length (Split s (Seperator p)) = length (Split pattern (Seperator p))).
Proof.
  intros Hc Hsep Hp Hf.
  pose proof (Compile_fresh _ _ _ Hc) as Hv.
  pose proof (Compile_empty_map _ _ _ Hc) as Hm.
  pose proof (Compile_no_wildcard _ _ _ Hc Hp) as Hnw.
  pose proof (Compile_pieces_not_nil _ _ _ Hc Hsep) as Hne.
  destruct (Compile_index _ _ _ Hc) as [Hlen _].
  unfold FindSubmatch.
  rewrite getMatch_matchFrom by (try done; by apply wildcardOnlyLast_none).
  rewrite Hm. simpl.
  assert (Hiff : forall m : Match,
    walked p (matchFrom (Seperator p) (Segments p) s (mkDraft true ∅))
    = Ok (Some m, p) <->
    exists d' : matchDraft,
      acceptAll (Segments p) (Split s (Seperator p)) (mkDraft true ∅)
      = Ok (Some d') /\ dmatch d' = m).
  { intros m. split.
    - destruct (matchFrom _ _ _ _) as [[d'|]| |] eqn:Hw; simpl; try done.
      intros [= <-]. exists d'. split; [|done].
      by apply (matchFrom_acceptAll (Seperator p) (Segments p)).
    - intros (d' & Ha & <-).
      apply (matchFrom_acceptAll (Seperator p) (Segments p)) in Ha;
        [|done..].
      by rewrite Ha. }
  split; [done|].
  intros m p' H.
  assert (p' = p) as ->.
  { destruct (matchFrom _ _ _ _) as [[d'|]| |]; simpl in H; congruence. }
  apply Hiff in H as (d' & Ha & _). apply acceptAll_length in Ha.
  by rewrite Ha.
Qed.

End PathmatchPieces.

(* ===================================================================== *)
(** * Parameters and the equality check *)
(* ===================================================================== *)

Section Parameters.

Import Str Pathmatch.

Lemma accept_param (key : string) (d : matchDraft) (piece : string)
    (d' : matchDraft) :
  capture d = true ->
  accept (paramSegment key true) d piece = Ok (Some d') ->
  d' = mkDraft true (<[key := piece]> (dmatch d)) /\
  (forall v : string, dmatch d !! key = Some v -> v = piece).
Proof.
  intros Hc. unfold accept. simpl. unfold set. rewrite Hc. simpl.
  destruct (dmatch d !! key) as [value|] eqn:Hk.
  - destruct (String.eqb piece value) eqn:He; simpl; [|done].
    apply String.eqb_eq in He as ->. intros [= <-]. split; [done|].
    by intros v [= <-].
  - intros [= <-]. done.
Qed.

Lemma acceptAll_params (segs : list Segment) :
  (forall seg : Segment, seg ∈ segs ->
     (exists value, seg = staticSegment value) \/
     (exists key, seg = paramSegment key true)) ->
  forall (pieces : list string) (d d' : matchDraft),
  capture d = true ->
  acceptAll segs pieces d = Ok (Some d') ->
  (forall k v : string, dmatch d !! k = Some v -> dmatch d' !! k = Some v) /\
  (forall (i : nat) (key piece : string),
     segs !! i = Some (paramSegment key true) -> pieces !! i = Some piece ->
     dmatch d' !! key = Some piece).
Proof.
  induction segs as [|seg segs IH]; intros Hsegs [|piece pieces] d d' Hc;
    simpl; try done.
  - intros [= <-]. done.
  - destruct (accept seg d piece) as [[d1|]| |] eqn:Ha; try done.
    intros Hrest.
    assert (Hin : seg ∈ seg :: segs) by (apply elem_of_cons; by left).
    assert (Htl : forall seg0 : Segment, seg0 ∈ segs ->
              (exists value, seg0 = staticSegment value) \/
              (exists key, seg0 = paramSegment key true))
      by (intros seg0 H0; apply Hsegs, elem_of_cons; by right).
    destruct (Hsegs seg Hin) as [[value ->]|[key ->]].
    + rewrite accept_static in Ha.
      destruct (String.eqb piece value); [|done]. injection Ha as <-.
      destruct (IH Htl pieces d d' Hc Hrest) as [Hkeep Hpar].
      split; [done|]. intros [|i] key piece' Hs Hp; [done|].
      by eapply Hpar.
    + apply accept_param in Ha as [-> Hsame]; [|done].
      destruct (IH Htl pieces (mkDraft true (<[key := piece]> (dmatch d)))
                  d' eq_refl Hrest) as [Hkeep Hpar].
      simpl in Hkeep. split.
      * intros k v Hk. apply Hkeep.
        destruct (decide (k = key)) as [->|Hn].
        -- rewrite lookup_insert_eq. f_equal. symmetry. by apply Hsame.
        -- by rewrite lookup_insert_ne.
      * intros [|i] key' piece' Hs Hp; simpl in Hs, Hp.
        -- injection Hs as <-. injection Hp as <-.
           apply Hkeep. by rewrite lookup_insert_eq.
        -- by eapply Hpar.
Qed.

(** With the equality check on, a key stands for one piece.  On a path
    as [Compile] returns it with the check enabled, a separator that is
    not empty and only static and parameterised segments: in the map
    [FindSubmatch] returns each key holds the piece of the input at
    every position of that key; and when [Match] returns [true], two
    positions of the same key hold the same piece. *)
Theorem equality_check_binds_keys (pattern : string) (options : list Option)
    (p : Path) (s : string) (fuel : nat) :
  Compile pattern options = Ok (inl p) -> pequalCheck p = true ->
  Seperator p <> "" ->
  (forall seg : Segment, seg ∈ Segments p ->
     segType seg = SegType.Static \/ segType seg = SegType.Parameterized) ->
  (length (Segments p) < fuel)%nat ->
  (forall (m : Match) (p' : Path),
     FindSubmatch fuel p s = Ok (Some m, p') ->
     forall (i : nat) (key : string) (ec : bool),
       Segments p !! i = Some (paramSegment key ec) ->
       is_Some (m !! key) /\ m !! key = Split s (Seperator p) !! i) /\
  (forall p' : Path,
     PathMatch fuel p s = Ok (true, p') ->
     forall (i j : nat) (key : string) (eci ecj : bool),
       Segments p !! i = Some (paramSegment key eci) ->
       Segments p !! j = Some (paramSegment key ecj) ->
       Split s (Seperator p) !! i = Split s (Seperator p) !! j).
Proof.
  intros Hc Hec Hsep Hkinds Hf.
  pose proof (Compile_fresh _ _ _ Hc) as Hv.
  pose proof (Compile_empty_map _ _ _ Hc) as Hm.
  pose proof (Compile_pieces_not_nil _ _ _ Hc Hsep) as Hne.
  pose proof (Compile_flags _ _ _ Hc) as Hflags. rewrite Hec in Hflags.
  assert (Hshape : forall seg : Segment, seg ∈ Segments p ->
            (exists value, seg = staticSegment value) \/
            (exists key, seg = paramSegment key true)).
  { intros seg Hin. rewrite Forall_forall in Hflags.
    pose proof (Hflags seg Hin) as Hfl.
    destruct (Hkinds seg Hin) as [Hk|Hk]; destruct seg; try done.
    - left. by eexists.
    - right. simpl in Hfl. subst. by eexists. }
  assert (Hnw : forall seg : Segment, seg ∈ Segments p ->
            Multiple seg = false).
  { intros seg Hin. by destruct (Hshape seg Hin) as [[? ->]|[? ->]]. }
  assert (Hmain : forall (m : Match) (p' : Path),
    getMatch fuel p s true = Ok (Some m, p') ->
    forall (i : nat) (key : string) (ec : bool),
      Segments p !! i = Some (paramSegment key ec) ->
      is_Some (m !! key) /\ m !! key = Split s (Seperator p) !! i).
  { intros m p' H i key ec Hi.
    rewrite getMatch_matchFrom in H
      by (try done; by apply wildcardOnlyLast_none).
    rewrite Hm in H. simpl in H.
    destruct (matchFrom _ _ _ _) as [[d'|]| |] eqn:Hw; simpl in H; try done.
    injection H as <- <-.
    apply (matchFrom_acceptAll (Seperator p) (Segments p)) in Hw; try done.
    pose proof (acceptAll_length _ _ _ _ Hw) as Hl.
    destruct (lookup_lt_is_Some_2 (Split s (Seperator p)) i) as [piece Hp].
    { rewrite Hl. by eapply lookup_lt_Some. }
    pose proof Hi as Hi'.
    assert (ec = true) as ->.
    { rewrite Forall_forall in Hflags.
      apply list_elem_of_lookup_2 in Hi'. by apply Hflags in Hi'. }
    destruct (acceptAll_params _ Hshape _ (mkDraft true ∅) _ eq_refl Hw)
      as [_ Hpar].
    rewrite Hp. rewrite (Hpar i key piece Hi Hp). split; [by eexists|done]. }
  split; [exact Hmain|].
  intros p' H i j key eci ecj Hi Hj. unfold PathMatch in H.
  rewrite Hec in H. simpl in H.
  destruct (getMatch fuel p s true) as [[[m|] p1]| |] eqn:Hg; try done.
  destruct (Hmain m p1 eq_refl i key eci Hi) as [_ <-].
  by destruct (Hmain m p1 eq_refl j key ecj Hj) as [_ <-].
Qed.

Lemma run_all_no_colon (name : string) :
  run name = len name -> Index name ":" = None.
Proof.
  intros Hr. apply Index_None_intro. intros j.
  destruct (decide (j < run name)%nat) as [Hj|Hj].
  - by apply run_no_prefix.
  - rewrite dropS_all by lia. done.
Qed.

Lemma scanKeys_param (fuel : nat) (name : string) :
  name <> "" -> run name = len name ->
  scanKeys (S fuel) ":" "" (String ":" name) 0 [] []
  = Ok (inl ([name], [(0%nat, S (len name))])).
Proof.
  intros Hne Hr. destruct name as [|c t]; [done|].
  assert (Hc : special c = false).
  { simpl in Hr. destruct (special c); [done|done]. }
  pose proof (run_all_no_colon (String c t) Hr) as Hno.
  cbn [scanKeys]. cbn [String.eqb negb Nat.add len dropS].
  cbn [exceptFindStringIndex]. rewrite Hc, Hr, Hno.
  assert (Hs : slice (String ":" (String c t)) 1 (S (len (String c t)))
               = Some (String c t)).
  { unfold slice.
    rewrite (proj2 (Nat.leb_le 1 (S (len (String c t)))) ltac:(lia)).
    change (len (String ":" (String c t))) with (S (len (String c t))).
    rewrite Nat.leb_refl. cbn [andb dropS].
    replace (S (len (String c t)) - 1)%nat with (len (String c t)) by lia.
    by rewrite takeS_all by lia. }
  by rewrite Hs.
Qed.

Lemma compileSegment_param (p : Path) (unnamed : nat) (name : string) :
  Prefix p = ":" -> Suffix p = "" -> Wildcard p = "*" ->
  name <> "" -> run name = len name ->
  compileSegment p unnamed (":" +:+ name)
  = Ok (inl (paramSegment name (pequalCheck p), unnamed)).
Proof.
  intros Hpre Hsuf Hw Hne Hr.
  change (":" +:+ name) with (String ":" name).
  unfold compileSegment. rewrite Hpre, Hsuf, Hw.
  cbn [String.eqb Ascii.eqb Bool.eqb].
  cbn [Index HasPrefix Ascii.eqb Bool.eqb andb].
  rewrite scanKeys_param by done.
  cbn [last len]. rewrite Nat.sub_0_r. by rewrite Nat.eqb_refl.
Qed.

(** With the default options, a piece of the pattern that is a colon
    followed by a name without any of the characters that end a name
    compiles to the parameter of that name, which accepts every piece
    and sets the name to it. *)
Theorem parameter_piece (pattern : string) (p : Path) (i : nat)
    (name : string) :
  Compile pattern [] = Ok (inl p) ->
  Split pattern "/" !! i = Some (":" +:+ name) ->
  name <> "" -> run name = len name ->
  Segments p !! i = Some (paramSegment name false) /\
  forall (d : matchDraft) (piece : string),
    accept (paramSegment name false) d piece = Ok (Some (set name piece d)).
Proof.
  intros Hc Hi Hne Hr. split.
  - destruct (Compile_index _ _ _ Hc) as [_ Hidx].
    apply Compile_Ok in Hc as (p0 & segs & Hopt & _ & ->).
    simpl in Hopt. injection Hopt as <-.
    destruct (Hidx i (":" +:+ name) Hi) as (seg & u & u' & Hs & Hcs).
    rewrite compileSegment_param in Hcs by done.
    by injection Hcs as <- _.
  - intros d piece. unfold accept. simpl. by destruct (dmatch d !! name).
Qed.

End Parameters.

(* ===================================================================== *)
(** * The empty separator and the empty prefix *)
(* ===================================================================== *)

Section EmptySeparator.

Import Str Pathmatch.

Lemma Index_empty (s : string) : Index s "" = Some 0%nat.
Proof. by destruct s. Qed.

Lemma sliceSegment_empty_sep (s : string) :
  sliceSegment s "" 0 0 = Some ("", false).
Proof.
  unfold sliceSegment, sliceFrom. simpl. rewrite ?dropS_0. simpl.
  rewrite ?dropS_0, Index_empty. simpl. by rewrite ?takeS_0.
Qed.

(** With the empty separator a path whose first segment is a wildcard
    followed by a static segment that is not empty never returns: from
    a save point that is not valid, [Match] and [FindSubmatch] use up
    any fuel, on every input.  The loop hands the empty string to both
    segments and goes back to the wildcard at the same position. *)
Theorem empty_separator_never_returns (p : Path) (key value : string)
    (rest : list Segment) (s : string) (fuel : nat) :
  Seperator p = "" ->
  Segments p = wildcardSegment key :: staticSegment value :: rest ->
  value <> "" -> sp_valid (save p) = false ->
  PathMatch fuel p s = OutOfFuel /\ FindSubmatch fuel p s = OutOfFuel.
Proof.
  intros Hsep Hsegs Hval Hv.
  set (segs := wildcardSegment key :: staticSegment value :: rest).
  set (sv1 := mkSavePoint 0 0 0 true).
  assert (Hne : String.eqb "" value = false).
  { apply String.eqb_neq. by intros <-. }
  assert (Hloop : forall (n : nat) (d : matchDraft) (sv : savePoint),
    sp_valid sv = false \/ sv = sv1 ->
    matchLoop n segs "" s 0 0 0 (Some d) sv = OutOfFuel /\
    matchLoop n segs "" s 1 0 0 (Some d) sv1 = OutOfFuel).
  { induction n as [|n IH]; intros d sv Hsv; [done|].
    split.
    - cbn [matchLoop]. unfold segs at 1. cbn [lookup list_lookup].
      rewrite sliceSegment_empty_sep. cbn [andb Multiple].
      rewrite bool_decide_eq_false_2 by (simpl; lia). cbn [andb negb].
      assert (Hsv1 : (if sp_valid sv && (sp_i sv =? 0)%nat
                      then mkSavePoint (sp_i sv) (sp_sIndex sv)
                                       (segmentLen "" "" false) (sp_valid sv)
                      else mkSavePoint 0 0 (segmentLen "" "" false) true)
                     = sv1).
      { destruct Hsv as [Hf| ->]; [by rewrite Hf|done]. }
      rewrite Hsv1. cbn [segMatch negb andb segmentLen len Nat.add].
      apply (IH _ sv1). by right.
    - cbn [matchLoop]. unfold segs at 1. cbn [lookup list_lookup].
      rewrite sliceSegment_empty_sep. cbn [andb Multiple segMatch].
      rewrite Hne. cbn [negb andb sp_valid sv1 sp_i sp_sIndex sp_searchStart].
      apply (IH _ sv1). by right. }
  unfold PathMatch, FindSubmatch, getMatch. rewrite Hsep, Hsegs.
  split.
  - by rewrite (proj1 (Hloop fuel _ _ (or_introl Hv))).
  - by rewrite (proj1 (Hloop fuel _ _ (or_introl Hv))).
Qed.

Lemma matchFrom_empty_sep (value : string) (rest : list Segment)
    (s : string) (d : matchDraft) :
  value <> "" -> matchFrom "" (staticSegment value :: rest) s d = Ok None.
Proof.
  intros Hval.
  assert (Hne : String.eqb "" value = false).
  { apply String.eqb_neq. by intros <-. }
  destruct rest as [|seg2 rest].
  - simpl. rewrite Index_empty, accept_static.
    by destruct (String.eqb _ _).
  - rewrite matchFrom_cons, Index_empty, takeS_0, accept_static.
    by rewrite Hne.
Qed.

(** With the empty separator a static path matches nothing, not even
    its own pattern: on a path as [Compile] returns it for a pattern
    that is not empty, with the empty separator, on which [IsStatic]
    holds, [Match] returns [false] and [FindSubmatch] returns [nil] on
    every input. *)
Theorem empty_separator_static_never_matches (pattern : string)
    (options : list Option) (p : Path) (s : string) (fuel : nat) :
  Compile pattern options = Ok (inl p) -> Seperator p = "" ->
  IsStatic p = true -> pattern <> "" -> (length (Segments p) < fuel)%nat ->
  PathMatch fuel p s = Ok (false, p) /\ FindSubmatch fuel p s = Ok (None, p).
Proof.
  intros Hc Hsep Hst Hne Hf.
  pose proof (IsStatic_segments _ _ _ Hc Hst) as Hsegs.
  pose proof (Compile_fresh _ _ _ Hc) as Hv.
  assert (Hw : wildcardOnlyLast (Segments p)).
  { intros j seg _ Hj. rewrite Hsegs, list_lookup_fmap in Hj.
    destruct (Split pattern (Seperator p) !! j); [|done].
    by injection Hj as <-. }
  destruct pattern as [|c t]; [done|].
  assert (Hshape : exists rest,
            Segments p = staticSegment (String c "") :: rest).
  { rewrite Hsegs, Hsep. unfold Split. simpl. by eexists. }
  destruct Hshape as [rest Hshape].
  unfold PathMatch, FindSubmatch.
  rewrite !getMatch_matchFrom by done.
  rewrite Hshape, Hsep, !matchFrom_empty_sep by done. done.
Qed.

End EmptySeparator.

Section EmptyPrefix.

Import Str Pathmatch.

Lemma applyOptions_empty_prefix (options : list Option) :
  SetPrefix "" ∈ options ->
  forall q : Path, applyOptions options q = inr errEmptyPrefix.
Proof.
  induction options as [|o rest IH]; intros Hin q.
  - by apply elem_of_nil in Hin.
  - simpl. destruct o as [sep|w|pre|suf|b]; simpl;
      try (apply IH; apply elem_of_cons in Hin as [?|?]; done).
    destruct (String.eqb pre "") eqn:He; [done|].
    apply IH. apply elem_of_cons in Hin as [Heq|?]; [|done].
    injection Heq as <-. done.
Qed.

(** A string put together around a comma holds a comma. *)
Lemma comma_in_app (a b : string) :
  existsb (Ascii.eqb ","%char) (list_ascii_of_string (a +:+ "," +:+ b)) = true.
Proof.
  induction a as [|c a IH]; simpl; [done|].
  by rewrite IH, orb_true_r.
Qed.

(** [Compile] returns the error of the empty prefix exactly when the
    options hold [SetPrefix] with the empty string, whatever the pattern
    and the other options are. *)
Theorem empty_prefix_rejected (pattern : string) (options : list Option) :
  Compile pattern options = Ok (inr errEmptyPrefix) <->
  SetPrefix "" ∈ options.
Proof.
  split.
  - intros [[_ H]|(p & piece & _ & _ & _ & H)]%Compile_error; [done|].
    exfalso.
    assert (Hno : existsb (Ascii.eqb ","%char)
                    (list_ascii_of_string errEmptyPrefix) = false) by done.
    destruct H as [[_ He]|[[_ He]|[_ He]]].
    + rewrite He in Hno. unfold errSuffixNotFound in Hno.
      change ("pathmatch: " +:+ piece +:+ ", suffix " +:+ dq +:+ Suffix p
              +:+ dq +:+ " not found")
        with (("pathmatch: " +:+ piece) +:+ ","
              +:+ (" suffix " +:+ dq +:+ Suffix p +:+ dq +:+ " not found"))
        in Hno.
      by rewrite comma_in_app in Hno.
    + rewrite He in Hno. unfold errNoName in Hno.
      change ("pathmatch: " +:+ piece +:+ ", prefix " +:+ dq +:+ Suffix p
              +:+ dq +:+ " must be followed by name")
        with (("pathmatch: " +:+ piece) +:+ ","
              +:+ (" prefix " +:+ dq +:+ Suffix p +:+ dq
                   +:+ " must be followed by name"))
        in Hno.
      by rewrite comma_in_app in Hno.
    + done.
  - intros Hin. unfold Compile.
    by rewrite applyOptions_empty_prefix.
Qed.

End EmptyPrefix.

(* ===================================================================== *)
(** * More on the rule tables *)
(* ===================================================================== *)

Section PolicyMore.

Variable Hash : Rule -> string.

Import Policy.

(** The table knows a rule by its fingerprint only.  When [r1] is added
    to a table that has no rule with its fingerprint, a rule [r2] with
    the same fingerprint (be it [r1] itself) is then refused by
    [AddRule], which leaves [r1] stored, and accepted by [RemoveRule],
    which removes [r1]: the rule map is back to what it was, and the
    events emitted are [RULE_ADDED] with [r1] and [RULE_REMOVED] with
    [r2]. *)
Theorem RemoveRule_by_fingerprint (r1 r2 : Rule) (p : Policy) :
  ruleMap p !! Hash r1 = None -> Hash r2 = Hash r1 ->
  exists p1 p2 : Policy,
    AddRule Hash r1 p = ((true, None), p1) /\
    ruleMap p1 !! Hash r2 = Some r1 /\
    AddRule Hash r2 p1 = ((false, None), p1) /\
    RemoveRule Hash r2 p1 = ((true, None), p2) /\
    ruleMap p2 = ruleMap p /\
    emitted p2 = emitted p ++ [EVT_RULE_ADDED r1; EVT_RULE_REMOVED r2].
Proof.
  intros Habs Hh. unfold AddRule at 1. rewrite Habs.
  eexists _, _. split; [reflexivity|].
  unfold AddRule, RemoveRule. simpl. rewrite Hh, lookup_insert_eq.
  split_and!; try done.
  - simpl. by rewrite delete_insert_eq, delete_id.
  - simpl. by rewrite <- app_assoc.
Qed.

Lemma balance_snoc (evts : list Event) (e : Event) :
  balance (evts ++ [e])
  = match e with
    | EVT_RULE_ADDED _ => balance evts + 1
    | EVT_RULE_REMOVED _ => balance evts - 1
    | EVT_CLEARED => 0
    end.
Proof. unfold balance. by rewrite foldl_app. Qed.

(** In every table built from [NewPolicy] by [AddRule], [RemoveRule]
    and [Clear], each rule is stored under its own fingerprint, and the
    number of rules stored is the one the emitted events account for:
    the rules added less the rules removed since the last clear. *)
Theorem built_table_invariants (p : Policy) :
  built Hash p ->
  (forall (k : string) (r : Rule), ruleMap p !! k = Some r -> Hash r = k) /\
  Z.of_nat (size (ruleMap p)) = balance (emitted p).
Proof.
  induction 1 as [|rule p Hb [IHk IHs]|rule p Hb [IHk IHs]|p Hb [IHk IHs]].
  - split; [|done]. intros k r H. simpl in H. by rewrite lookup_empty in H.
  - unfold AddRule. destruct (ruleMap p !! Hash rule) as [old|] eqn:Hl;
      simpl; [done|].
    split.
    + intros k r. destruct (decide (k = Hash rule)) as [->|Hn].
      * rewrite lookup_insert_eq. by intros [= <-].
      * rewrite lookup_insert_ne by done. apply IHk.
    + rewrite balance_snoc, map_size_insert_None by done. lia.
  - unfold RemoveRule. destruct (ruleMap p !! Hash rule) as [old|] eqn:Hl;
      simpl; [|done].
    split.
    + intros k r Hk. apply lookup_delete_Some in Hk as [_ Hk]. by apply IHk.
    + rewrite balance_snoc, map_size_delete, Hl.
      assert (size (ruleMap p) <> 0%nat).
      { intros H0%map_size_empty_inv. by rewrite H0, lookup_empty in Hl. }
      lia.
  - simpl. split.
    + intros k r H. by rewrite lookup_empty in H.
    + by rewrite balance_snoc.
Qed.

End PolicyMore.

Section PolicyRange.

Import Policy.

(** The order in which a [range] over the rule map yields the rules
    stored: each one once. *)
Variable mapOrder : gmap string Rule -> list Rule.
Hypothesis mapOrder_values :
  forall m : gmap string Rule, mapOrder m ≡ₚ (map_to_list m).*2.






End PolicyRange.

(* ===================================================================== *)
(** * The links of the role graph *)
(* ===================================================================== *)

Section RbacLinks.

Import Rbac.

Variable rangeOrder : gset string -> list string.
Hypothesis rangeOrder_elem :
  forall (X : gset string) (x : string), x ∈ rangeOrder X <-> x ∈ X.
Hypothesis rangeOrder_NoDup : forall X : gset string, NoDup (rangeOrder X).

Lemma rangeUserLinks_record (continue : bool) (user : string)
    (red : gset string) (roleNames : list string) :
  forall seen : list (string * string),
  rangeUserLinks user red roleNames (recordLinks continue) seen
  = seen ++ (pair user <$> shown continue
                             (filter (fun r => r ∉ red) roleNames)).
Proof.
  induction roleNames as [|r rest IH]; intros seen; simpl.
  - destruct continue; simpl; by rewrite app_nil_r.
  - case_bool_decide as Hr.
    + rewrite filter_cons_False by (intros H; by apply H). apply IH.
    + rewrite filter_cons_True by done. destruct continue; simpl.
      * rewrite IH. simpl. by rewrite <- app_assoc.
      * done.
Qed.

Lemma rangeLinksOver_record (continue : bool) (users : Store)
    (names : list string) :
  forall seen : list (string * string),
  rangeLinksOver rangeOrder users names (recordLinks continue) seen
  = seen ++ foldr (fun n acc => linksOfUser rangeOrder continue users n ++ acc) [] names.
Proof.
  induction names as [|n rest IH]; intros seen; simpl.
  - by rewrite app_nil_r.
  - unfold linksOfUser at 1. destruct (users !! n) as [user|].
    + rewrite IH, rangeUserLinks_record. by rewrite <- app_assoc.
    + by rewrite IH.
Qed.

Lemma elem_of_shown (continue : bool) (l : list string) (x : string) :
  x ∈ shown continue l -> x ∈ l.
Proof.
  destruct continue; simpl; [done|].
  destruct l as [|y l]; simpl; [done|].
  rewrite take_0. intros ->%list_elem_of_singleton. apply elem_of_cons.
  by left.
Qed.

Lemma NoDup_shown (continue : bool) (l : list string) :
  NoDup l -> NoDup (shown continue l).
Proof.
  destruct continue; simpl; [done|].
  destruct l as [|y l]; simpl; [done|]. intros _. rewrite take_0.
  apply NoDup_singleton.
Qed.

Lemma elem_of_linksOfUser (continue : bool) (users : Store)
    (n u r : string) :
  (u, r) ∈ linksOfUser rangeOrder continue users n ->
  u = n /\ exists user, users !! u = Some user /\ r ∈ roles user /\
                        r ∉ redundant user.
Proof.
  unfold linksOfUser. destruct (users !! n) as [user|] eqn:Hn.
  - intros (r' & [= -> ->] & Hin)%list_elem_of_fmap.
    split; [done|]. exists user. split; [done|].
    apply elem_of_shown, list_elem_of_filter in Hin as [Hnr Hin].
    by apply rangeOrder_elem in Hin.
  - intros Hin. by apply elem_of_nil in Hin.
Qed.

Lemma NoDup_linksOfUser (continue : bool) (users : Store) (n : string) :
  NoDup (linksOfUser rangeOrder continue users n).
Proof.
  unfold linksOfUser. destruct (users !! n) as [user|]; [|apply NoDup_nil_2].
  apply NoDup_fmap_2; [by intros ?? [= ?]|].
  apply NoDup_shown, NoDup_filter, rangeOrder_NoDup.
Qed.

Lemma links_over (continue : bool) (users : Store) (names : list string) :
  NoDup names ->
  let links :=
    foldr (fun n acc => linksOfUser rangeOrder continue users n ++ acc) [] names in
  NoDup links /\
  (forall u r : string, (u, r) ∈ links <->
     u ∈ names /\ (u, r) ∈ linksOfUser rangeOrder continue users u) /\
  (continue = false -> NoDup links.*1).
Proof.
  induction 1 as [|n rest Hn Hnd IH]; simpl.
  - split_and!; [apply NoDup_nil_2| |intros; apply NoDup_nil_2].
    intros u r. split; [by intros ?%elem_of_nil|].
    by intros [?%elem_of_nil _].
  - destruct IH as (IHnd & IHin & IHfst).
    assert (Hhere : forall u r : string,
              (u, r) ∈ linksOfUser rangeOrder continue users n -> u = n).
    { intros u r H. by apply elem_of_linksOfUser in H as [-> _]. }
    split_and!.
    + apply NoDup_app. split_and!; [apply NoDup_linksOfUser| |done].
      intros [u r] H1 H2. apply Hhere in H1 as ->.
      apply IHin in H2 as [? _]. done.
    + intros u r. rewrite elem_of_app, IHin, elem_of_cons. split.
      * intros [H|[H1 H2]]; [|by auto].
        pose proof (Hhere u r H) as ->. auto.
      * intros [[->|H1] H2]; [by left|by right].
    + intros ->. rewrite fmap_app. apply NoDup_app. split_and!.
      * unfold linksOfUser. destruct (users !! n) as [user|];
          [|apply NoDup_nil_2].
        simpl. destruct (filter _ _) as [|x l]; simpl;
          [apply NoDup_nil_2|]. rewrite ?take_0. apply NoDup_singleton.
      * intros u H1 H2.
        apply list_elem_of_fmap in H1 as (x1 & Hx1 & H1).
        apply list_elem_of_fmap in H2 as (x2 & Hx2 & H2).
        destruct x1 as [u1 r1], x2 as [u2 r2]. simpl in Hx1, Hx2.
        subst u1 u2. apply Hhere in H1 as ->.
        apply IHin in H2 as [? _]. done.
      * by apply IHfst.
Qed.

(** [Range] over the links of the role graph does not stop when the
    visitor returns [false]: only the links of the user at hand are
    left out.  A visitor that always returns [true] is given every link
    from a stored role to a role it inherits that is not marked
    redundant, once; a visitor that always returns [false] is still
    given one such link of every stored role that has one. *)
Theorem Range_does_not_stop {Cache : Type} (continue : bool)
    (rm : RoleManager Cache) :
  let seen := Range rangeOrder (recordLinks continue) rm [] in
  NoDup seen /\
  (forall u r : string, (u, r) ∈ seen ->
     exists user, allRoles rm !! u = Some user /\ r ∈ roles user /\
                  r ∉ redundant user) /\
  (continue = true ->
   forall (u r : string) (user : Role),
     allRoles rm !! u = Some user -> r ∈ roles user ->
     r ∉ redundant user -> (u, r) ∈ seen) /\
  (continue = false ->
   NoDup seen.*1 /\
   forall (u : string) (user : Role),
     allRoles rm !! u = Some user -> roles user ∖ redundant user <> ∅ ->
     exists r : string, (u, r) ∈ seen).
Proof.
  unfold Range, rangeLinks. rewrite rangeLinksOver_record. simpl.
  destruct (links_over continue (allRoles rm) (rangeOrder (dom (allRoles rm)))
              (rangeOrder_NoDup _)) as (Hnd & Hin & Hfst).
  split_and!; [done| | |].
  - intros u r [_ H]%Hin. by apply elem_of_linksOfUser in H as [_ ?].
  - intros -> u r user Hu Hr Hnr. apply Hin. split.
    + apply rangeOrder_elem, elem_of_dom. by eexists.
    + unfold linksOfUser. rewrite Hu. simpl.
      apply list_elem_of_fmap. exists r. split; [done|].
      apply list_elem_of_filter. split; [done|]. by apply rangeOrder_elem.
  - intros ->. split; [by apply Hfst|].
    intros u user Hu Hne.
    assert (Hex : exists r, r ∈ roles user /\ r ∉ redundant user).
    { apply set_choose_L in Hne as [r Hr]. exists r.
      by apply elem_of_difference in Hr. }
    destruct Hex as (r & Hr & Hnr).
    assert (Hf : r ∈ filter (fun r => r ∉ redundant user)
                            (rangeOrder (roles user))).
    { apply list_elem_of_filter. split; [done|]. by apply rangeOrder_elem. }
    destruct (filter (fun r => r ∉ redundant user) (rangeOrder (roles user)))
      as [|x l] eqn:Hfl; [by apply elem_of_nil in Hf|].
    exists x. apply Hin. split.
    + apply rangeOrder_elem, elem_of_dom. by eexists.
    + unfold linksOfUser. rewrite Hu, Hfl. simpl. rewrite ?take_0.
      apply list_elem_of_singleton. done.
Qed.

End RbacLinks.

(* ===================================================================== *)
(** * The cache of sub-matcher results *)
(* ===================================================================== *)

Section RbacMatchCache.

Import Rbac.

Context {Cache : Type}.
Variable cacheGet : string -> Cache -> option bool * Cache.
Variable cachePut : string -> bool -> Cache -> Cache.

(** What is put into the cache is found there by the next [Get] of the
    same key. *)
Hypothesis cacheGet_Put :
  forall (k : string) (v : bool) (c : Cache),
    (cacheGet k (cachePut k v c)).1 = Some v.

(** [match] answers from the cache by the key [str$$pattern] alone.
    When the cache has no entry for that key, [match] returns what the
    matcher says of the pair and records it; a later call for any pair
    with the same key, be it a different pair, returns that answer
    whatever the matcher says of the later pair. *)
Theorem match_answers_by_key (str pattern str' pattern' : string)
    (m : IMatcher) (rm : RoleManager Cache) :
  matcher rm = Some m ->
  (cacheGet (str +:+ "$$" +:+ pattern) (matchingFuncCache rm)).1 = None ->
  str' +:+ "$$" +:+ pattern' = str +:+ "$$" +:+ pattern ->
  exists rm1 rm2 : RoleManager Cache,
    rm_match Cache cacheGet cachePut str pattern rm
    = Ok (Match m str pattern, rm1) /\
    rm_match Cache cacheGet cachePut str' pattern' rm1
    = Ok (Match m str pattern, rm2) /\
    allRoles rm2 = allRoles rm /\ patternRoles rm2 = patternRoles rm.
Proof.
  intros Hm Hmiss Hkey. unfold rm_match. rewrite Hkey, Hm.
  destruct (cacheGet (str +:+ "$$" +:+ pattern) (matchingFuncCache rm))
    as [[v|] c] eqn:Hg; [done|].
  set (key := str +:+ "$$" +:+ pattern) in *.
  exists (setCache Cache (cachePut key (Match m str pattern) c) rm).
  cbn [matchingFuncCache setCache].
  pose proof (cacheGet_Put key (Match m str pattern) c) as Hhit.
  destruct (cacheGet key (cachePut key (Match m str pattern) c))
    as [[v|] c2]; simpl in Hhit; [|done].
  injection Hhit as ->. eexists. split_and!; reflexivity.
Qed.

End RbacMatchCache.

(* ===================================================================== *)
(** * Filter and the rules the effector is shown *)
(* ===================================================================== *)

Section EnforcerFilter.

Context {Err : Type}.
Variable MergeEffects :
  list Effect -> list Rule -> bool -> Effect * list Z * option Err.
Variable GetEft : Rule -> Effect.
Variable evalMatcher : Rule -> Err + bool.

Import Enforcer.

Lemma RangeMatches_collect (rules : list Rule) :
  forall collected : list Rule,
  RangeMatches evalMatcher rules
    (fun rule collected => (true, collected ++ [rule])) collected
  = ((matched evalMatcher rules).2,
     collected ++ (matched evalMatcher rules).1).
Proof.
  induction rules as [|rule rest IH]; intros collected; simpl.
  - by rewrite app_nil_r.
  - destruct (evalMatcher rule) as [e|[|]]; simpl.
    + by rewrite app_nil_r.
    + rewrite IH. destruct (matched evalMatcher rest) as [ms merr]. simpl.
      by rewrite <- app_assoc.
    + apply IH.
Qed.

Lemma matched_no_error (rules : list Rule) :
  (forall rule : Rule, rule ∈ rules -> exists b, evalMatcher rule = inr b) ->
  matched evalMatcher rules
  = (filter (fun rule => selects evalMatcher rule = true) rules, None).
Proof.
  induction rules as [|rule rest IH]; intros H; simpl; [done|].
  destruct (H rule) as [b Hb]; [apply elem_of_cons; by left|].
  assert (Hrest : forall r : Rule, r ∈ rest -> exists b, evalMatcher r = inr b)
    by (intros r Hr; apply H, elem_of_cons; by right).
  rewrite Hb, (IH Hrest). destruct b.
  - rewrite filter_cons_True; [done|]. unfold selects. by rewrite Hb.
  - rewrite filter_cons_False; [done|]. unfold selects. by rewrite Hb.
Qed.

(** [FilterWithContext] returns the rules the matcher selects, in the
    order of the range and whatever their effects; when the matcher
    fails on a rule it returns the rules selected before that rule
    together with the error.  The rules [enforce] shows the effector
    in any of its calls are the first ones of that list. *)
Theorem Filter_collects_matches (rules : list Rule) :
  FilterWithContext evalMatcher rules = matched evalMatcher rules /\
  ((forall rule : Rule, rule ∈ rules -> exists b, evalMatcher rule = inr b) ->
   FilterWithContext evalMatcher rules
   = (filter (fun rule => selects evalMatcher rule = true) rules, None)) /\
  (forall (pre : list Rule) (rule : Rule) (post : list Rule) (e : Err),
     rules = pre ++ rule :: post ->
     (forall r : Rule, r ∈ pre -> exists b, evalMatcher r = inr b) ->
     evalMatcher rule = inl e ->
     FilterWithContext evalMatcher rules
     = (filter (fun rule => selects evalMatcher rule = true) pre, Some e)) /\
  (forall c : Call,
     c ∈ (enforce MergeEffects GetEft evalMatcher rules).2 ->
     call_matches c `prefix_of` (FilterWithContext evalMatcher rules).1).
Proof.
  assert (Hf : FilterWithContext evalMatcher rules
               = matched evalMatcher rules).
  { unfold FilterWithContext. rewrite RangeMatches_collect. simpl.
    by destruct (matched evalMatcher rules). }
  split_and!; [done| | |].
  - intros H. by rewrite Hf, matched_no_error.
  - intros pre rule post e -> Hpre He. rewrite Hf. clear Hf.
    induction pre as [|r pre IH]; simpl.
    + by rewrite He.
    + destruct (Hpre r) as [b Hb]; [apply elem_of_cons; by left|].
      rewrite Hb, IH
        by (intros r' Hr'; apply Hpre, elem_of_cons; by right).
      destruct b.
      * rewrite filter_cons_True; [done|]. unfold selects. by rewrite Hb.
      * rewrite filter_cons_False; [done|]. unfold selects. by rewrite Hb.
  - intros c Hc. rewrite Hf. rewrite enforce_cases in Hc.
    set (ms := (matched evalMatcher rules).1) in *.
    assert (Hstream : forall n : nat,
              c ∈ map (streamCall GetEft ms) (seq 1 n) ->
              call_matches c `prefix_of` ms).
    { intros n (k & -> & _)%list_elem_of_fmap. simpl.
      apply prefix_take. }
    destruct (firstStop MergeEffects GetEft ms) as [n|]; simpl in Hc.
    + by eapply Hstream.
    + apply elem_of_app in Hc as [Hc|Hc]; [by eapply Hstream|].
      destruct (notNil _); [by apply elem_of_nil in Hc|].
      apply list_elem_of_singleton in Hc as ->. done.
Qed.

End EnforcerFilter.

(* ===================================================================== *)
(** * The further properties on concrete inputs *)
(* ===================================================================== *)

(** [/foo/:name] on [/foo/bar] and on [/foo]. *)
Lemma getMatch_walks_input_witness :
  Pathmatch.FindSubmatch 4 Examples.fooName "/foo/bar"
  = Pathmatch.walked Examples.fooName
      (Pathmatch.matchFrom "/" (Pathmatch.Segments Examples.fooName)
         "/foo/bar" (Pathmatch.mkDraft true ∅)) /\
  Pathmatch.PathMatch 4 Examples.fooName "/foo/bar"
  = match Pathmatch.matchFrom "/" (Pathmatch.Segments Examples.fooName)
            "/foo/bar" (Pathmatch.mkDraft false ∅) with
    | Ok r => Ok (bool_decide (r <> None), Examples.fooName)
    | Panic => Panic
    | OutOfFuel => OutOfFuel
    end.
Proof.
  apply (getMatch_walks_input "/foo/:name" [] Examples.fooName "/foo/bar" 4).
  - vm_compute. reflexivity.
  - assert (HF : Forall (fun piece => piece <> "*")
                   (Str.Split "/foo/:name" "/"))
      by (apply (bool_decide_unpack _); vm_compute; exact I).
    intros i piece _ Hp. exact (Forall_lookup_1 _ _ _ _ HF Hp).
  - simpl. lia.
Defined.

(** [/foo/bar] is static. *)
Lemma IsStatic_iff_witness : Pathmatch.IsStatic Examples.fooBar = true.
Proof.
  apply (IsStatic_iff "/foo/bar" [] Examples.fooBar).
  - vm_compute. reflexivity.
  - assert (HF : Forall (fun piece => piece <> "*" /\
                                      Str.Index piece ":" = None)
                   (Str.Split "/foo/bar" "/"))
      by (apply (bool_decide_unpack _); vm_compute; exact I).
    intros piece Hin. rewrite Forall_forall in HF. by apply HF.
Defined.

(** [/foo/bar] matches [/foo/bar] and not [/foo/baz]. *)
Lemma static_path_matches_its_pattern_witness :
  Pathmatch.PathMatch 4 Examples.fooBar "/foo/baz"
  = Ok (bool_decide ("/foo/baz" = "/foo/bar"), Examples.fooBar) /\
  Pathmatch.FindSubmatch 4 Examples.fooBar "/foo/baz"
  = Ok (if bool_decide ("/foo/baz" = "/foo/bar") then Some ∅ else None,
        Examples.fooBar).
Proof.
  apply (static_path_matches_its_pattern "/foo/bar" [] Examples.fooBar
           "/foo/baz" 4).
  - vm_compute. reflexivity.
  - done.
  - vm_compute. reflexivity.
  - simpl. lia.
Defined.

(** The piece [index.html?x=1] for the segment of [index.:ext?:p1=:v1]. *)
Lemma mixed_segment_match_witness :
  exists values : list string,
    length values = 3%nat /\
    "index.html?x=1" = Pathmatch.weave ["index."; "?"; "="; ""] values.
Proof.
  destruct mixed_segment_match as [_ H].
  edestruct (H ["ext"; "p1"; "v1"] ["index."; "?"; "="; ""]
               (Pathmatch.mkDraft true ∅) "index.html?x=1")
    as (values & Hl & Hs & _).
  - done.
  - done.
  - vm_compute. reflexivity.
  - exists values. split; [exact Hl|exact Hs].
Defined.

(** [/foo/:name] on [/foo/bar], piece by piece. *)
Lemma FindSubmatch_by_pieces_witness :
  exists d' : Pathmatch.matchDraft,
    Pathmatch.acceptAll (Pathmatch.Segments Examples.fooName)
      (Str.Split "/foo/bar" "/") (Pathmatch.mkDraft true ∅) = Ok (Some d') /\
    Pathmatch.dmatch d' = {["name" := "bar"]}.
Proof.
  destruct (FindSubmatch_by_pieces "/foo/:name" [] Examples.fooName
              "/foo/bar" 4) as [H _].
  - vm_compute. reflexivity.
  - done.
  - assert (HF : Forall (fun piece => piece <> "*")
                   (Str.Split "/foo/:name" "/"))
      by (apply (bool_decide_unpack _); vm_compute; exact I).
    intros piece Hin. rewrite Forall_forall in HF. by apply HF.
  - simpl. lia.
  - apply H. vm_compute. reflexivity.
Defined.

(** [/:id/x/:id] with the equality check on [/7/x/7]. *)
Lemma equality_check_binds_keys_witness :
  Str.Split "/7/x/7" "/" !! 1%nat = Str.Split "/7/x/7" "/" !! 3%nat.
Proof.
  destruct (equality_check_binds_keys "/:id/x/:id"
              [Pathmatch.EnableEqualityCheck true] Examples.idTwice
              "/7/x/7" 5) as [_ H].
  - vm_compute. reflexivity.
  - reflexivity.
  - done.
  - assert (HF : Forall (fun seg =>
                   Pathmatch.segType seg = Pathmatch.SegType.Static \/
                   Pathmatch.segType seg = Pathmatch.SegType.Parameterized)
                   (Pathmatch.Segments Examples.idTwice))
      by (apply (bool_decide_unpack _); vm_compute; exact I).
    intros seg Hin. rewrite Forall_forall in HF. by apply HF.
  - simpl. lia.
  - apply (H Examples.idTwice) with (key := "id") (eci := true) (ecj := true).
    + vm_compute. reflexivity.
    + reflexivity.
    + reflexivity.
Defined.

(** The last piece of [/foo/:name]. *)
Lemma parameter_piece_witness :
  Pathmatch.Segments Examples.fooName !! 2%nat
  = Some (Pathmatch.paramSegment "name" false).
Proof.
  apply (parameter_piece "/foo/:name" Examples.fooName 2 "name").
  - vm_compute. reflexivity.
  - vm_compute. reflexivity.
  - done.
  - reflexivity.
Defined.

(** [*a] with the empty separator on [b]. *)
Lemma empty_separator_never_returns_witness :
  Pathmatch.PathMatch 1000 Examples.starA "b" = OutOfFuel /\
  Pathmatch.FindSubmatch 1000 Examples.starA "b" = OutOfFuel.
Proof.
  apply (empty_separator_never_returns Examples.starA "$0" "a" [] "b" 1000).
  - reflexivity.
  - reflexivity.
  - done.
  - reflexivity.
Defined.

(** [ab] with the empty separator on [ab]. *)
Lemma empty_separator_static_never_matches_witness :
  Pathmatch.PathMatch 3 Examples.abUnseparated "ab"
  = Ok (false, Examples.abUnseparated) /\
  Pathmatch.FindSubmatch 3 Examples.abUnseparated "ab"
  = Ok (None, Examples.abUnseparated).
Proof.
  apply (empty_separator_static_never_matches "ab"
           [Pathmatch.SetSeperator ""] Examples.abUnseparated "ab" 3).
  - vm_compute. reflexivity.
  - reflexivity.
  - vm_compute. reflexivity.
  - done.
  - simpl. lia.
Defined.

(** The empty prefix after another option. *)
Lemma empty_prefix_rejected_witness :
  Pathmatch.Compile "/a" [Pathmatch.SetSeperator "-"; Pathmatch.SetPrefix ""]
  = Ok (inr Pathmatch.errEmptyPrefix).
Proof.
  apply (empty_prefix_rejected "/a"
           [Pathmatch.SetSeperator "-"; Pathmatch.SetPrefix ""]).
  apply elem_of_cons. right. apply elem_of_cons. left. reflexivity.
Defined.

(** Two rules of [alice] that differ in the third column, under a
    fingerprint of the first two. *)
Lemma RemoveRule_by_fingerprint_witness :
  exists p1 p2 : Policy.Policy,
    Policy.AddRule Examples.firstTwo ["p"; "alice"; "data1"] Policy.NewPolicy
    = ((true, None), p1) /\
    Policy.ruleMap p1 !! Examples.firstTwo ["p"; "alice"; "data2"]
    = Some ["p"; "alice"; "data1"] /\
    Policy.AddRule Examples.firstTwo ["p"; "alice"; "data2"] p1
    = ((false, None), p1) /\
    Policy.RemoveRule Examples.firstTwo ["p"; "alice"; "data2"] p1
    = ((true, None), p2) /\
    Policy.ruleMap p2 = Policy.ruleMap Policy.NewPolicy /\
    Policy.emitted p2
    = Policy.emitted Policy.NewPolicy
      ++ [Policy.EVT_RULE_ADDED ["p"; "alice"; "data1"];
          Policy.EVT_RULE_REMOVED ["p"; "alice"; "data2"]].
Proof.
  apply (RemoveRule_by_fingerprint Examples.firstTwo
           ["p"; "alice"; "data1"] ["p"; "alice"; "data2"] Policy.NewPolicy).
  - reflexivity.
  - reflexivity.
Defined.

(** The table after one rule was added. *)
Lemma built_table_invariants_witness :
  Z.of_nat
    (size (Policy.ruleMap
             (Policy.AddRule Examples.firstTwo ["p"; "alice"; "data1"]
                Policy.NewPolicy).2))
  = Policy.balance
      (Policy.emitted
         (Policy.AddRule Examples.firstTwo ["p"; "alice"; "data1"]
            Policy.NewPolicy).2).
Proof.
  apply (built_table_invariants Examples.firstTwo).
  apply Policy.built_add, Policy.built_new.
Defined.


(** The links of [alice] and [bob] shown to a visitor that returns
    [false]. *)
Lemma Range_does_not_stop_witness :
  NoDup (Rbac.Range elements (Rbac.recordLinks false) Examples.linkedRoles []).
Proof.
  apply (Range_does_not_stop elements (fun X x => elem_of_elements X x)
           (fun X => NoDup_elements X) false Examples.linkedRoles).
Defined.

(** The pairs [(a$$, b)] and [(a, $$b)] have the same key. *)
Lemma match_answers_by_key_witness :
  exists rm1 rm2 : Rbac.RoleManager (gmap string bool),
    Rbac.rm_match (gmap string bool) Examples.mapCacheGet Examples.mapCachePut
      "a$$" "b" Examples.cachingManager
    = Ok (Rbac.Match Examples.oneMatcher "a$$" "b", rm1) /\
    Rbac.rm_match (gmap string bool) Examples.mapCacheGet Examples.mapCachePut
      "a" "$$b" rm1
    = Ok (Rbac.Match Examples.oneMatcher "a$$" "b", rm2) /\
    Rbac.allRoles rm2 = Rbac.allRoles Examples.cachingManager /\
    Rbac.patternRoles rm2 = Rbac.patternRoles Examples.cachingManager.
Proof.
  apply (match_answers_by_key Examples.mapCacheGet Examples.mapCachePut
           (fun k v c => lookup_insert_eq c k v)
           "a$$" "b" "a" "$$b" Examples.oneMatcher Examples.cachingManager).
  - reflexivity.
  - reflexivity.
  - reflexivity.
Defined.

(** The rules of [alice] on [data1] in the example policy. *)
Lemma Filter_collects_matches_witness :
  Enforcer.FilterWithContext
    (Examples.exactMatcher ["alice"; "data1"; "read"]) Examples.somePolicy
  = (filter (fun rule =>
               Enforcer.selects
                 (Examples.exactMatcher ["alice"; "data1"; "read"]) rule
               = true) Examples.somePolicy, None).
Proof.
  destruct (Filter_collects_matches Examples.allowOverride Examples.eftOf
              (Examples.exactMatcher ["alice"; "data1"; "read"])
              Examples.somePolicy) as (_ & H & _).
  apply H. intros rule _. eexists. reflexivity.
Defined.

(* ===================================================================== *)
(** * Paths that always return *)
(* ===================================================================== *)

Section PathmatchTotal.

Import Str Pathmatch.

Lemma mixedKeys_Ok (static : list string) (s : string) (keys : list string) :
  forall (i keyEnd : nat) (m : matchDraft),
  (keyEnd <= len s)%nat -> (i + length keys < length static)%nat ->
  exists (r : option nat) (m' : matchDraft),
    mixedKeys static s keys i keyEnd m = Ok (r, m').
Proof.
  induction keys as [|key rest IH]; intros i keyEnd m Hle Hlen; simpl.
  - by eexists _, _.
  - simpl in Hlen.
    destruct (lookup_lt_is_Some_2 static i ltac:(lia)) as [lit ->].
    destruct (Index (dropS keyEnd s) lit) as [[|?]|] eqn:Hi;
      try (by eexists _, _).
    destruct (lookup_lt_is_Some_2 static (S i) ltac:(lia)) as [next ->].
    pose proof (Index_bound _ _ _ Hi) as Hb. rewrite len_dropS in Hb.
    assert (Hkl : exists keyLen : option nat,
              (if String.eqb next "" then Some (len (dropS (keyEnd + len lit) s))
               else Index (dropS (keyEnd + len lit) s) next) = keyLen /\
              forall k, keyLen = Some k ->
                        (keyEnd + len lit + k <= len s)%nat).
    { eexists. split; [reflexivity|]. intros k.
      destruct (String.eqb next "").
      - intros [= <-]. rewrite len_dropS. lia.
      - intros Hk%Index_bound. rewrite len_dropS in Hk. lia. }
    destruct Hkl as (keyLen & -> & Hk).
    destruct keyLen as [k|]; [|by eexists _, _].
    specialize (Hk k eq_refl).
    destruct (slice_in_range s (keyEnd + len lit) (keyEnd + len lit + k)
                ltac:(lia) Hk) as [value ->].
    apply IH; lia.
Qed.

Lemma accept_Ok (seg : Segment) (d : matchDraft) (piece : string) :
  shaped seg -> exists r, accept seg d piece = Ok r.
Proof.
  intros Hs. unfold accept. destruct seg as [value|key ec|key|keys static];
    simpl.
  - destruct (negb _); by eexists.
  - destruct (dmatch d !! key); [destruct (_ && _)|]; by eexists.
  - by eexists.
  - simpl in Hs.
    destruct (mixedKeys_Ok static piece keys 0 0 d ltac:(lia) ltac:(lia))
      as (r & m' & ->).
    destruct r as [keyEnd|]; [|by eexists].
    rewrite last_lookup, Hs. simpl.
    destruct (lookup_lt_is_Some_2 static (length keys) ltac:(lia)) as [x ->].
    destruct (negb _); by eexists.
Qed.

Lemma matchFrom_Ok (sep : string) (segs : list Segment) :
  Forall shaped segs ->
  forall (s : string) (d : matchDraft),
  exists r, matchFrom sep segs s d = Ok r.
Proof.
  induction 1 as [|seg rest Hseg Hrest IH]; intros s d.
  - simpl. by eexists.
  - destruct rest as [|seg2 rest].
    + simpl. destruct (Multiple seg); [by apply accept_Ok|].
      destruct (Index s sep) as [k|]; [|by apply accept_Ok].
      destruct (accept_Ok seg d (takeS k s) Hseg) as [r ->]. by eexists.
    + rewrite matchFrom_cons.
      destruct (Index s sep) as [k|]; [|by eexists].
      destruct (accept_Ok seg d (takeS k s) Hseg) as [[d'|] ->];
        [apply IH|by eexists].
Qed.

Lemma Compile_shaped (pattern : string) (options : list Option) (p : Path) :
  Compile pattern options = Ok (inl p) -> Forall shaped (Segments p).
Proof.
  intros Hc. apply Forall_forall. intros seg (i & Hi)%list_elem_of_lookup_1.
  destruct seg as [value|key ec|key|keys static]; try done. simpl.
  destruct (Compile_index _ _ _ Hc) as [Hlen Hidx].
  destruct (lookup_lt_is_Some_2 (Split pattern (Seperator p)) i)
    as [piece Hp].
  { rewrite <- Hlen. by eapply lookup_lt_Some. }
  destruct (Hidx i piece Hp) as (seg & u & u' & Hs & Hcs).
  rewrite Hi in Hs. injection Hs as <-.
  by apply compileSegment_mixed in Hcs as [_ ?].
Qed.

(** A path whose pattern has no wildcard piece before the last one
    always answers, call after call: on such a path as [Compile]
    returns it, with fuel for one iteration per segment and one more,
    [Match] and [FindSubmatch] return (they neither panic nor run on),
    and the path they leave is the path they were given, so that the
    same holds of every later call. *)
Theorem Match_always_returns (pattern : string) (options : list Option)
    (p : Path) (s : string) (fuel : nat) :
  Compile pattern options = Ok (inl p) ->
  (forall (i : nat) (piece : string),
     (S i < length (Split pattern (Seperator p)))%nat ->
     Split pattern (Seperator p) !! i = Some piece -> piece <> Wildcard p) ->
  (length (Segments p) < fuel)%nat ->
  exists (b : bool) (m : option Match),
    PathMatch fuel p s = Ok (b, p) /\ FindSubmatch fuel p s = Ok (m, p).
Proof.
  intros Hc Hp Hf.
  pose proof (Compile_fresh _ _ _ Hc) as Hv.
  pose proof (Compile_wildcardOnlyLast _ _ _ Hc Hp) as Hw.
  pose proof (Compile_shaped _ _ _ Hc) as Hsh.
  unfold PathMatch, FindSubmatch. rewrite !getMatch_matchFrom by done.
  destruct (matchFrom_Ok (Seperator p) (Segments p) Hsh s
              (newMatchDraft (false || pequalCheck p) (pmatch p))) as [r1 ->].
  destruct (matchFrom_Ok (Seperator p) (Segments p) Hsh s
              (newMatchDraft true (pmatch p))) as [r2 ->].
  simpl. by eexists _, _.
Qed.

End PathmatchTotal.

(* ===================================================================== *)
(** * A wildcard at the end of a static pattern *)
(* ===================================================================== *)

Section TrailingWildcard.

Import Str Pathmatch.

Lemma Index_char (x c : ascii) (t : string) :
  Index (String x t) (String c "")
  = if Ascii.eqb c x then Some 0%nat else S <$> Index t (String c "").
Proof. simpl. rewrite andb_true_r. by destruct (Ascii.eqb c x). Qed.

Lemma Split_char_sep (c : ascii) (t : string) :
  Split (String c t) (String c "") = "" :: Split t (String c "").
Proof.
  rewrite (Split_unfold (String c t)) by done.
  rewrite Index_char, Ascii.eqb_refl. by rewrite takeS_0.
Qed.

Lemma Split_char_other (x c : ascii) (t : string) :
  x <> c ->
  Split (String x t) (String c "")
  = match Split t (String c "") with
    | h :: tl => String x h :: tl
    | [] => []
    end.
Proof.
  intros Hx. rewrite (Split_unfold (String x t)), (Split_unfold t) by done.
  rewrite Index_char.
  rewrite (proj2 (Ascii.eqb_neq c x)) by congruence.
  by destruct (Index t (String c "")).
Qed.

Lemma Split_app_char (c : ascii) (a b : string) :
  Split (a +:+ String c b) (String c "")
  = Split a (String c "") ++ Split b (String c "").
Proof.
  induction a as [|x a IH].
  - rewrite app_empty_l, Split_char_sep. by rewrite (Split_unfold "").
  - rewrite app_cons. destruct (decide (x = c)) as [->|Hx].
    + by rewrite !Split_char_sep, IH.
    + rewrite !Split_char_other by done. rewrite IH.
      pose proof (Split_not_nil a (String c "") ltac:(done)).
      by destruct (Split a (String c "")).
Qed.

Lemma Index_app_free (c : ascii) (a b : string) :
  Index a (String c "") = None ->
  Index (a +:+ String c b) (String c "") = Some (len a).
Proof.
  induction a as [|x a IH]; intros Hn.
  - rewrite app_empty_l, Index_char. by rewrite Ascii.eqb_refl.
  - rewrite app_cons, Index_char. rewrite Index_char in Hn.
    destruct (Ascii.eqb c x); [done|].
    destruct (Index a (String c "")) eqn:Ha; [done|].
    by rewrite IH.
Qed.

Lemma HasPrefix_app_same (a t e : string) :
  HasPrefix (a +:+ t) (a +:+ e) = HasPrefix t e.
Proof.
  induction a as [|x a IH]; [done|].
  rewrite !app_cons. simpl. by rewrite Ascii.eqb_refl, IH.
Qed.

Lemma Split_free (sep : string) :
  sep <> "" ->
  forall (s piece : string), piece ∈ Split s sep -> Index piece sep = None.
Proof.
  intros Hsep.
  assert (Hpos : (0 < len sep)%nat) by (destruct sep; [done|simpl; lia]).
  assert (H : forall (n : nat) (s piece : string),
            (len s <= n)%nat -> piece ∈ Split s sep ->
            Index piece sep = None).
  { induction n as [|n IH]; intros s piece Hn; rewrite Split_unfold by done;
      destruct (Index s sep) as [i|] eqn:Hi.
    - apply Index_bound in Hi. lia.
    - by intros ->%list_elem_of_singleton.
    - pose proof (Index_bound _ _ _ Hi).
      intros [->|Hin]%elem_of_cons; [by apply Index_takeS|].
      apply (IH (dropS (i + len sep) s)); [|done]. rewrite len_dropS. lia.
    - by intros ->%list_elem_of_singleton. }
  intros s piece. by apply (H (len s)).
Qed.

Lemma eachThen_concat (sep : string) (ps : list string) :
  ps <> [] -> eachThen sep ps = String.concat sep ps +:+ sep.
Proof.
  induction ps as [|x ps IH] using rev_ind; [done|]. intros _.
  by rewrite eachThen_snoc, concat_snoc, app_assoc_s.
Qed.

Lemma compileSegment_static (p : Path) (unnamed : nat) (piece : string) :
  piece <> Wildcard p -> Index piece (Prefix p) = None ->
  compileSegment p unnamed piece = Ok (inl (staticSegment piece, unnamed)).
Proof.
  intros Hw Hi. unfold compileSegment.
  by rewrite (proj2 (String.eqb_neq _ _) Hw), Hi.
Qed.

Lemma compileSegments_then_wildcard (p : Path) (ps : list string) :
  (forall piece : string, piece ∈ ps ->
     piece <> Wildcard p /\ Index piece (Prefix p) = None) ->
  forall (unnamed : nat) (segs : list Segment),
  compileSegments p unnamed (ps ++ [Wildcard p]) segs
  = Ok (inl (segs ++ (staticSegment <$> ps)
                  ++ [wildcardSegment ("$" +:+ Itoa unnamed)])).
Proof.
  induction ps as [|piece ps IH]; intros Hps unnamed segs; simpl.
  - by rewrite compileSegment_wildcard.
  - destruct (Hps piece) as [Hw Hi]; [apply elem_of_cons; by left|].
    rewrite compileSegment_static by done.
    rewrite IH by (intros x Hx; apply Hps, elem_of_cons; by right).
    by rewrite <- app_assoc.
Qed.

Lemma matchFrom_more (sep : string) (seg : Segment) (rest : list Segment)
    (s : string) (d : matchDraft) :
  rest <> [] ->
  matchFrom sep (seg :: rest) s d
  = match Index s sep with
    | None => Ok None
    | Some k =>
        match accept seg d (takeS k s) with
        | Ok (Some d') => matchFrom sep rest (dropS (k + len sep) s) d'
        | Ok None => Ok None
        | Panic => Panic
        | OutOfFuel => OutOfFuel
        end
    end.
Proof. destruct rest; [done|]. intros _. apply matchFrom_cons. Qed.

Lemma matchFrom_static_then_wildcard (c : ascii) (key : string)
    (ps : list string) :
  (forall piece : string, piece ∈ ps -> Index piece (String c "") = None) ->
  forall (s : string) (d : matchDraft),
  matchFrom (String c "") ((staticSegment <$> ps) ++ [wildcardSegment key])
            s d
  = Ok (if HasPrefix s (eachThen (String c "") ps)
        then Some (set key (dropS (len (eachThen (String c "") ps)) s) d)
        else None).
Proof.
  set (sep := String c "").
  induction ps as [|piece ps IH]; intros Hfree s d.
  - cbn [fmap list_fmap app matchFrom Multiple eachThen foldr HasPrefix len].
    unfold accept. cbn [segMatch]. by rewrite dropS_0.
  - rewrite fmap_cons. cbn [app].
    rewrite matchFrom_more by (by destruct ps).
    assert (Hpiece : Index piece sep = None)
      by (apply Hfree, elem_of_cons; by left).
    assert (Hrest : forall x : string, x ∈ ps -> Index x sep = None)
      by (intros x Hx; apply Hfree, elem_of_cons; by right).
    change (eachThen sep (piece :: ps))
      with (piece +:+ sep +:+ eachThen sep ps).
    destruct (Index s sep) as [k|] eqn:Hk.
    + pose proof (Index_bound _ _ _ Hk) as Hb.
      pose proof (Index_Some _ _ _ Hk) as [Hocc _].
      assert (Hs : s = takeS k s +:+ sep +:+ dropS (k + len sep) s).
      { rewrite <- (takeS_dropS k s) at 1. f_equal.
        rewrite (HasPrefix_split _ _ Hocc) at 1. by rewrite dropS_add. }
      rewrite accept_static.
      destruct (String.eqb (takeS k s) piece) eqn:He.
      * apply String.eqb_eq in He. rewrite (IH Hrest).
        assert (Hl : len piece = k) by (rewrite <- He, len_takeS; lia).
        rewrite !len_app, Hl.
        replace (dropS (k + (len sep + len (eachThen sep ps))) s)
          with (dropS (len (eachThen sep ps)) (dropS (k + len sep) s))
          by (rewrite <- dropS_add; f_equal; lia).
        rewrite Hs at 3. rewrite He.
        by rewrite HasPrefix_app_same, HasPrefix_app_same.
      * apply String.eqb_neq in He.
        destruct (HasPrefix s (piece +:+ sep +:+ eachThen sep ps)) eqn:Hp;
          [|done].
        exfalso. apply He.
        apply HasPrefix_split in Hp. rewrite Hp in Hk.
        rewrite !app_assoc_s in Hk. unfold sep at 1 in Hk.
        rewrite app_cons, app_empty_l in Hk.
        rewrite (Index_app_free c piece _ Hpiece) in Hk.
        injection Hk as <-. rewrite Hp, !app_assoc_s. by rewrite takeS_app.
    + destruct (HasPrefix s (piece +:+ sep +:+ eachThen sep ps)) eqn:Hp;
        [|done].
      exfalso. apply HasPrefix_app_l in Hp as [_ Hp].
      apply HasPrefix_app_l in Hp as [Hp _].
      by rewrite (Index_None _ _ (len piece) Hk) in Hp.
Qed.

(** With the default options, a static pattern followed by a separator
    and the wildcard matches exactly the inputs that start with the
    static pattern and the separator, and the wildcard captures all that
    follows: for a pattern [base] none of whose pieces is the wildcard
    or holds a colon, [Compile] returns a path for [base/*] on which
    [Match] returns whether the input has the prefix [base/], and
    [FindSubmatch] returns the map of [$0] to the rest of the input, or
    [nil]; the path is left as it was. *)
Theorem trailing_wildcard_is_prefix (base s : string) (fuel : nat) :
  (forall piece : string, piece ∈ Split base "/" ->
     piece <> "*" /\ Index piece ":" = None) ->
  (length (Split base "/") + 1 < fuel)%nat ->
  exists p : Path,
    Compile (base +:+ "/*") [] = Ok (inl p) /\
    PathMatch fuel p s = Ok (HasPrefix s (base +:+ "/"), p) /\
    FindSubmatch fuel p s
    = Ok (if HasPrefix s (base +:+ "/")
          then Some {["$0" := dropS (len base + 1) s]} else None, p).
Proof.
  intros Hps Hf.
  set (ps := Split base "/") in *.
  set (segs := (staticSegment <$> ps) ++ [wildcardSegment "$0"]).
  set (p := withSegments segs (initialPath (base +:+ "/*"))).
  exists p.
  assert (Hc : Compile (base +:+ "/*") [] = Ok (inl p)).
  { unfold Compile. cbn [applyOptions Seperator].
    change (base +:+ "/*") with (base +:+ String "/" "*") at 2.
    rewrite (Split_app_char "/" base "*"). fold ps.
    change (Split "*" "/") with [Wildcard (initialPath (base +:+ "/*"))].
    rewrite compileSegments_then_wildcard by (intros; by apply Hps).
    done. }
  split; [done|].
  assert (Hw : wildcardOnlyLast (Segments p)).
  { intros j seg Hj Hs. simpl in Hj, Hs. unfold segs in Hj, Hs.
    rewrite length_app, length_fmap in Hj. simpl in Hj.
    rewrite lookup_app_l in Hs by (rewrite length_fmap; lia).
    rewrite list_lookup_fmap in Hs.
    destruct (ps !! j); [|done]. by injection Hs as <-. }
  assert (Hlen : (length (Segments p) < fuel)%nat).
  { simpl. unfold segs. rewrite length_app, length_fmap. simpl. lia. }
  assert (Hfree : forall piece : string, piece ∈ ps -> Index piece "/" = None)
    by (intros piece Hin; by apply (Split_free "/" ltac:(done) base)).
  assert (Hne : ps <> []) by (by apply Split_not_nil).
  assert (He : eachThen "/" ps = base +:+ "/").
  { rewrite eachThen_concat by done. unfold ps. by rewrite concat_Split. }
  assert (Hwalk : forall d : matchDraft,
    matchFrom "/" segs s d
    = Ok (if HasPrefix s (base +:+ "/")
          then Some (set "$0" (dropS (len base + 1) s) d) else None)).
  { intros d. unfold segs.
    rewrite (matchFrom_static_then_wildcard "/" "$0" ps Hfree), He.
    by rewrite len_app. }
  unfold PathMatch, FindSubmatch.
  rewrite !getMatch_matchFrom by done.
  cbn [Seperator Segments p withSegments initialPath pmatch pequalCheck orb].
  rewrite !Hwalk.
  destruct (HasPrefix s (base +:+ "/")); simpl; [|done].
  split; [done|]. by rewrite insert_empty.
Qed.

End TrailingWildcard.

(* ===================================================================== *)
(** * Queries between stored roles *)
(* ===================================================================== *)

Section RbacStored.

Import Rbac.

Context {Cache : Type}.
Variable cacheGet : string -> Cache -> option bool * Cache.
Variable cachePut : string -> bool -> Cache -> Cache.
Variable rangeOrder : gset string -> list string.

(** Between roles that are stored, the queries create nothing and so
    have nothing to remove: [HasLink] returns, with a nil error, and
    leaves the roles with all their edges, the recorded patterns and the
    settings as they were (only the cache of the sub-matcher may have
    changed); [GetRoles] and [GetUsers] return the names on the edges of
    the role and leave the manager as it was. *)
Theorem queries_between_stored_roles (fuel : nat) (name1 name2 : string)
    (rm : RoleManager Cache) :
  is_Some (allRoles rm !! name1) -> is_Some (allRoles rm !! name2) ->
  (Z.to_nat (maxHierarchyLevel rm) < fuel)%nat ->
  (exists (b : bool) (rm' : RoleManager Cache),
     HasLink Cache cacheGet cachePut rangeOrder fuel name1 name2 rm
     = Ok ((b, None), rm') /\
     allRoles rm' = allRoles rm /\ patternRoles rm' = patternRoles rm /\
     matcher rm' = matcher rm /\
     maxHierarchyLevel rm' = maxHierarchyLevel rm) /\
  GetRoles Cache cacheGet cachePut rangeOrder name1 rm
  = Ok ((getRoles rangeOrder (allRoles rm) name1, None), rm) /\
  GetUsers Cache cacheGet cachePut rangeOrder name1 rm
  = Ok ((getUsers rangeOrder (allRoles rm) name1, None), rm).
Proof.
  intros H1 H2 Hf. split_and!.
  - unfold HasLink, bind.
    destruct (sameOrMatch_Ok cacheGet cachePut name1 name2 rm)
      as (v & rm1 & -> & Hs1 & _).
    destruct v; [by exists true, rm1|].
    destruct Hs1 as (Ha & Hp & Hm & Hl).
    rewrite (getRole_loaded cacheGet cachePut rangeOrder name1 rm1)
      by (by rewrite Ha).
    rewrite (getRole_loaded cacheGet cachePut rangeOrder name2 rm1)
      by (by rewrite Ha).
    destruct (hasLinkHelper_Ok cacheGet cachePut rangeOrder fuel name2
                {[name1]} (maxHierarchyLevel rm1) rm1)
      as (b & rm2 & -> & Ha2 & Hp2 & Hm2 & Hl2); [by rewrite Hl|].
    exists b, rm2. simpl. split_and!; congruence.
  - unfold GetRoles, bind.
    by rewrite (getRole_loaded cacheGet cachePut rangeOrder name1 rm).
  - unfold GetUsers, bind.
    by rewrite (getRole_loaded cacheGet cachePut rangeOrder name1 rm).
Qed.

End RbacStored.

(* ===================================================================== *)
(** * A wildcard before the last segment *)
(* ===================================================================== *)

Section InnerWildcard.

Import Str Pathmatch.

Lemma tryPost_last (q : Segment) (x : string) :
  tryPost [q] [x] = if accepts q x then Accepted else Rejected.
Proof. reflexivity. Qed.

Lemma tryPost_last_more (q : Segment) (x y : string) (ys : list string) :
  tryPost [q] (x :: y :: ys) = if accepts q x then Final else Rejected.
Proof. reflexivity. Qed.

Lemma tryPost_short (q q2 : Segment) (post : list Segment) (x : string) :
  tryPost (q :: q2 :: post) [x] = Final.
Proof. reflexivity. Qed.

Lemma tryPost_step (q q2 : Segment) (post : list Segment) (x y : string)
    (ys : list string) :
  tryPost (q :: q2 :: post) (x :: y :: ys)
  = if accepts q x then tryPost (q2 :: post) (y :: ys) else Rejected.
Proof. reflexivity. Qed.

Lemma segMatch_accepts (seg : Segment) (d : matchDraft) (x : string) :
  shaped seg -> flagOf false seg ->
  exists d' : matchDraft, segMatch seg d x = Ok (accepts seg x, d').
Proof.
  intros Hs Hf.
  destruct (accept_Ok seg d x Hs) as [r Hr].
  destruct (accept_Ok seg (mkDraft false ∅) x Hs) as [r0 Hr0].
  pose proof (segMatch_alike seg d (mkDraft false ∅) x Hf) as Ha.
  unfold accepts. rewrite Hr0. unfold accept in Hr, Hr0.
  destruct (segMatch seg d x) as [[ok d1]| |]; try done.
  destruct (segMatch seg (mkDraft false ∅) x) as [[ok0 d0]| |]; try done.
  simpl in Ha. subst ok0. injection Hr0 as <-. exists d1.
  by destruct ok.
Qed.

Variables (segs : list Segment) (sep s : string) (i0 : nat).
Hypothesis Hsep : sep <> "".
Hypothesis Hshaped : Forall shaped segs.
Hypothesis Hflags : Forall (flagOf false) segs.
Hypothesis Hothers :
  forall (j : nat) (seg : Segment),
    j <> i0 -> segs !! j = Some seg -> Multiple seg = false.

Lemma seg_accepts (i : nat) (seg : Segment) (d : matchDraft) (x : string) :
  segs !! i = Some seg ->
  exists d' : matchDraft, segMatch seg d x = Ok (accepts seg x, d').
Proof.
  intros Hi. apply list_elem_of_lookup_2 in Hi.
  apply segMatch_accepts.
  - rewrite Forall_forall in Hshaped. by apply Hshaped.
  - rewrite Forall_forall in Hflags. by apply Hflags.
Qed.

Lemma post_loop :
  forall (fuel i P : nat) (d : matchDraft) (sv : savePoint),
  (i0 < i)%nat -> (i < length segs)%nat -> sp_valid sv = true ->
  (P <= len s)%nat -> (length segs - i < fuel)%nat ->
  match tryPost (drop i segs) (Split (dropS P s) sep) with
  | Accepted =>
      exists d' : matchDraft,
        matchLoop fuel segs sep s i P 0 (Some d) sv
        = Ok (LoopLeft (Some d') (len s), sv)
  | Final =>
      exists e : LoopEnd,
        matchLoop fuel segs sep s i P 0 (Some d) sv = Ok (e, sv) /\
        (e = Exhausted \/ e = Unconsumed)
  | Rejected =>
      exists (t : nat) (d' : matchDraft),
        (1 <= t <= length segs - i)%nat /\
        matchLoop fuel segs sep s i P 0 (Some d) sv
        = matchLoop (fuel - t) segs sep s (sp_i sv) (sp_sIndex sv)
                    (sp_searchStart sv) (Some d') sv
  end.
Proof.
  induction fuel as [|fuel IH]; intros i P d sv Hi0 Hi Hv Hle Hf; [lia|].
  destruct (lookup_lt_is_Some_2 segs i Hi) as [seg Hseg].
  assert (Hm : Multiple seg = false) by (apply (Hothers i); [lia|done]).
  rewrite (drop_S _ _ _ Hseg). cbn [matchLoop]. rewrite Hseg.
  rewrite (sliceSegment_start s sep P Hle).
  set (rest := dropS P s).
  assert (Hrest : (P + len rest = len s)%nat)
    by (unfold rest; rewrite len_dropS; lia).
  rewrite (Split_unfold rest sep Hsep). rewrite Hm. cbn [andb].
  destruct (decide (length segs - 1 = i)%nat) as [HL|HL].
  - rewrite (bool_decide_eq_true_2 _ HL).
    rewrite (drop_ge segs (S i)) by lia.
    destruct (Index rest sep) as [k|] eqn:Hk.
    + pose proof (Split_not_nil (dropS (k + len sep) rest) sep Hsep) as Hne.
      destruct (Split (dropS (k + len sep) rest) sep) as [|y ys]; [done|].
      rewrite tryPost_last_more. cbn [andb negb].
      destruct (seg_accepts i seg d (takeS k rest) Hseg) as [d1 ->].
      rewrite Hv. destruct (accepts seg (takeS k rest)); cbn [negb andb].
      * exists Unconsumed. auto.
      * exists 1%nat, d1. split; [lia|].
        by replace (S fuel - 1)%nat with fuel by lia.
    + rewrite tryPost_last. cbn [andb negb].
      destruct (seg_accepts i seg d rest Hseg) as [d1 ->].
      rewrite Hv. destruct (accepts seg rest); cbn [negb andb].
      * destruct fuel as [|fuel]; [lia|].
        rewrite matchLoop_end by lia. unfold segmentLen. rewrite Hrest.
        by exists d1.
      * exists 1%nat, d1. split; [lia|].
        by replace (S fuel - 1)%nat with fuel by lia.
  - rewrite (bool_decide_eq_false_2 _ HL).
    destruct (lookup_lt_is_Some_2 segs (S i) ltac:(lia)) as [seg2 Hseg2].
    rewrite (drop_S _ _ _ Hseg2).
    destruct (Index rest sep) as [k|] eqn:Hk.
    + pose proof (Split_not_nil (dropS (k + len sep) rest) sep Hsep) as Hne.
      pose proof (Index_bound _ _ _ Hk) as Hb.
      assert (Hk' : len (takeS k rest) = k) by (rewrite len_takeS; lia).
      specialize (IH (S i) (P + (k + len sep))%nat).
      rewrite (drop_S _ _ _ Hseg2) in IH.
      replace (dropS (P + (k + len sep)) s)
        with (dropS (k + len sep) rest) in IH
        by (unfold rest; by rewrite (dropS_add P (k + len sep) s)).
      destruct (Split (dropS (k + len sep) rest) sep) as [|y ys] eqn:Hsp;
        [done|].
      rewrite tryPost_step. cbn [andb negb].
      destruct (seg_accepts i seg d (takeS k rest) Hseg) as [d1 ->].
      rewrite Hv. destruct (accepts seg (takeS k rest)); cbn [negb andb].
      * unfold segmentLen. rewrite Hk'.
        specialize (IH d1 sv ltac:(lia) ltac:(lia) Hv ltac:(lia) ltac:(lia)).
        destruct (tryPost (seg2 :: drop (S (S i)) segs) (y :: ys)).
        -- exact IH.
        -- destruct IH as (t & d' & Ht & IH). exists (S t), d'.
           split; [lia|]. rewrite IH.
           by replace (S fuel - S t)%nat with (fuel - t)%nat by lia.
        -- exact IH.
      * exists 1%nat, d1. split; [lia|].
        by replace (S fuel - 1)%nat with fuel by lia.
    + rewrite tryPost_short. cbn [andb negb]. exists Exhausted. auto.
Qed.

Variable key : string.
Hypothesis Hwild : segs !! i0 = Some (wildcardSegment key).
Hypothesis Hpost : (S i0 < length segs)%nat.

Lemma sliceSegment_at (sIndex o : nat) :
  (sIndex + o <= len s)%nat ->
  sliceSegment s sep sIndex o
  = Some match Index (dropS (sIndex + o) s) sep with
         | Some k => (takeS (k + o) (dropS sIndex s), false)
         | None => (dropS sIndex s, true)
         end.
Proof.
  intros Hle. unfold sliceSegment, sliceFrom.
  rewrite (proj2 (Nat.leb_le sIndex (len s))) by lia.
  rewrite (proj2 (Nat.leb_le o (len (dropS sIndex s))))
    by (rewrite len_dropS; lia).
  rewrite <- dropS_add. by destruct (Index (dropS (sIndex + o) s) sep).
Qed.

Lemma wild_loop :
  forall (n fuel sIndex0 o : nat) (d : matchDraft) (sv : savePoint),
  (len s - (sIndex0 + o) < n)%nat -> (sIndex0 + o <= len s)%nat ->
  sp_valid sv = false \/
  (sp_valid sv = true /\ sp_i sv = i0 /\ sp_sIndex sv = sIndex0) ->
  (n * (length segs + 1) <= fuel)%nat ->
  exists (e : LoopEnd) (sv' : savePoint),
    matchLoop fuel segs sep s i0 sIndex0 o (Some d) sv = Ok (e, sv') /\
    ended s e (attempts (drop (S i0) segs)
                      (tail (Split (dropS (sIndex0 + o) s) sep))).
Proof.
  induction n as [|n IH]; intros fuel sIndex0 o d sv Hn Hle Hsv Hf; [lia|].
  destruct fuel as [|fuel]; [lia|].
  cbn [matchLoop]. rewrite Hwild, (sliceSegment_at sIndex0 o Hle).
  set (rest := dropS (sIndex0 + o) s).
  rewrite (Split_unfold rest sep Hsep).
  rewrite (bool_decide_eq_false_2 (length segs - 1 = i0)%nat) by lia.
  destruct (Index rest sep) as [k|] eqn:Hk.
  - pose proof (Index_bound _ _ _ Hk) as Hb.
    assert (Hrl : len rest = (len s - (sIndex0 + o))%nat)
      by (unfold rest; by rewrite len_dropS).
    assert (Hpos : (0 < len sep)%nat) by (destruct sep; [done|simpl; lia]).
    set (str := takeS (k + o) (dropS sIndex0 s)).
    assert (Hstr : len str = (k + o)%nat).
    { unfold str. rewrite len_takeS, len_dropS. lia. }
    cbn [andb negb Multiple tail segMatch].
    set (sv1 := mkSavePoint i0 sIndex0 (k + o + len sep) true).
    assert (Hsv1 : (if sp_valid sv && (sp_i sv =? i0)%nat
                    then mkSavePoint (sp_i sv) (sp_sIndex sv)
                                     (segmentLen str sep false) (sp_valid sv)
                    else mkSavePoint i0 sIndex0 (segmentLen str sep false)
                                     true) = sv1).
    { unfold segmentLen. rewrite Hstr.
      destruct Hsv as [Hv|(Hv & Hi & Hs)].
      - by rewrite Hv.
      - by rewrite Hv, Hi, Hs, Nat.eqb_refl. }
    rewrite Hsv1. unfold segmentLen. rewrite Hstr.
    set (P' := (sIndex0 + (k + o + len sep))%nat).
    assert (Hdrop : dropS P' s = dropS (k + len sep) rest).
    { unfold P', rest. rewrite <- dropS_add. f_equal. lia. }
    pose proof (post_loop fuel (S i0) P' (set key str d) sv1
                  ltac:(lia) Hpost eq_refl ltac:(unfold P'; lia)
                  ltac:(nia)) as Hp.
    rewrite Hdrop in Hp.
    pose proof (Split_not_nil (dropS (k + len sep) rest) sep Hsep) as Hne.
    destruct (Split (dropS (k + len sep) rest) sep) as [|y ys] eqn:Hsp;
      [done|].
    cbn [attempts].
    destruct (tryPost (drop (S i0) segs) (y :: ys)).
    + destruct Hp as [d' ->]. by eexists _, _.
    + destruct Hp as (t & d' & Ht & ->). cbn [sv1 sp_i sp_sIndex sp_searchStart].
      destruct (IH (fuel - t)%nat sIndex0 (k + o + len sep)%nat d' sv1)
        as (e & sv' & He & Hend); [lia|lia|by right|nia|].
      exists e, sv'. split; [done|].
      replace (dropS (sIndex0 + (k + o + len sep)) s)
        with (dropS (k + len sep) rest) in Hend by (by rewrite <- Hdrop).
      by rewrite Hsp in Hend.
    + destruct Hp as (e & -> & [->| ->]); by eexists _, _.
  - cbn [andb negb tail attempts]. by eexists _, _.
Qed.

Lemma front_loop :
  forall (k fuel i P : nat) (d : matchDraft) (sv : savePoint),
  (i + k)%nat = i0 -> sp_valid sv = false -> (P <= len s)%nat ->
  (k + (len s + 1) * (length segs + 1) <= fuel)%nat ->
  exists (e : LoopEnd) (sv' : savePoint),
    matchLoop fuel segs sep s i P 0 (Some d) sv = Ok (e, sv') /\
    ended s e (acceptsAll (take k (drop i segs))
                        (take k (Split (dropS P s) sep))
             && attempts (drop (S i0) segs)
                         (drop (S k) (Split (dropS P s) sep))).
Proof.
  induction k as [|k IH]; intros fuel i P d sv Hik Hv Hle Hf.
  - rewrite Nat.add_0_r in Hik. subst i.
    destruct (wild_loop (len s - P + 1) fuel P 0 d sv)
      as (e & sv' & He & Hend); [lia|lia|by left|nia|].
    exists e, sv'. split; [done|].
    rewrite Nat.add_0_r in Hend. cbn [take acceptsAll andb].
    by destruct (Split (dropS P s) sep).
  - destruct fuel as [|fuel]; [lia|].
    destruct (lookup_lt_is_Some_2 segs i ltac:(lia)) as [seg Hseg].
    assert (Hm : Multiple seg = false) by (apply (Hothers i); [lia|done]).
    rewrite (drop_S _ _ _ Hseg). cbn [matchLoop]. rewrite Hseg.
    rewrite (sliceSegment_start s sep P Hle).
    set (rest := dropS P s).
    rewrite (Split_unfold rest sep Hsep). rewrite Hm.
    rewrite (bool_decide_eq_false_2 (length segs - 1 = i)%nat) by lia.
    destruct (Index rest sep) as [kk|] eqn:Hk.
    + pose proof (Index_bound _ _ _ Hk) as Hb.
      assert (Hrl : len rest = (len s - P)%nat)
        by (unfold rest; by rewrite len_dropS).
      assert (Hk' : len (takeS kk rest) = kk) by (rewrite len_takeS; lia).
      cbn [andb negb take drop acceptsAll].
      destruct (seg_accepts i seg d (takeS kk rest) Hseg) as [d1 ->].
      rewrite Hv, andb_false_r. unfold segmentLen. rewrite Hk'.
      destruct (accepts seg (takeS kk rest)).
      * destruct (IH fuel (S i) (P + (kk + len sep))%nat d1 sv)
          as (e & sv' & He & Hend); [lia|done|lia|lia|].
        exists e, sv'. split; [done|].
        replace (dropS (P + (kk + len sep)) s)
          with (dropS (kk + len sep) rest) in Hend
          by (unfold rest; by rewrite (dropS_add P (kk + len sep) s)).
        done.
      * destruct fuel as [|fuel]; [lia|]. rewrite matchLoop_nil.
        by eexists _, _.
    + cbn [andb negb take drop acceptsAll attempts].
      eexists _, _. split; [reflexivity|]. simpl.
      by rewrite andb_false_r.
Qed.

End InnerWildcard.

Section InnerWildcardCompiled.

Import Str Pathmatch.

Lemma getMatch_ended (fuel : nat) (p : Path) (s : string) (capture : bool)
    (e : LoopEnd) (sv : savePoint) (b : bool) :
  matchLoop fuel (Segments p) (Seperator p) s 0 0 0
            (Some (newMatchDraft capture (pmatch p))) (save p) = Ok (e, sv) ->
  ended s e b ->
  exists m : option Match,
    getMatch fuel p s capture = Ok (m, withSave sv p) /\
    (m <> None <-> b = true).
Proof.
  intros Hrun He. unfold getMatch. rewrite Hrun.
  destruct e as [| |[d'|] k]; simpl in He.
  - subst b. by exists None.
  - subst b. by exists None.
  - destruct He as [-> ->]. rewrite Nat.eqb_refl. simpl.
    by exists (Some (dmatch d')).
  - subst b. by exists None.
Qed.

(** One wildcard before the last segment takes the fewest pieces that
    the segments after it put up with.  On a path as [Compile] returns
    it, without the equality check and with a separator that is not
    empty, whose pattern has the wildcard at one position [i0] that is
    not the last: the input matches exactly when the segments before
    the wildcard accept the first [i0] pieces of the input, one each,
    and, the wildcard having taken one more piece each time a segment
    after it rejected its piece, the segments after it all accept the
    pieces that follow and the pieces run out with them.  The first
    time no segment rejects decides: when pieces are left over then, the
    input does not match.  [Match] and [FindSubmatch] return, given fuel
    for the attempts, and agree on this. *)
Theorem inner_wildcard_match (pattern : string) (options : list Option)
    (p : Path) (s : string) (fuel i0 : nat) :
  Compile pattern options = Ok (inl p) -> Seperator p <> "" ->
  pequalCheck p = false ->
  Split pattern (Seperator p) !! i0 = Some (Wildcard p) ->
  (forall (j : nat) (piece : string),
     j <> i0 -> Split pattern (Seperator p) !! j = Some piece ->
     piece <> Wildcard p) ->
  (S i0 < length (Split pattern (Seperator p)))%nat ->
  (i0 + (len s + 1) * (length (Segments p) + 1) <= fuel)%nat ->
  let b :=
    acceptsAll (take i0 (Segments p)) (take i0 (Split s (Seperator p)))
    && attempts (drop (S i0) (Segments p))
                (drop (S i0) (Split s (Seperator p))) in
  (exists p' : Path, PathMatch fuel p s = Ok (b, p')) /\
  (exists (m : option Match) (p' : Path),
     FindSubmatch fuel p s = Ok (m, p') /\ (m <> None <-> b = true)).
Proof.
  intros Hc Hsep Hec Hw Hoth Hpost Hf b.
  pose proof (Compile_fresh _ _ _ Hc) as Hv.
  pose proof (Compile_shaped _ _ _ Hc) as Hsh.
  pose proof (Compile_flags _ _ _ Hc) as Hfl. rewrite Hec in Hfl.
  destruct (Compile_index _ _ _ Hc) as [Hlen Hidx].
  assert (Hothers : forall (j : nat) (seg : Segment),
            j <> i0 -> Segments p !! j = Some seg -> Multiple seg = false).
  { intros j seg Hj Hseg.
    destruct (lookup_lt_is_Some_2 (Split pattern (Seperator p)) j)
      as [piece Hpiece].
    { rewrite <- Hlen. by eapply lookup_lt_Some. }
    destruct (Hidx j piece Hpiece) as (seg' & u & u' & Hs & Hcs).
    rewrite Hseg in Hs. injection Hs as <-.
    by apply compileSegment_other in Hcs as (_ & ? & _); [|by eapply Hoth]. }
  assert (Hwild : exists key, Segments p !! i0 = Some (wildcardSegment key)).
  { destruct (Hidx i0 _ Hw) as (seg & u & u' & Hs & Hcs).
    rewrite compileSegment_wildcard in Hcs. injection Hcs as <- _.
    by eexists. }
  destruct Hwild as [key Hwild].
  rewrite <- Hlen in Hpost.
  assert (Hrun : forall d : matchDraft,
    exists (e : LoopEnd) (sv' : savePoint),
      matchLoop fuel (Segments p) (Seperator p) s 0 0 0 (Some d) (save p)
      = Ok (e, sv') /\ ended s e b).
  { intros d.
    destruct (front_loop (Segments p) (Seperator p) s i0 Hsep Hsh Hfl Hothers
                key Hwild Hpost i0 fuel 0 0 d (save p))
      as (e & sv' & He & Hend); [done|done|lia|lia|].
    rewrite drop_0, dropS_0 in Hend. by exists e, sv'. }
  split.
  - destruct (Hrun (newMatchDraft (false || pequalCheck p) (pmatch p)))
      as (e & sv' & He & Hend).
    destruct (getMatch_ended _ _ _ _ _ _ _ He Hend) as (m & Hg & Hm).
    exists (withSave sv' p). unfold PathMatch. rewrite Hg. f_equal. f_equal.
    destruct b.
    + apply bool_decide_eq_true_2. by apply Hm.
    + apply bool_decide_eq_false_2. intros H. by apply Hm in H.
  - destruct (Hrun (newMatchDraft true (pmatch p))) as (e & sv' & He & Hend).
    destruct (getMatch_ended _ _ _ _ _ _ _ He Hend) as (m & Hg & Hm).
    by exists m, (withSave sv' p).
Qed.

End InnerWildcardCompiled.

(** [/foo/:name] answers on [/foo/bar]. *)
Lemma Match_always_returns_witness :
  exists (b : bool) (m : option Pathmatch.Match),
    Pathmatch.PathMatch 4 Examples.fooName "/foo/bar"
    = Ok (b, Examples.fooName) /\
    Pathmatch.FindSubmatch 4 Examples.fooName "/foo/bar"
    = Ok (m, Examples.fooName).
Proof.
  apply (Match_always_returns "/foo/:name" [] Examples.fooName "/foo/bar" 4).
  - vm_compute. reflexivity.
  - assert (HF : Forall (fun piece => piece <> "*")
                   (Str.Split "/foo/:name" "/"))
      by (apply (bool_decide_unpack _); vm_compute; exact I).
    intros i piece _ Hp. exact (Forall_lookup_1 _ _ _ _ HF Hp).
  - simpl. lia.
Defined.

(** [/foo/*] on [/foo/a/b]. *)
Lemma trailing_wildcard_is_prefix_witness :
  exists p : Pathmatch.Path,
    Pathmatch.Compile ("/foo" +:+ "/*") [] = Ok (inl p) /\
    Pathmatch.PathMatch 5 p "/foo/a/b"
    = Ok (Str.HasPrefix "/foo/a/b" ("/foo" +:+ "/"), p) /\
    Pathmatch.FindSubmatch 5 p "/foo/a/b"
    = Ok (if Str.HasPrefix "/foo/a/b" ("/foo" +:+ "/")
          then Some {["$0" := Str.dropS (Str.len "/foo" + 1) "/foo/a/b"]}
          else None, p).
Proof.
  apply (trailing_wildcard_is_prefix "/foo" "/foo/a/b" 5).
  - assert (HF : Forall (fun piece => piece <> "*" /\
                                      Str.Index piece ":" = None)
                   (Str.Split "/foo" "/"))
      by (apply (bool_decide_unpack _); vm_compute; exact I).
    intros piece Hin. rewrite Forall_forall in HF. by apply HF.
  - vm_compute. lia.
Defined.

(** [HasLink] and [GetRoles] between [a] and [c] in the cyclic graph. *)
Lemma queries_between_stored_roles_witness :
  (exists (b : bool) (rm' : Rbac.RoleManager unit),
     Rbac.HasLink unit Examples.noCacheGet Examples.noCachePut elements 11
       "a" "c" Examples.cyclicRoles = Ok ((b, None), rm') /\
     Rbac.allRoles rm' = Rbac.allRoles Examples.cyclicRoles /\
     Rbac.patternRoles rm' = Rbac.patternRoles Examples.cyclicRoles /\
     Rbac.matcher rm' = Rbac.matcher Examples.cyclicRoles /\
     Rbac.maxHierarchyLevel rm'
     = Rbac.maxHierarchyLevel Examples.cyclicRoles) /\
  Rbac.GetRoles unit Examples.noCacheGet Examples.noCachePut elements "a"
    Examples.cyclicRoles
  = Ok ((Rbac.getRoles elements (Rbac.allRoles Examples.cyclicRoles) "a",
         None), Examples.cyclicRoles) /\
  Rbac.GetUsers unit Examples.noCacheGet Examples.noCachePut elements "a"
    Examples.cyclicRoles
  = Ok ((Rbac.getUsers elements (Rbac.allRoles Examples.cyclicRoles) "a",
         None), Examples.cyclicRoles).
Proof.
  apply (queries_between_stored_roles Examples.noCacheGet
           Examples.noCachePut elements 11 "a" "c" Examples.cyclicRoles).
  - vm_compute. by eexists.
  - vm_compute. by eexists.
  - vm_compute. lia.
Defined.

(** [/*/edit] on [/a/b/edit]. *)
Lemma inner_wildcard_match_witness :
  (exists p' : Pathmatch.Path,
     Pathmatch.PathMatch 50 Examples.starEdit "/a/b/edit"
     = Ok (Pathmatch.acceptsAll
             (take 1 (Pathmatch.Segments Examples.starEdit))
             (take 1 (Str.Split "/a/b/edit" "/"))
           && Pathmatch.attempts
                (drop 2 (Pathmatch.Segments Examples.starEdit))
                (drop 2 (Str.Split "/a/b/edit" "/")), p')) /\
  (exists (m : option Pathmatch.Match) (p' : Pathmatch.Path),
     Pathmatch.FindSubmatch 50 Examples.starEdit "/a/b/edit" = Ok (m, p') /\
     (m <> None <->
      Pathmatch.acceptsAll
        (take 1 (Pathmatch.Segments Examples.starEdit))
        (take 1 (Str.Split "/a/b/edit" "/"))
      && Pathmatch.attempts
           (drop 2 (Pathmatch.Segments Examples.starEdit))
           (drop 2 (Str.Split "/a/b/edit" "/")) = true)).
Proof.
  apply (inner_wildcard_match "/*/edit" [] Examples.starEdit "/a/b/edit"
           50 1).
  - vm_compute. reflexivity.
  - done.
  - reflexivity.
  - vm_compute. reflexivity.
  - intros [|[|[|j]]] piece Hj Hp; vm_compute in Hp; try done;
      injection Hp as <-; done.
  - vm_compute. lia.
  - vm_compute. lia.
Defined.

(* ===================================================================== *)
(** * The save point between calls *)
(* ===================================================================== *)

Section SavePoint.

Import Str Pathmatch.

Lemma matchLoop_valid (segs : list Segment) (sep s : string) :
  forall (fuel i sIndex searchStart : nat) (d : option matchDraft)
         (sv : savePoint) (e : LoopEnd) (sv' : savePoint),
  sp_valid sv = true ->
  matchLoop fuel segs sep s i sIndex searchStart d sv = Ok (e, sv') ->
  sp_valid sv' = true.
Proof.
  induction fuel as [|fuel IH];
    intros i sIndex searchStart d sv e sv' Hv; [done|].
  simpl. destruct d as [d|]; [|by intros [= _ <-]].
  destruct (segs !! i) as [seg|]; [|by intros [= _ <-]].
  destruct (sliceSegment s sep sIndex searchStart) as [[str fin]|]; [|done].
  destruct (fin && negb _); [by intros [= _ <-]|].
  destruct (Multiple seg && _).
  { destruct (segMatch seg d (dropS sIndex s)) as [[ok d']| |]; try done.
    by intros [= _ <-]. }
  match goal with
  | |- context [segMatch seg d str] =>
      destruct (segMatch seg d str) as [[ok d']| |]; try done
  end.
  match goal with
  | |- context [sp_valid ?x] => set (sv1 := x)
  end.
  assert (Hv1 : sp_valid sv1 = true).
  { unfold sv1. destruct (Multiple seg); [|done].
    by destruct (sp_valid sv && _). }
  destruct (negb ok && sp_valid sv1); [by apply IH|].
  destruct (_ && negb fin); [by intros [= _ <-]|]. by apply IH.
Qed.

(** A save point is never cleared.  A call of [Match] or
    [FindSubmatch] that returns changes nothing of the path but its save
    point, and on a path whose save point is valid it leaves it valid:
    the position saved at a wildcard by one call is still there in every
    later call, whatever the inputs in between. *)
Theorem save_point_never_cleared
    (fuel : nat) (p : Path) (s : string) (capture : bool)
    (m : option Match) (p' : Path) :
  getMatch fuel p s capture = Ok (m, p') ->
  (exists sv : savePoint, p' = withSave sv p) /\
  (sp_valid (save p) = true -> sp_valid (save p') = true).
Proof.
  unfold getMatch.
  destruct (matchLoop _ _ _ _ _ _ _ _ _) as [[e sv]| |] eqn:Hrun;
    try done.
  assert (Hall : forall m0 : option Match,
            Ok (m0, withSave sv p) = Ok (m, p') ->
            (exists sv0 : savePoint, p' = withSave sv0 p) /\
            (sp_valid (save p) = true -> sp_valid (save p') = true)).
  { intros m0 [= _ <-]. split; [by exists sv|]. intros Hv.
    by apply (matchLoop_valid _ _ _ _ _ _ _ _ _ _ _ Hv) in Hrun. }
  destruct e as [| |[d|] k]; try apply Hall.
  destruct (negb _); apply Hall.
Qed.

Lemma save_point_never_cleared_witness :
  let p1 := withSave (mkSavePoint 1 2 2 true) Examples.aStarA in
  let p2 := withSave (mkSavePoint 1 2 4 true) Examples.aStarA in
  getMatch 10 p1 "b/a/a/a" false = Ok (Some (∅ : Match), p2) /\
  (exists sv : savePoint, p2 = withSave sv p1) /\
  (sp_valid (save p1) = true -> sp_valid (save p2) = true).
Proof.
  cbv zeta. split; [vm_compute; reflexivity|].
  apply (save_point_never_cleared 10
           (withSave (mkSavePoint 1 2 2 true) Examples.aStarA)
           "b/a/a/a" false (Some (∅ : Match))
           (withSave (mkSavePoint 1 2 4 true) Examples.aStarA)).
  vm_compute; reflexivity.
Defined.

End SavePoint.
